(** * Host-based dense matrix operations of ViennaCL

    A shallow embedding of [viennacl/linalg/host_based/matrix_operations.hpp]:
    the element-wise operations ([convert], [am], [ambm], [element_op],
    [matrix_assign]), the blocked transposition [trans], the row/column
    extraction [copy_vec] and the blocked matrix-matrix product
    ([detail::prod], [prod_impl]); then the operations between matrices and
    vectors (the diagonal, row and column operations, the matrix-vector
    [prod_impl], [scaled_rank_1_update], [bidiag_pack_impl]), the
    Householder and Givens updates of the eigenvalue routines, and the
    class [lazy_program_compiler] of
    [viennacl/device_specific/lazy_program_compiler.hpp].

    Modelling conventions.
    - [vcl_size_t] is modelled by [nat].  The subtractions the sources
      perform on sizes do not underflow, so truncated subtraction agrees with
      the machine subtraction: in [detail::prod] on the iterations the loops
      reach (lemmas [tile_row_origin_in_range], [tile_col_origin_in_range],
      [k_block_origin_in_range]), in [trans] because a remainder is at most
      the size it is taken from, in [copy_vec] because the loop starts at the
      subtrahend.
    - A raw pointer [NumericT *] is a [buffer]: a function from element
      offsets to values.  Nothing is known about the extent of the allocation
      behind a raw pointer, and the model invents none.
    - Every matrix owns its storage: operands do not alias.
    - [for (i = lo; i < hi; ++i) body] is [for_loop lo hi body]; the OpenMP
      pragmas are optional in the sources and the loops are run in order.
    - [NumericT] is any type with the operations of the class [Numeric];
      it is instantiated with [Z] (exact arithmetic) and with the binary64
      floating-point numbers of the kernel (for NaN). *)

From Stdlib Require Import Arith ZArith List Bool Lia PeanoNat.
From Stdlib Require Import Floats.PrimFloat.
From Stdlib Require String.
Import ListNotations.

Set Implicit Arguments.

(* ================================================================= *)
(** ** Element types *)

Class Numeric (T : Type) : Type := {
  num_zero : T;
  num_add : T -> T -> T;
  num_mul : T -> T -> T;
  num_div : T -> T -> T;
  num_opp : T -> T;
  num_lt : T -> T -> bool
}.

Declare Scope num_scope.
Delimit Scope num_scope with num.
Infix "+!" := num_add (at level 50, left associativity) : num_scope.
Infix "*!" := num_mul (at level 40, left associativity) : num_scope.
Infix "/!" := num_div (at level 40, left associativity) : num_scope.
Infix "<!" := num_lt (at level 70, no associativity) : num_scope.
Local Open Scope num_scope.

(** Integers: division truncates towards zero as in C++. *)
#[export] Instance Numeric_Z : Numeric Z := {|
  num_zero := 0%Z;
  num_add := Z.add;
  num_mul := Z.mul;
  num_div := Z.quot;
  num_opp := Z.opp;
  num_lt := Z.ltb
|}.

(** IEEE 754 binary64 ([double]). *)
#[export] Instance Numeric_double : Numeric float := {|
  num_zero := PrimFloat.zero;
  num_add := PrimFloat.add;
  num_mul := PrimFloat.mul;
  num_div := PrimFloat.div;
  num_opp := PrimFloat.opp;
  num_lt := PrimFloat.ltb
|}.

(** The laws under which sums may be reassociated. *)
Record reassociation_laws (T : Type) `{Numeric T} : Prop := {
  add_assoc_law : forall x y z : T, x +! (y +! z) = (x +! y) +! z;
  add_zero_r_law : forall x : T, x +! num_zero = x;
  mul_add_distr_law : forall a x y : T, a *! (x +! y) = a *! x +! a *! y
}.

Arguments reassociation_laws T {_}.

(* ================================================================= *)
(** ** Buffers and loops *)

Definition buffer (T : Type) : Type := nat -> T.

(** [data[a] = v] *)
Definition upd {T} (data : buffer T) (a : nat) (v : T) : buffer T :=
  fun a' => if Nat.eqb a' a then v else data a'.

(** Pointer arithmetic: [&(data[off])] *)
Definition shift {T} (data : buffer T) (off : nat) : buffer T :=
  fun a => data (off + a).

(** The first [n] cells of a buffer, for display. *)
Definition dump {T} (data : buffer T) (n : nat) : list T := map data (seq 0 n).

(** [for (i = lo; i < hi; ++i) s = body i s] *)
Definition for_loop {S} (lo hi : nat) (body : nat -> S -> S) (s : S) : S :=
  fold_left (fun s i => body i s) (seq lo (hi - lo)) s.

(* ================================================================= *)
(** ** Memory layout *)

Inductive layout : Type := row_major | column_major.

(** Modelled from the spec: [row_major::mem_index] and
    [column_major::mem_index] are declared in [viennacl/forwards.h], which is
    not among the sources.  Spec 4.1 describes the offset of a cell as the
    start plus the row index times the row stride plus the column index
    times the column stride for row-major storage, "or swapped" for
    column-major storage, and leaves the length of a stored line implicit in
    the strides.  The calls in [copy_vec] pass the two (already strided and
    shifted) indices followed by [internal_size1] and [internal_size2]: the
    length of a stored line is [num_cols] in row-major and [num_rows] in
    column-major storage. *)
Definition mem_index (L : layout) (i j num_rows num_cols : nat) : nat :=
  match L with
  | row_major => i * num_cols + j
  | column_major => i + j * num_rows
  end.

Definition layout_of (is_row_major : bool) : layout :=
  if is_row_major then row_major else column_major.

(** [matrix_base<NumericT>]: the view metadata and the storage behind
    [extract_raw_pointer]. *)
Record matrix_base (T : Type) : Type := {
  start1 : nat;
  start2 : nat;
  stride1 : nat;
  stride2 : nat;
  size1 : nat;
  size2 : nat;
  internal_size1 : nat;
  internal_size2 : nat;
  is_row_major : bool;
  elements : buffer T
}.

(** Modelled from the spec: [detail::matrix_array_wrapper] is declared in
    [host_based/common.hpp], which is not among the sources.  Its constructor
    arguments are those of the calls in the sources; its access operator
    returns the cell of logical index [(i, j)] (spec 4.1), as the
    commented-out index expressions of [matrix_assign] spell out. *)
Record matrix_array_wrapper : Type := {
  w_start1 : nat;
  w_start2 : nat;
  w_inc1 : nat;
  w_inc2 : nat;
  w_internal_size1 : nat;
  w_internal_size2 : nat
}.

Definition wrapper_index (L : layout) (w : matrix_array_wrapper) (i j : nat) : nat :=
  mem_index L (w_start1 w + i * w_inc1 w) (w_start2 w + j * w_inc2 w)
            (w_internal_size1 w) (w_internal_size2 w).

(** The wrapper every operation builds from a matrix. *)
Definition wrapper_of {T} (M : matrix_base T) : matrix_array_wrapper :=
  {| w_start1 := start1 M; w_start2 := start2 M;
     w_inc1 := stride1 M; w_inc2 := stride2 M;
     w_internal_size1 := internal_size1 M;
     w_internal_size2 := internal_size2 M |}.

(** Offset of the logical element [(i, j)] of a matrix. *)
Definition offset_of {T} (M : matrix_base T) (i j : nat) : nat :=
  wrapper_index (layout_of (is_row_major M)) (wrapper_of M) i j.

(** Value of the logical element [(i, j)] of a matrix. *)
Definition element {T} (M : matrix_base T) (i j : nat) : T :=
  elements M (offset_of M i j).

Definition with_elements {T} (M : matrix_base T) (data : buffer T) : matrix_base T :=
  {| start1 := start1 M; start2 := start2 M;
     stride1 := stride1 M; stride2 := stride2 M;
     size1 := size1 M; size2 := size2 M;
     internal_size1 := internal_size1 M;
     internal_size2 := internal_size2 M;
     is_row_major := is_row_major M;
     elements := data |}.

(** A wrapper addresses distinct cells for distinct indices below [n1 x n2]:
    the strides are positive and the fast index stays inside a line of the
    padded storage. *)
Definition wf_wrapper (L : layout) (w : matrix_array_wrapper) (n1 n2 : nat) : Prop :=
  0 < w_inc1 w /\ 0 < w_inc2 w /\
  match L with
  | row_major => forall j, j < n2 -> w_start2 w + j * w_inc2 w < w_internal_size2 w
  | column_major => forall i, i < n1 -> w_start1 w + i * w_inc1 w < w_internal_size1 w
  end.

Definition wf_matrix {T} (M : matrix_base T) : Prop :=
  wf_wrapper (layout_of (is_row_major M)) (wrapper_of M) (size1 M) (size2 M).

(* ================================================================= *)
(** ** Element-wise operations *)

(** An operation either runs to completion or is aborted by its entry
    [assert]; both carry the storage of the destination at that point. *)
Inductive outcome (T : Type) : Type :=
| completed (data : buffer T)
| assertion_failed (data : buffer T).

Arguments completed {T} data.
Arguments assertion_failed {T} data.

Definition storage {T} (o : outcome T) : buffer T :=
  match o with completed d => d | assertion_failed d => d end.

Section Elementwise.

Context {T : Type} `{Numeric T}.

(** [convert]: [cast] is [static_cast<DestNumericT>]. *)
Definition convert {SrcT} (cast : SrcT -> T)
    (mat1 : matrix_base T) (mat2 : matrix_base SrcT) : outcome T :=
  if negb (Bool.eqb (is_row_major mat1) (is_row_major mat2))
  then assertion_failed (elements mat1) else
  let data_A := elements mat1 in
  let data_B := elements mat2 in
  let A_size1 := size1 mat1 in
  let A_size2 := size2 mat1 in
  if is_row_major mat1 then
    let wrapper_A := wrapper_index row_major (wrapper_of mat1) in
    let wrapper_B := wrapper_index row_major (wrapper_of mat2) in
    completed
      (for_loop 0 A_size1 (fun row =>
         for_loop 0 A_size2 (fun col d =>
           upd d (wrapper_A row col) (cast (data_B (wrapper_B row col)))))
       data_A)
  else
    let wrapper_A := wrapper_index column_major (wrapper_of mat1) in
    let wrapper_B := wrapper_index column_major (wrapper_of mat2) in
    completed
      (for_loop 0 A_size2 (fun col =>
         for_loop 0 A_size1 (fun row d =>
           upd d (wrapper_A row col) (cast (data_B (wrapper_B row col)))))
       data_A).

(** [am]: [mat1 = mat2 * alpha] or [mat1 = mat2 / alpha]. *)
Definition am (mat1 mat2 : matrix_base T) (alpha : T)
    (reciprocal_alpha flip_sign_alpha : bool) : outcome T :=
  if negb (Bool.eqb (is_row_major mat1) (is_row_major mat2))
  then assertion_failed (elements mat1) else
  let data_A := elements mat1 in
  let data_B := elements mat2 in
  let data_alpha := alpha in
  let data_alpha := if flip_sign_alpha then num_opp data_alpha else data_alpha in
  let A_size1 := size1 mat1 in
  let A_size2 := size2 mat1 in
  if is_row_major mat1 then
    let wrapper_A := wrapper_index row_major (wrapper_of mat1) in
    let wrapper_B := wrapper_index row_major (wrapper_of mat2) in
    if reciprocal_alpha then
      completed
        (for_loop 0 A_size1 (fun row =>
           for_loop 0 A_size2 (fun col d =>
             upd d (wrapper_A row col) (data_B (wrapper_B row col) /! data_alpha)))
         data_A)
    else
      completed
        (for_loop 0 A_size1 (fun row =>
           for_loop 0 A_size2 (fun col d =>
             upd d (wrapper_A row col) (data_B (wrapper_B row col) *! data_alpha)))
         data_A)
  else
    let wrapper_A := wrapper_index column_major (wrapper_of mat1) in
    let wrapper_B := wrapper_index column_major (wrapper_of mat2) in
    if reciprocal_alpha then
      completed
        (for_loop 0 A_size2 (fun col =>
           for_loop 0 A_size1 (fun row d =>
             upd d (wrapper_A row col) (data_B (wrapper_B row col) /! data_alpha)))
         data_A)
    else
      completed
        (for_loop 0 A_size2 (fun col =>
           for_loop 0 A_size1 (fun row d =>
             upd d (wrapper_A row col) (data_B (wrapper_B row col) *! data_alpha)))
         data_A).

(** The four [reciprocal_alpha]/[reciprocal_beta] branches of [ambm] and
    [ambm_m] compute this value from the two source elements. *)
Definition ambm_value (data_alpha data_beta : T)
    (reciprocal_alpha reciprocal_beta : bool) (b c : T) : T :=
  if reciprocal_alpha && reciprocal_beta then b /! data_alpha +! c /! data_beta
  else if reciprocal_alpha && negb reciprocal_beta then b /! data_alpha +! c *! data_beta
  else if negb reciprocal_alpha && reciprocal_beta then b *! data_alpha +! c /! data_beta
  else b *! data_alpha +! c *! data_beta.

(** [ambm]: [mat1 = mat2 * alpha + mat3 * beta] and its reciprocal forms. *)
Definition ambm (mat1 mat2 : matrix_base T) (alpha : T)
    (reciprocal_alpha flip_sign_alpha : bool)
    (mat3 : matrix_base T) (beta : T)
    (reciprocal_beta flip_sign_beta : bool) : outcome T :=
  if negb (Bool.eqb (is_row_major mat1) (is_row_major mat2)
           && Bool.eqb (is_row_major mat1) (is_row_major mat3))
  then assertion_failed (elements mat1) else
  let data_A := elements mat1 in
  let data_B := elements mat2 in
  let data_C := elements mat3 in
  let data_alpha := if flip_sign_alpha then num_opp alpha else alpha in
  let data_beta := if flip_sign_beta then num_opp beta else beta in
  let A_size1 := size1 mat1 in
  let A_size2 := size2 mat1 in
  let value := ambm_value data_alpha data_beta reciprocal_alpha reciprocal_beta in
  if is_row_major mat1 then
    let wrapper_A := wrapper_index row_major (wrapper_of mat1) in
    let wrapper_B := wrapper_index row_major (wrapper_of mat2) in
    let wrapper_C := wrapper_index row_major (wrapper_of mat3) in
    completed
      (for_loop 0 A_size1 (fun row =>
         for_loop 0 A_size2 (fun col d =>
           upd d (wrapper_A row col)
               (value (data_B (wrapper_B row col)) (data_C (wrapper_C row col)))))
       data_A)
  else
    let wrapper_A := wrapper_index column_major (wrapper_of mat1) in
    let wrapper_B := wrapper_index column_major (wrapper_of mat2) in
    let wrapper_C := wrapper_index column_major (wrapper_of mat3) in
    completed
      (for_loop 0 A_size2 (fun col =>
         for_loop 0 A_size1 (fun row d =>
           upd d (wrapper_A row col)
               (value (data_B (wrapper_B row col)) (data_C (wrapper_C row col)))))
       data_A).

(** [ambm_m]: [mat1 += mat2 * alpha + mat3 * beta] and its reciprocal forms. *)
Definition ambm_m (mat1 mat2 : matrix_base T) (alpha : T)
    (reciprocal_alpha flip_sign_alpha : bool)
    (mat3 : matrix_base T) (beta : T)
    (reciprocal_beta flip_sign_beta : bool) : outcome T :=
  if negb (Bool.eqb (is_row_major mat1) (is_row_major mat2)
           && Bool.eqb (is_row_major mat1) (is_row_major mat3))
  then assertion_failed (elements mat1) else
  let data_A := elements mat1 in
  let data_B := elements mat2 in
  let data_C := elements mat3 in
  let data_alpha := if flip_sign_alpha then num_opp alpha else alpha in
  let data_beta := if flip_sign_beta then num_opp beta else beta in
  let A_size1 := size1 mat1 in
  let A_size2 := size2 mat1 in
  let value := ambm_value data_alpha data_beta reciprocal_alpha reciprocal_beta in
  if is_row_major mat1 then
    let wrapper_A := wrapper_index row_major (wrapper_of mat1) in
    let wrapper_B := wrapper_index row_major (wrapper_of mat2) in
    let wrapper_C := wrapper_index row_major (wrapper_of mat3) in
    completed
      (for_loop 0 A_size1 (fun row =>
         for_loop 0 A_size2 (fun col d =>
           upd d (wrapper_A row col)
               (d (wrapper_A row col)
                +! value (data_B (wrapper_B row col)) (data_C (wrapper_C row col)))))
       data_A)
  else
    let wrapper_A := wrapper_index column_major (wrapper_of mat1) in
    let wrapper_B := wrapper_index column_major (wrapper_of mat2) in
    let wrapper_C := wrapper_index column_major (wrapper_of mat3) in
    completed
      (for_loop 0 A_size2 (fun col =>
         for_loop 0 A_size1 (fun row d =>
           upd d (wrapper_A row col)
               (d (wrapper_A row col)
                +! value (data_B (wrapper_B row col)) (data_C (wrapper_C row col)))))
       data_A).

(** Binary [element_op]: [A = B .* C], [A = B ./ C], ...; [op] is what
    [op_applier<op_element_binary<OpT> >::apply] assigns to its first
    argument ([detail/op_applier.hpp] is not among the sources). *)
Definition element_op_binary (op : T -> T -> T)
    (A lhs rhs : matrix_base T) : outcome T :=
  if negb (Bool.eqb (is_row_major A) (is_row_major lhs)
           && Bool.eqb (is_row_major A) (is_row_major rhs))
  then assertion_failed (elements A) else
  let data_A := elements A in
  let data_B := elements lhs in
  let data_C := elements rhs in
  let A_size1 := size1 A in
  let A_size2 := size2 A in
  if is_row_major A then
    let wrapper_A := wrapper_index row_major (wrapper_of A) in
    let wrapper_B := wrapper_index row_major (wrapper_of lhs) in
    let wrapper_C := wrapper_index row_major (wrapper_of rhs) in
    completed
      (for_loop 0 A_size1 (fun row =>
         for_loop 0 A_size2 (fun col d =>
           upd d (wrapper_A row col)
               (op (data_B (wrapper_B row col)) (data_C (wrapper_C row col)))))
       data_A)
  else
    let wrapper_A := wrapper_index column_major (wrapper_of A) in
    let wrapper_B := wrapper_index column_major (wrapper_of lhs) in
    let wrapper_C := wrapper_index column_major (wrapper_of rhs) in
    completed
      (for_loop 0 A_size2 (fun col =>
         for_loop 0 A_size1 (fun row d =>
           upd d (wrapper_A row col)
               (op (data_B (wrapper_B row col)) (data_C (wrapper_C row col)))))
       data_A).

(** Unary [element_op]: [A = op(B)]; the proxy of a unary operation holds
    the operand as both [lhs] and [rhs], and the assertion reads both. *)
Definition element_op_unary (op : T -> T)
    (A lhs rhs : matrix_base T) : outcome T :=
  if negb (Bool.eqb (is_row_major A) (is_row_major lhs)
           && Bool.eqb (is_row_major A) (is_row_major rhs))
  then assertion_failed (elements A) else
  let data_A := elements A in
  let data_B := elements lhs in
  let A_size1 := size1 A in
  let A_size2 := size2 A in
  if is_row_major A then
    let wrapper_A := wrapper_index row_major (wrapper_of A) in
    let wrapper_B := wrapper_index row_major (wrapper_of lhs) in
    completed
      (for_loop 0 A_size1 (fun row =>
         for_loop 0 A_size2 (fun col d =>
           upd d (wrapper_A row col) (op (data_B (wrapper_B row col)))))
       data_A)
  else
    let wrapper_A := wrapper_index column_major (wrapper_of A) in
    let wrapper_B := wrapper_index column_major (wrapper_of lhs) in
    completed
      (for_loop 0 A_size2 (fun col =>
         for_loop 0 A_size1 (fun row d =>
           upd d (wrapper_A row col) (op (data_B (wrapper_B row col)))))
       data_A).

(** [matrix_assign]: no assertion; returns the storage of [mat]. *)
Definition matrix_assign (mat : matrix_base T) (s : T) (clear : bool) : buffer T :=
  let data_A := elements mat in
  let alpha := s in
  let A_size1 := if clear then internal_size1 mat else size1 mat in
  let A_size2 := if clear then internal_size2 mat else size2 mat in
  if is_row_major mat then
    let wrapper_A := wrapper_index row_major (wrapper_of mat) in
    for_loop 0 A_size1 (fun row =>
      for_loop 0 A_size2 (fun col d => upd d (wrapper_A row col) alpha))
    data_A
  else
    let wrapper_A := wrapper_index column_major (wrapper_of mat) in
    for_loop 0 A_size2 (fun col =>
      for_loop 0 A_size1 (fun row d => upd d (wrapper_A row col) alpha))
    data_A.

(** [copy_vec]: returns the storage of [V].  The start and stride of [V] are
    not read by the source. *)
Definition copy_vec (A : matrix_base T) (data_V : buffer T)
    (row_start col_start : nat) (copy_col : bool) : buffer T :=
  let data_A := elements A in
  let A_start1 := start1 A in
  let A_start2 := start2 A in
  let A_inc1 := stride1 A in
  let A_inc2 := stride2 A in
  let A_size1 := size1 A in
  let A_size2 := size1 A in
  let A_internal_size1 := internal_size1 A in
  let A_internal_size2 := internal_size2 A in
  if copy_col then
    if is_row_major A then
      for_loop row_start A_size1 (fun i v =>
        upd v (i - row_start)
            (data_A (mem_index row_major (i * A_inc1 + A_start1)
                               (col_start * A_inc2 + A_start2)
                               A_internal_size1 A_internal_size2)))
      data_V
    else
      for_loop row_start A_size1 (fun i v =>
        upd v (i - row_start)
            (data_A (mem_index column_major (i * A_inc1 + A_start1)
                               (col_start * A_inc2 + A_start2)
                               A_internal_size1 A_internal_size2)))
      data_V
  else
    if is_row_major A then
      for_loop col_start A_size2 (fun i v =>
        upd v (i - col_start)
            (data_A (mem_index row_major (row_start * A_inc1 + A_start1)
                               (i * A_inc2 + A_start2)
                               A_internal_size1 A_internal_size2)))
      data_V
    else
      for_loop col_start A_size2 (fun i v =>
        upd v (i - col_start)
            (data_A (mem_index column_major (row_start * A_inc1 + A_start1)
                               (i * A_inc2 + A_start2)
                               A_internal_size1 A_internal_size2)))
      data_V.

End Elementwise.

(** The layout flags of the operands of a call agree when no two differ. *)
Definition layouts_agree (flags : list bool) : bool :=
  forallb (fun f => forallb (Bool.eqb f) flags) flags.

(* ================================================================= *)
(** ** Blocked transposition *)

Section Transpose.

Context {T : Type}.

(** The matrix is divided into sub-matrices for better storage access. *)
Definition sub_mat_size : nat := 64.

(** The loop nest of [trans].  [assign dst src] stands for the assignment
    [data_B[dst] = data_A[src]] that every innermost iteration performs; it
    is kept abstract so that the same loop nest can also be run to record
    which cells are written.  The two layout branches of the source differ
    in the layout of their wrappers and in the names of the loop variables
    of the main part; the remainder loops read the same in both. *)
Definition trans_loops {S} (A temp_trans : matrix_base T)
    (assign : nat -> nat -> S -> S) (s : S) : S :=
  let A_start1 := start1 A in
  let A_start2 := start2 A in
  let A_internal_size1 := internal_size1 A in
  let A_internal_size2 := internal_size2 A in
  let A_inc1 := stride1 A in
  let A_inc2 := stride2 A in
  let A_size1 := size1 A in
  let A_size2 := size2 A in
  let B_start1 := start1 temp_trans in
  let B_start2 := start2 temp_trans in
  let B_internal_size1 := internal_size1 temp_trans in
  let B_internal_size2 := internal_size2 temp_trans in
  let B_inc1 := stride1 temp_trans in
  let B_inc2 := stride2 temp_trans in
  let row_count := A_size1 / sub_mat_size in
  let col_count := A_size2 / sub_mat_size in
  let row_count_remainder := A_size1 mod sub_mat_size in
  let col_count_remainder := A_size2 mod sub_mat_size in
  let L := layout_of (is_row_major A) in
  let wrapper s1 s2 i1 i2 n1 n2 :=
    wrapper_index L {| w_start1 := s1; w_start2 := s2; w_inc1 := i1; w_inc2 := i2;
                       w_internal_size1 := n1; w_internal_size2 := n2 |} in
  (* main part of the transposition *)
  let s :=
    for_loop 0 (row_count * col_count) (fun i =>
      let row := i / col_count in
      let col := i mod col_count in
      let wrapper_A := wrapper (A_start1 + A_inc1 * (row * sub_mat_size))
                               (A_start2 + A_inc2 * (col * sub_mat_size))
                               A_inc1 A_inc2 A_internal_size1 A_internal_size2 in
      let wrapper_B := wrapper (B_start1 + B_inc1 * (col * sub_mat_size))
                               (B_start2 + B_inc2 * (row * sub_mat_size))
                               B_inc1 B_inc2 B_internal_size1 B_internal_size2 in
      if is_row_major A then
        for_loop 0 sub_mat_size (fun j =>
          for_loop 0 sub_mat_size (fun k =>
            assign (wrapper_B j k) (wrapper_A k j)))
      else
        for_loop 0 sub_mat_size (fun j =>
          for_loop 0 sub_mat_size (fun k =>
            assign (wrapper_B k j) (wrapper_A j k)))) s in
  (* remainder on the right side of the matrix *)
  let s :=
    let wrapper_A := wrapper A_start1 (A_start2 + A_inc2 * (col_count * sub_mat_size))
                             A_inc1 A_inc2 A_internal_size1 A_internal_size2 in
    let wrapper_B := wrapper (B_start1 + B_inc1 * (col_count * sub_mat_size)) B_start2
                             B_inc1 B_inc2 B_internal_size1 B_internal_size2 in
    for_loop 0 col_count_remainder (fun j =>
      for_loop 0 A_size1 (fun k =>
        assign (wrapper_B j k) (wrapper_A k j))) s in
  (* remainder on the bottom side of the matrix *)
  let wrapper_A := wrapper (A_start1 + A_inc1 * (row_count * sub_mat_size)) A_start2
                           A_inc1 A_inc2 A_internal_size1 A_internal_size2 in
  let wrapper_B := wrapper B_start1 (B_start2 + B_inc2 * (row_count * sub_mat_size))
                           B_inc1 B_inc2 B_internal_size1 B_internal_size2 in
  for_loop 0 row_count_remainder (fun j =>
    for_loop 0 (A_size2 - col_count_remainder) (fun k =>
      assign (wrapper_B k j) (wrapper_A j k))) s.

(** [trans]: returns the storage of [temp_trans]. *)
Definition trans (A temp_trans : matrix_base T) : buffer T :=
  let data_A := elements A in
  trans_loops A temp_trans
    (fun dst src data_B => upd data_B dst (data_A src))
    (elements temp_trans).

(** The offsets of [temp_trans] that [trans] assigns, in order. *)
Definition trans_writes (A temp_trans : matrix_base T) : list nat :=
  rev (trans_loops A temp_trans (fun dst _ log => dst :: log) []).

End Transpose.

(** The cell [trans] addresses for the logical index [(j, i)] of
    [temp_trans]: the layout of both wrappers is read from [A]. *)
Definition trans_dst {T} (A temp_trans : matrix_base T) (j i : nat) : nat :=
  wrapper_index (layout_of (is_row_major A)) (wrapper_of temp_trans) j i.

(* ================================================================= *)
(** ** Blocked matrix-matrix product *)

(** The sizes [get_block_sizes] returns through its reference arguments. *)
Record block_sizes : Type := {
  mc : nat;
  kc : nat;
  nc : nat;
  mr : nat;
  nr : nat
}.

(** What the assertion after [get_block_sizes] checks, together with the
    positivity the divisions by the block sizes rely on. *)
Definition valid_block_sizes (bs : block_sizes) : Prop :=
  0 < mr bs /\ 0 < nr bs /\ 0 < mc bs /\ 0 < kc bs /\ 0 < nc bs /\
  mc bs mod mr bs = 0 /\ nc bs mod nr bs = 0.

Section Gemm.

Context {T : Type} `{Numeric T}.

(** [get_block_sizes<NumericT>] is declared in
    [host_based/get_block_sizes.hpp], which is not among the sources; the
    product is modelled for whatever sizes it returns. *)
Variable get_block_sizes : nat -> nat -> nat -> block_sizes.

(** [uninitialized C2B2_idx n] is the content of the [n]-th buffer that
    [memory_create] hands out in iteration [C2B2_idx] of the outermost loop:
    the buffers are allocated without initial data. *)
Variable uninitialized : nat -> nat -> buffer T.

(** [op(M)(i, j)]: the element of [M], or of its transpose. *)
Definition op_element (M : matrix_base T) (M_trans : bool) (i j : nat) : T :=
  if M_trans then element M j i else element M i j.

(** Modelled from the spec: [pack_matrix_A] is declared in
    [host_based/packing.hpp], which is not among the sources.  Spec 4.3: it
    copies the [mc x kc] sub-block of [op(A)] at [(offset_i, offset_j)] into
    slivers of width [mr], resolving layout and transposition, and packs only
    the valid elements of a remainder block.  A sliver holds [kc]
    micro-slivers of [mr] consecutive elements; the pointer arithmetic of
    [detail::prod] fixes the distance [mr * kc] between slivers. *)
Definition pack_matrix_A (dest : buffer T) (offset_i offset_j mc kc mr : nat)
    (data : buffer T)
    (size1 size2 internal_size1 internal_size2 inc1 inc2 start1 start2 : nat)
    (trans row_major : bool) : buffer T :=
  let L := layout_of row_major in
  let num_rows := if trans then size2 else size1 in
  let num_cols := if trans then size1 else size2 in
  for_loop 0 (min mc (num_rows - offset_i)) (fun i =>
    for_loop 0 (min kc (num_cols - offset_j)) (fun p buf =>
      let src :=
        if trans
        then mem_index L (start1 + (offset_j + p) * inc1) (start2 + (offset_i + i) * inc2)
                       internal_size1 internal_size2
        else mem_index L (start1 + (offset_i + i) * inc1) (start2 + (offset_j + p) * inc2)
                       internal_size1 internal_size2 in
      upd buf (i / mr * (mr * kc) + p * mr + i mod mr) (data src)))
  dest.

(** Modelled from the spec: [pack_matrix_B], symmetric to [pack_matrix_A]
    with slivers of width [nr] taken along the columns of [op(B)]. *)
Definition pack_matrix_B (dest : buffer T) (offset_i offset_j kc nc nr : nat)
    (data : buffer T)
    (size1 size2 internal_size1 internal_size2 inc1 inc2 start1 start2 : nat)
    (trans row_major : bool) : buffer T :=
  let L := layout_of row_major in
  let num_rows := if trans then size2 else size1 in
  let num_cols := if trans then size1 else size2 in
  for_loop 0 (min nc (num_cols - offset_j)) (fun j =>
    for_loop 0 (min kc (num_rows - offset_i)) (fun p buf =>
      let src :=
        if trans
        then mem_index L (start1 + (offset_j + j) * inc1) (start2 + (offset_i + p) * inc2)
                       internal_size1 internal_size2
        else mem_index L (start1 + (offset_i + p) * inc1) (start2 + (offset_j + j) * inc2)
                       internal_size1 internal_size2 in
      upd buf (j / nr * (nr * kc) + p * nr + j mod nr) (data src)))
  dest.

(** Modelled from the spec: [standard_micro_kernel] is declared in
    [host_based/gemm_standard_micro_kernel.hpp], which is not among the
    sources.  Spec 4.4: it accumulates
    [sum over p < k_count of A_sliver[p][i] * B_sliver[p][j]] into the
    zero-initialised [mr x nr] accumulator; [detail::prod] reads the
    accumulator at [i * nr + j]. *)
Definition standard_micro_kernel (A B C : buffer T)
    (num_micro_slivers mr nr : nat) : buffer T :=
  for_loop 0 num_micro_slivers (fun p =>
    for_loop 0 mr (fun i =>
      for_loop 0 nr (fun j C =>
        upd C (i * nr + j) (C (i * nr + j) +! A (p * mr + i) *! B (p * nr + j)))))
  C.

(** The buffers [detail::prod] works on inside its outermost loop. *)
Record gemm_buffers : Type := {
  buffer_A : buffer T;
  buffer_B : buffer T;
  buffer_C : buffer T;
  data_C : buffer T
}.

Section Prod.

(** The arguments of [detail::prod]; [C] is the accessor [MatrixAccT3] with
    its layout [L]. *)
Variables (A : matrix_base T) (A_trans : bool) (B : matrix_base T) (B_trans : bool).
Variables (L : layout) (C : matrix_array_wrapper) (C_size1 C_size2 : nat).
Variables (alpha beta : T).

(** The "product sizes". *)
Definition m_size : nat := if A_trans then size2 A else size1 A.
Definition k_size : nat := if A_trans then size1 A else size2 A.
Definition n_size : nat := if B_trans then size1 B else size2 B.

Definition num_blocks_C1 (bs : block_sizes) : nat := (m_size + (mc bs - 1)) / mc bs.
Definition num_blocks_C2 (bs : block_sizes) : nat := (n_size + (nc bs - 1)) / nc bs.
Definition num_blocks_A2 (bs : block_sizes) : nat := (k_size + (kc bs - 1)) / kc bs.
Definition num_slivers_A (bs : block_sizes) : nat := mc bs / mr bs.
Definition num_slivers_B (bs : block_sizes) : nat := nc bs / nr bs.
Definition num_residue_slivers_A (bs : block_sizes) : nat :=
  (m_size mod mc bs + (mr bs - 1)) / mr bs.
Definition num_residue_slivers_B (bs : block_sizes) : nat :=
  (n_size mod nc bs + (nr bs - 1)) / nr bs.

Definition max_sliver_A_idx (bs : block_sizes) (C1A1_idx : nat) : nat :=
  if m_size - C1A1_idx * mc bs <? mc bs
  then num_residue_slivers_A bs else num_slivers_A bs.

Definition max_sliver_B_idx (bs : block_sizes) (C2B2_idx : nat) : nat :=
  if n_size - C2B2_idx * nc bs <? nc bs
  then num_residue_slivers_B bs else num_slivers_B bs.

(** The test [beta > 0 || beta < 0] that selects the write-back. *)
Definition beta_nonzero : bool := (num_zero <! beta) || (beta <! num_zero).

(** "write result": the register tile [buffer_C] goes to the tile of [C] at
    [(row0, col0)]. *)
Definition write_result (bs : block_sizes) (A2B1_idx row0 col0 : nat)
    (buffer_C data_C : buffer T) : buffer T :=
  if beta_nonzero then
    for_loop 0 (min (mr bs) (m_size - row0)) (fun i =>
      for_loop 0 (min (nr bs) (n_size - col0)) (fun j data_C =>
        upd data_C (wrapper_index L C (row0 + i) (col0 + j))
            (beta *! data_C (wrapper_index L C (row0 + i) (col0 + j))
             +! alpha *! buffer_C (i * nr bs + j))))
    data_C
  else
    for_loop 0 (min (mr bs) (m_size - row0)) (fun i =>
      for_loop 0 (min (nr bs) (n_size - col0)) (fun j data_C =>
        if A2B1_idx =? 0 then
          upd data_C (wrapper_index L C (row0 + i) (col0 + j))
              (alpha *! buffer_C (i * nr bs + j))
        else
          upd data_C (wrapper_index L C (row0 + i) (col0 + j))
              (data_C (wrapper_index L C (row0 + i) (col0 + j))
               +! alpha *! buffer_C (i * nr bs + j))))
    data_C.

(** Body of the loop over the slivers of A: one register tile. *)
Definition prod_tile (bs : block_sizes)
    (C2B2_idx A2B1_idx C1A1_idx sliver_B_idx sliver_A_idx : nat)
    (s : gemm_buffers) : gemm_buffers :=
  (* fill buffer_C with zeros *)
  let buffer_C' :=
    for_loop 0 (mr bs * nr bs) (fun i c => upd c i num_zero) (buffer_C s) in
  let ptrA := shift (buffer_A s) (sliver_A_idx * mr bs * kc bs) in
  let ptrB := shift (buffer_B s) (sliver_B_idx * nr bs * kc bs) in
  let num_micros_slivers := min (kc bs) (k_size - A2B1_idx * kc bs) in
  let buffer_C' :=
    standard_micro_kernel ptrA ptrB buffer_C' num_micros_slivers (mr bs) (nr bs) in
  {| buffer_A := buffer_A s;
     buffer_B := buffer_B s;
     buffer_C := buffer_C';
     data_C :=
       write_result bs A2B1_idx
         (C1A1_idx * mc bs + sliver_A_idx * mr bs)
         (C2B2_idx * nc bs + sliver_B_idx * nr bs)
         buffer_C' (data_C s) |}.

(** Body of the loop over [C1A1_idx]: pack a block of A, then all tiles. *)
Definition prod_block_C1A1 (bs : block_sizes) (C2B2_idx A2B1_idx C1A1_idx : nat)
    (s : gemm_buffers) : gemm_buffers :=
  let s :=
    {| buffer_A :=
         pack_matrix_A (buffer_A s) (C1A1_idx * mc bs) (A2B1_idx * kc bs)
           (mc bs) (kc bs) (mr bs)
           (elements A) (size1 A) (size2 A) (internal_size1 A) (internal_size2 A)
           (stride1 A) (stride2 A) (start1 A) (start2 A) A_trans (is_row_major A);
       buffer_B := buffer_B s;
       buffer_C := buffer_C s;
       data_C := data_C s |} in
  for_loop 0 (max_sliver_B_idx bs C2B2_idx) (fun sliver_B_idx =>
    for_loop 0 (max_sliver_A_idx bs C1A1_idx) (fun sliver_A_idx =>
      prod_tile bs C2B2_idx A2B1_idx C1A1_idx sliver_B_idx sliver_A_idx))
  s.

(** Body of the loop over [A2B1_idx]: pack a block of B, then all blocks of
    A against it. *)
Definition prod_block_A2B1 (bs : block_sizes) (C2B2_idx A2B1_idx : nat)
    (s : gemm_buffers) : gemm_buffers :=
  let s :=
    {| buffer_A := buffer_A s;
       buffer_B :=
         pack_matrix_B (buffer_B s) (A2B1_idx * kc bs) (C2B2_idx * nc bs)
           (kc bs) (nc bs) (nr bs)
           (elements B) (size1 B) (size2 B) (internal_size1 B) (internal_size2 B)
           (stride1 B) (stride2 B) (start1 B) (start2 B) B_trans (is_row_major B);
       buffer_C := buffer_C s;
       data_C := data_C s |} in
  for_loop 0 (num_blocks_C1 bs) (prod_block_C1A1 bs C2B2_idx A2B1_idx) s.

(** Body of the outermost loop: allocate the auxiliary buffers, then run
    over the blocks of the reduction dimension. *)
Definition prod_block_C2B2 (bs : block_sizes) (C2B2_idx : nat)
    (data : buffer T) : buffer T :=
  data_C
    (for_loop 0 (num_blocks_A2 bs) (prod_block_A2B1 bs C2B2_idx)
       {| buffer_A := uninitialized C2B2_idx 0;
          buffer_B := uninitialized C2B2_idx 1;
          buffer_C := uninitialized C2B2_idx 2;
          data_C := data |}).

(** The early return of [detail::prod]. *)
Definition zero_dimension : bool :=
  (C_size1 =? 0) || (C_size2 =? 0) || ((if A_trans then size1 A else size2 A) =? 0).

(** [detail::prod]: returns the storage behind [C]. *)
Definition prod (data : buffer T) : buffer T :=
  if zero_dimension then data else
  let bs := get_block_sizes m_size k_size n_size in
  for_loop 0 (num_blocks_C2 bs) (prod_block_C2B2 bs) data.

End Prod.

(** The contract of the packers (spec 4.3), as [detail::prod] relies on it:
    the valid elements of the block of [op(A)] (of [op(B)]) at
    [(offset_i, offset_j)] sit in the slivers of [buf]; nothing is said
    about the other cells of [buf]. *)
Definition packed_A (A : matrix_base T) (A_trans : bool) (bs : block_sizes)
    (offset_i offset_j : nat) (buf : buffer T) : Prop :=
  forall i p,
    i < min (mc bs) (m_size A A_trans - offset_i) ->
    p < min (kc bs) (k_size A A_trans - offset_j) ->
    buf (i / mr bs * (mr bs * kc bs) + p * mr bs + i mod mr bs)
    = op_element A A_trans (offset_i + i) (offset_j + p).

Definition packed_B (B : matrix_base T) (B_trans : bool) (bs : block_sizes)
    (offset_i offset_j : nat) (buf : buffer T) : Prop :=
  forall p j,
    p < min (kc bs) ((if B_trans then size2 B else size1 B) - offset_i) ->
    j < min (nc bs) (n_size B B_trans - offset_j) ->
    buf (j / nr bs * (nr bs * kc bs) + p * nr bs + j mod nr bs)
    = op_element B B_trans (offset_i + p) (offset_j + j).

(** [prod_impl]: returns the storage of [C]. *)
Definition prod_impl (A : matrix_base T) (trans_A : bool)
    (B : matrix_base T) (trans_B : bool) (C : matrix_base T)
    (alpha beta : T) : buffer T :=
  let data_C := elements C in
  let C_size1 := size1 C in
  let C_size2 := size2 C in
  if is_row_major C then
    prod A trans_A B trans_B row_major (wrapper_of C) C_size1 C_size2 alpha beta data_C
  else
    prod A trans_A B trans_B column_major (wrapper_of C) C_size1 C_size2 alpha beta data_C.

(** *** The triple-loop reference *)

(** [sum over lo <= p < hi of op(A)(i, p) * op(B)(p, j)], accumulated from
    zero in increasing order of [p]. *)
Definition dot (A : matrix_base T) (A_trans : bool) (B : matrix_base T) (B_trans : bool)
    (i j lo hi : nat) : T :=
  for_loop lo hi
    (fun p acc => acc +! op_element A A_trans i p *! op_element B B_trans p j)
    num_zero.

(** The reference follows the spec's words:
    [C'(i, j) = alpha * (sum over p < k of op(A)(i, p) * op(B)(p, j))
                + beta * C(i, j)]. *)
Definition gemm_reference (A : matrix_base T) (A_trans : bool)
    (B : matrix_base T) (B_trans : bool) (alpha beta : T) (c : T) (i j : nat) : T :=
  alpha *! dot A A_trans B B_trans i j 0 (k_size A A_trans) +! beta *! c.

(** What the write-back of k-block [A2B1_idx] makes of a cell of [C] that
    holds [c], given the cell [t] of the register tile. *)
Definition write_back (alpha beta : T) (A2B1_idx : nat) (t c : T) : T :=
  if beta_nonzero beta then beta *! c +! alpha *! t
  else if A2B1_idx =? 0 then alpha *! t
  else c +! alpha *! t.

(** The two write-back policies on their own: the general accumulate path
    applied at every k-block, and the zero-optimised overwrite path. *)
Definition general_path (alpha beta : T) (A2B1_idx : nat) (t c : T) : T :=
  beta *! c +! alpha *! t.

Definition zero_path (alpha : T) (A2B1_idx : nat) (t c : T) : T :=
  if A2B1_idx =? 0 then alpha *! t else c +! alpha *! t.

(** What a cell of [C] that holds [c] becomes when the write-back [policy]
    is applied for every k-block in turn, each time with the partial dot
    product of that k-block. *)
Definition accumulate_blocks (policy : nat -> T -> T -> T)
    (A : matrix_base T) (A_trans : bool) (B : matrix_base T) (B_trans : bool)
    (bs : block_sizes) (i j : nat) (c : T) : T :=
  for_loop 0 (num_blocks_A2 A A_trans bs)
    (fun A2B1_idx c =>
       policy A2B1_idx
         (dot A A_trans B B_trans i j (A2B1_idx * kc bs)
              (A2B1_idx * kc bs + min (kc bs) (k_size A A_trans - A2B1_idx * kc bs)))
         c)
    c.

(** What the dispatcher has checked before it calls [detail::prod] ("all
    dimensions are already checked in the dispatcher frontend"). *)
Definition consistent_dimensions (A : matrix_base T) (A_trans : bool)
    (B : matrix_base T) (B_trans : bool) (C_size1 C_size2 : nat) : Prop :=
  C_size1 = m_size A A_trans /\
  C_size2 = n_size B B_trans /\
  (if B_trans then size2 B else size1 B) = k_size A A_trans.

End Gemm.

(* ================================================================= *)
(** ** Vectors and the operations between matrices and vectors *)

(** [vector_base<NumericT>]: start, stride, size and the storage behind
    [extract_raw_pointer]. *)
Record vector_base (T : Type) : Type := {
  v_start : nat;
  v_stride : nat;
  v_size : nat;
  v_elements : buffer T
}.

(** Offset and value of the element [i] of a vector. *)
Definition v_offset {T} (v : vector_base T) (i : nat) : nat :=
  v_start v + i * v_stride v.

Definition v_element {T} (v : vector_base T) (i : nat) : T :=
  v_elements v (v_offset v i).

(** Modelled from the spec: [detail::vector_array_wrapper] is declared in
    [host_based/common.hpp], which is not among the sources.  Spec 3 and
    4.1: a one-dimensional accessor with a start and a stride; its access
    operator returns the cell [start + i * inc], as the index expressions
    [data_vec[v_start + i * v_inc]] of the sources do. *)
Definition vector_array_wrapper (start inc i : nat) : nat := start + i * inc.

Section MatrixVector.

Context {T : Type} `{Numeric T}.

(** [matrix_diagonal_assign]: returns the storage of [mat]. *)
Definition matrix_diagonal_assign (mat : matrix_base T) (s : T) : buffer T :=
  let data_A := elements mat in
  let alpha := s in
  let A_size1 := size1 mat in
  if is_row_major mat then
    let wrapper_A := wrapper_index row_major (wrapper_of mat) in
    for_loop 0 A_size1 (fun row d => upd d (wrapper_A row row) alpha) data_A
  else
    let wrapper_A := wrapper_index column_major (wrapper_of mat) in
    for_loop 0 A_size1 (fun row d => upd d (wrapper_A row row) alpha) data_A.

(** [matrix_diag_from_vector]: returns the storage of [mat].  The [int k]
    is an integer; [static_cast<vcl_size_t>] is applied to a value that is
    not negative. *)
Definition matrix_diag_from_vector (vec : vector_base T) (k : Z)
    (mat : matrix_base T) : buffer T :=
  let data_vec := v_elements vec in
  let v_start := v_start vec in
  let v_inc := v_stride vec in
  let v_size := v_size vec in
  let col_start := if (0 <=? k)%Z then Z.to_nat k else 0 in
  let row_start := if (0 <=? k)%Z then 0 else Z.to_nat (- k) in
  let data_A := matrix_assign mat num_zero false in
  if is_row_major mat then
    let wrapper_A := wrapper_index row_major (wrapper_of mat) in
    for_loop 0 v_size (fun i d =>
      upd d (wrapper_A (row_start + i) (col_start + i)) (data_vec (v_start + i * v_inc)))
    data_A
  else
    let wrapper_A := wrapper_index column_major (wrapper_of mat) in
    for_loop 0 v_size (fun i d =>
      upd d (wrapper_A (row_start + i) (col_start + i)) (data_vec (v_start + i * v_inc)))
    data_A.

(** [matrix_diag_to_vector]: returns the storage of [vec]. *)
Definition matrix_diag_to_vector (mat : matrix_base T) (k : Z)
    (vec : vector_base T) : buffer T :=
  let data_A := elements mat in
  let data_vec := v_elements vec in
  let v_start := v_start vec in
  let v_inc := v_stride vec in
  let v_size := v_size vec in
  let col_start := if (0 <=? k)%Z then Z.to_nat k else 0 in
  let row_start := if (0 <=? k)%Z then 0 else Z.to_nat (- k) in
  if is_row_major mat then
    let wrapper_A := wrapper_index row_major (wrapper_of mat) in
    for_loop 0 v_size (fun i d =>
      upd d (v_start + i * v_inc) (data_A (wrapper_A (row_start + i) (col_start + i))))
    data_vec
  else
    let wrapper_A := wrapper_index column_major (wrapper_of mat) in
    for_loop 0 v_size (fun i d =>
      upd d (v_start + i * v_inc) (data_A (wrapper_A (row_start + i) (col_start + i))))
    data_vec.

(** [matrix_row]: returns the storage of [vec]. *)
Definition matrix_row (mat : matrix_base T) (i : nat) (vec : vector_base T) : buffer T :=
  let data_A := elements mat in
  let data_vec := v_elements vec in
  let v_start := v_start vec in
  let v_inc := v_stride vec in
  let v_size := v_size vec in
  if is_row_major mat then
    let wrapper_A := wrapper_index row_major (wrapper_of mat) in
    for_loop 0 v_size (fun j d => upd d (v_start + j * v_inc) (data_A (wrapper_A i j)))
    data_vec
  else
    let wrapper_A := wrapper_index column_major (wrapper_of mat) in
    for_loop 0 v_size (fun j d => upd d (v_start + j * v_inc) (data_A (wrapper_A i j)))
    data_vec.

(** [matrix_column]: returns the storage of [vec]. *)
Definition matrix_column (mat : matrix_base T) (j : nat) (vec : vector_base T) : buffer T :=
  let data_A := elements mat in
  let data_vec := v_elements vec in
  let v_start := v_start vec in
  let v_inc := v_stride vec in
  let v_size := v_size vec in
  if is_row_major mat then
    let wrapper_A := wrapper_index row_major (wrapper_of mat) in
    for_loop 0 v_size (fun i d => upd d (v_start + i * v_inc) (data_A (wrapper_A i j)))
    data_vec
  else
    let wrapper_A := wrapper_index column_major (wrapper_of mat) in
    for_loop 0 v_size (fun i d => upd d (v_start + i * v_inc) (data_A (wrapper_A i j)))
    data_vec.

(** The matrix-vector overload of [prod_impl]: returns the storage of
    [result].  Without OpenMP [thread_count] is 1 and [id] is 0; the
    [std::vector] [temp_array] is created filled with zeros. *)
Definition prod_impl_vector (mat : matrix_base T) (trans : bool)
    (vec result : vector_base T) : buffer T :=
  let data_A := elements mat in
  let data_x := v_elements vec in
  let data_result := v_elements result in
  let A_start1 := start1 mat in
  let A_start2 := start2 mat in
  let A_inc1 := stride1 mat in
  let A_inc2 := stride2 mat in
  let A_size1 := size1 mat in
  let A_size2 := size2 mat in
  let A_internal_size1 := internal_size1 mat in
  let A_internal_size2 := internal_size2 mat in
  let start1 := v_start vec in
  let inc1 := v_stride vec in
  let start2 := v_start result in
  let inc2 := v_stride result in
  if is_row_major mat then
    if trans then
      let thread_count := 1 in
      let temp_array : buffer T := fun _ => num_zero in
      let wrapper_res := vector_array_wrapper start2 inc2 in
      let data_result :=
        for_loop 0 A_size2 (fun col r => upd r (wrapper_res col) num_zero) data_result in
      let temp_array :=
        let id := 0 in
        let begin := (A_size1 * id) / thread_count in
        let end_ := (A_size1 * (id + 1)) / thread_count in
        let wrapper_mat :=
          wrapper_index row_major
            {| w_start1 := A_start1 + A_inc1 * begin; w_start2 := A_start2;
               w_inc1 := A_inc1; w_inc2 := A_inc2;
               w_internal_size1 := A_internal_size1;
               w_internal_size2 := A_internal_size2 |} in
        let wrapper_vec := vector_array_wrapper (start1 + inc1 * begin) inc1 in
        for_loop 0 (end_ - begin) (fun row =>
          let temp := data_x (wrapper_vec row) in
          for_loop 0 A_size2 (fun col t =>
            upd t (A_size2 * id + col)
                (t (A_size2 * id + col) +! data_A (wrapper_mat row col) *! temp)))
        temp_array in
      for_loop 0 thread_count (fun id =>
        for_loop 0 A_size2 (fun col r =>
          upd r (wrapper_res col)
              (r (wrapper_res col) +! temp_array (A_size2 * id + col))))
      data_result
    else
      for_loop 0 A_size1 (fun row r =>
        let temp :=
          for_loop 0 A_size2 (fun col temp =>
            temp +! data_A (mem_index row_major (row * A_inc1 + A_start1)
                                      (col * A_inc2 + A_start2)
                                      A_internal_size1 A_internal_size2)
                    *! data_x (col * inc1 + start1))
          num_zero in
        upd r (row * inc2 + start2) temp)
      data_result
  else
    if negb trans then
      let thread_count := 1 in
      let temp_array : buffer T := fun _ => num_zero in
      let wrapper_res := vector_array_wrapper start2 inc2 in
      let data_result :=
        for_loop 0 A_size1 (fun row r => upd r (wrapper_res row) num_zero) data_result in
      let temp_array :=
        let id := 0 in
        let begin := (A_size2 * id) / thread_count in
        let end_ := (A_size2 * (id + 1)) / thread_count in
        let wrapper_mat :=
          wrapper_index column_major
            {| w_start1 := A_start1; w_start2 := A_start2 + A_inc2 * begin;
               w_inc1 := A_inc1; w_inc2 := A_inc2;
               w_internal_size1 := A_internal_size1;
               w_internal_size2 := A_internal_size2 |} in
        let wrapper_vec := vector_array_wrapper (start1 + inc1 * begin) inc1 in
        for_loop 0 (end_ - begin) (fun col =>
          let temp := data_x (wrapper_vec col) in
          for_loop 0 A_size1 (fun row t =>
            upd t (A_size1 * id + row)
                (t (A_size1 * id + row) +! data_A (wrapper_mat row col) *! temp)))
        temp_array in
      for_loop 0 thread_count (fun id =>
        for_loop 0 A_size1 (fun row r =>
          upd r (wrapper_res row)
              (r (wrapper_res row) +! temp_array (A_size1 * id + row))))
      data_result
    else
      for_loop 0 A_size2 (fun row r =>
        let temp :=
          for_loop 0 A_size1 (fun col temp =>
            temp +! data_A (mem_index column_major (col * A_inc1 + A_start1)
                                      (row * A_inc2 + A_start2)
                                      A_internal_size1 A_internal_size2)
                    *! data_x (col * inc1 + start1))
          num_zero in
        upd r (row * inc2 + start2) temp)
      data_result.

(** The reference of the matrix-vector product:
    [sum over p < q of op(A)(i, p) * x(p)], accumulated from zero in
    increasing order of [p]. *)
Definition dot_vector (mat : matrix_base T) (trans : bool) (x : vector_base T)
    (i q : nat) : T :=
  for_loop 0 q
    (fun p acc =>
       acc +! (if trans then element mat p i else element mat i p) *! v_element x p)
    num_zero.

(** [scaled_rank_1_update]: [mat1 += alpha * vec1 * vec2^T]; returns the
    storage of [mat1].  The unnamed parameter [len_alpha] is not read. *)
Definition scaled_rank_1_update (mat1 : matrix_base T) (alpha : T)
    (reciprocal_alpha flip_sign_alpha : bool)
    (vec1 vec2 : vector_base T) : buffer T :=
  let data_A := elements mat1 in
  let data_v1 := v_elements vec1 in
  let data_v2 := v_elements vec2 in
  let A_start1 := start1 mat1 in
  let A_start2 := start2 mat1 in
  let A_inc1 := stride1 mat1 in
  let A_inc2 := stride2 mat1 in
  let A_size1 := size1 mat1 in
  let A_size2 := size2 mat1 in
  let A_internal_size1 := internal_size1 mat1 in
  let A_internal_size2 := internal_size2 mat1 in
  let start1 := v_start vec1 in
  let inc1 := v_stride vec1 in
  let start2 := v_start vec2 in
  let inc2 := v_stride vec2 in
  let data_alpha := alpha in
  let data_alpha := if flip_sign_alpha then num_opp data_alpha else data_alpha in
  if is_row_major mat1 then
    let index row col :=
      mem_index row_major (row * A_inc1 + A_start1) (col * A_inc2 + A_start2)
                A_internal_size1 A_internal_size2 in
    if reciprocal_alpha then
      for_loop 0 A_size1 (fun row =>
        let value_v1 := data_v1 (row * inc1 + start1) /! data_alpha in
        for_loop 0 A_size2 (fun col d =>
          upd d (index row col)
              (d (index row col) +! value_v1 *! data_v2 (col * inc2 + start2))))
      data_A
    else
      for_loop 0 A_size1 (fun row =>
        let value_v1 := data_v1 (row * inc1 + start1) *! data_alpha in
        for_loop 0 A_size2 (fun col d =>
          upd d (index row col)
              (d (index row col) +! value_v1 *! data_v2 (col * inc2 + start2))))
      data_A
  else
    let index row col :=
      mem_index column_major (row * A_inc1 + A_start1) (col * A_inc2 + A_start2)
                A_internal_size1 A_internal_size2 in
    if reciprocal_alpha then
      for_loop 0 A_size2 (fun col =>
        let value_v2 := data_v2 (col * inc2 + start2) /! data_alpha in
        for_loop 0 A_size1 (fun row d =>
          upd d (index row col)
              (d (index row col) +! data_v1 (row * inc1 + start1) *! value_v2)))
      data_A
    else
      for_loop 0 A_size2 (fun col =>
        let value_v2 := data_v2 (col * inc2 + start2) *! data_alpha in
        for_loop 0 A_size1 (fun row d =>
          upd d (index row col)
              (d (index row col) +! data_v1 (row * inc1 + start1) *! value_v2)))
      data_A.

(** [bidiag_pack_impl]: returns the storages of [D] and [S].  For
    [size = 0] the loop bound [long(size) - 1] is negative and the loop
    does not run, as with the truncated subtraction here; the assignment
    after the loop then indexes with the wrapped [size - 1], outside of any
    storage, so that the function is meaningful for [size >= 1] only. *)
Definition bidiag_pack_impl (A : matrix_base T) (D S : vector_base T)
    : buffer T * buffer T :=
  let data_A := elements A in
  let data_D := v_elements D in
  let data_S := v_elements S in
  let A_start1 := start1 A in
  let A_start2 := start2 A in
  let A_inc1 := stride1 A in
  let A_inc2 := stride2 A in
  let A_internal_size1 := internal_size1 A in
  let A_internal_size2 := internal_size2 A in
  let start1 := v_start D in
  let inc1 := v_stride D in
  let size1 := v_size D in
  let start2 := v_start S in
  let inc2 := v_stride S in
  let size2 := v_size S in
  let size := min size1 size2 in
  if is_row_major A then
    let '(data_D, data_S) :=
      for_loop 0 (size - 1) (fun i '(data_D, data_S) =>
        (upd data_D (start1 + inc1 * i)
             (data_A (mem_index row_major (i * A_inc1 + A_start1) (i * A_inc2 + A_start2)
                                A_internal_size1 A_internal_size2)),
         upd data_S (start2 + inc2 * (i + 1))
             (data_A (mem_index row_major (i * A_inc1 + A_start1)
                                ((i + 1) * A_inc2 + A_start2)
                                A_internal_size1 A_internal_size2))))
      (data_D, data_S) in
    (upd data_D (start1 + inc1 * (size - 1))
         (data_A (mem_index row_major ((size - 1) * A_inc1 + A_start1)
                            ((size - 1) * A_inc2 + A_start2)
                            A_internal_size1 A_internal_size2)),
     data_S)
  else
    let '(data_D, data_S) :=
      for_loop 0 (size - 1) (fun i '(data_D, data_S) =>
        (upd data_D (start1 + inc1 * i)
             (data_A (mem_index column_major (i * A_inc1 + A_start1) (i * A_inc2 + A_start2)
                                A_internal_size1 A_internal_size2)),
         upd data_S (start2 + inc2 * (i + 1))
             (data_A (mem_index column_major (i * A_inc1 + A_start1)
                                ((i + 1) * A_inc2 + A_start2)
                                A_internal_size1 A_internal_size2))))
      (data_D, data_S) in
    (upd data_D (start1 + inc1 * (size - 1))
         (data_A (mem_index column_major ((size - 1) * A_inc1 + A_start1)
                            ((size - 1) * A_inc2 + A_start2)
                            A_internal_size1 A_internal_size2)),
     data_S).

(** [bidiag_pack] *)
Definition bidiag_pack (A : matrix_base T) (dh sh : vector_base T)
    : buffer T * buffer T :=
  bidiag_pack_impl A dh sh.

End MatrixVector.

(* ================================================================= *)
(** ** Householder and Givens updates *)

(** The element types of the eigenvalue routines are also subtracted, and
    the literal [2] is converted to them. *)
Class NumericSub (T : Type) : Type := {
  NumericSub_Numeric :: Numeric T;
  num_sub : T -> T -> T;
  num_two : T
}.

Infix "-!" := num_sub (at level 50, left associativity) : num_scope.

#[export] Instance NumericSub_Z : NumericSub Z := {|
  NumericSub_Numeric := Numeric_Z;
  num_sub := Z.sub;
  num_two := 2%Z
|}.

#[export] Instance NumericSub_double : NumericSub float := {|
  NumericSub_Numeric := Numeric_double;
  num_sub := PrimFloat.sub;
  num_two := 2%float
|}.

Section Householder.

Context {T : Type} `{NumericSub T}.

(** [house_update_A_left]: [A <- P * A]; returns the storage of [A]. *)
Definition house_update_A_left (A : matrix_base T) (D : vector_base T) (start : nat)
    : buffer T :=
  let row_start := start + 1 in
  let data_A := elements A in
  let data_D := v_elements D in
  let A_start1 := start1 A in
  let A_start2 := start2 A in
  let A_inc1 := stride1 A in
  let A_inc2 := stride2 A in
  let A_size1 := size1 A in
  let A_size2 := size2 A in
  let A_internal_size1 := internal_size1 A in
  let A_internal_size2 := internal_size2 A in
  let start1 := v_start D in
  let inc1 := v_stride D in
  if is_row_major A then
    let index j i :=
      mem_index row_major (j * A_inc1 + A_start1) (i * A_inc2 + A_start2)
                A_internal_size1 A_internal_size2 in
    for_loop 0 A_size2 (fun i data_A =>
      let ss :=
        for_loop row_start A_size1 (fun j ss =>
          ss +! data_D (start1 + inc1 * j) *! data_A (index j i))
        num_zero in
      for_loop row_start A_size1 (fun j data_A =>
        upd data_A (index j i)
            (data_A (index j i) -! (num_two *! data_D (start1 + inc1 * j) *! ss)))
      data_A)
    data_A
  else
    let index j i :=
      mem_index column_major (j * A_inc1 + A_start1) (i * A_inc2 + A_start2)
                A_internal_size1 A_internal_size2 in
    for_loop 0 A_size2 (fun i data_A =>
      let ss :=
        for_loop row_start A_size1 (fun j ss =>
          ss +! data_D (start1 + inc1 * j) *! data_A (index j i))
        num_zero in
      for_loop row_start A_size1 (fun j data_A =>
        upd data_A (index j i)
            (data_A (index j i) -! (num_two *! data_D (start1 + inc1 * j) *! ss)))
      data_A)
    data_A.

(** [house_update_A_right]: [A <- A * P]; returns the storage of [A]. *)
Definition house_update_A_right (A : matrix_base T) (D : vector_base T) : buffer T :=
  let data_A := elements A in
  let data_D := v_elements D in
  let A_start1 := start1 A in
  let A_start2 := start2 A in
  let A_inc1 := stride1 A in
  let A_inc2 := stride2 A in
  let A_size1 := size1 A in
  let A_size2 := size2 A in
  let A_internal_size1 := internal_size1 A in
  let A_internal_size2 := internal_size2 A in
  let start1 := v_start D in
  let inc1 := v_stride D in
  if is_row_major A then
    let index i j :=
      mem_index row_major (i * A_inc1 + A_start1) (j * A_inc2 + A_start2)
                A_internal_size1 A_internal_size2 in
    for_loop 0 A_size1 (fun i data_A =>
      let ss :=
        for_loop 0 A_size2 (fun j ss =>
          ss +! (data_D (start1 + inc1 * j) *! data_A (index i j)))
        num_zero in
      let sum_Av := ss in
      for_loop 0 A_size2 (fun j data_A =>
        upd data_A (index i j)
            (data_A (index i j) -! (num_two *! data_D (start1 + inc1 * j) *! sum_Av)))
      data_A)
    data_A
  else
    let index i j :=
      mem_index column_major (i * A_inc1 + A_start1) (j * A_inc2 + A_start2)
                A_internal_size1 A_internal_size2 in
    for_loop 0 A_size1 (fun i data_A =>
      let ss :=
        for_loop 0 A_size2 (fun j ss =>
          ss +! (data_D (start1 + inc1 * j) *! data_A (index i j)))
        num_zero in
      let sum_Av := ss in
      for_loop 0 A_size2 (fun j data_A =>
        upd data_A (index i j)
            (data_A (index i j) -! (num_two *! data_D (start1 + inc1 * j) *! sum_Av)))
      data_A)
    data_A.

(** [givens_next]: returns the storage of [Q].  The [int] arguments [l]
    and [m] are integers; the loop variable [i] runs from [m - 1] down to
    [l], and [vcl_size_t(i)] is applied to values that are not negative. *)
Definition givens_next (Q : matrix_base T) (tmp1 tmp2 : vector_base T) (l m : Z)
    : buffer T :=
  let data_Q := elements Q in
  let data_tmp1 := v_elements tmp1 in
  let data_tmp2 := v_elements tmp2 in
  let Q_start1 := start1 Q in
  let Q_start2 := start2 Q in
  let Q_inc1 := stride1 Q in
  let Q_inc2 := stride2 Q in
  let Q_size1 := size1 Q in
  let Q_internal_size1 := internal_size1 Q in
  let Q_internal_size2 := internal_size2 Q in
  let start1 := v_start tmp1 in
  let inc1 := v_stride tmp1 in
  let start2 := v_start tmp2 in
  let inc2 := v_stride tmp2 in
  if is_row_major Q then
    let index k i :=
      mem_index row_major (k * Q_inc1 + Q_start1) (i * Q_inc2 + Q_start2)
                Q_internal_size1 Q_internal_size2 in
    for_loop 0 (Z.to_nat (m - l)) (fun step =>
      let i := (m - 1 - Z.of_nat step)%Z in
      for_loop 0 Q_size1 (fun k data_Q =>
        let h := data_Q (index k (Z.to_nat (i + 1))) in
        let data_Q :=
          upd data_Q (index k (Z.to_nat (i + 1)))
              (data_tmp2 (start2 + inc2 * Z.to_nat i) *! data_Q (index k (Z.to_nat i))
               +! data_tmp1 (start1 + inc1 * Z.to_nat i) *! h) in
        upd data_Q (index k (Z.to_nat i))
            (data_tmp1 (start1 + inc1 * Z.to_nat i) *! data_Q (index k (Z.to_nat i))
             -! data_tmp2 (start2 + inc2 * Z.to_nat i) *! h)))
    data_Q
  else
    let index k i :=
      mem_index column_major (k * Q_inc1 + Q_start1) (i * Q_inc2 + Q_start2)
                Q_internal_size1 Q_internal_size2 in
    for_loop 0 (Z.to_nat (m - l)) (fun step =>
      let i := (m - 1 - Z.of_nat step)%Z in
      for_loop 0 Q_size1 (fun k data_Q =>
        let h := data_Q (index k (Z.to_nat (i + 1))) in
        let data_Q :=
          upd data_Q (index k (Z.to_nat (i + 1)))
              (data_tmp2 (start2 + inc2 * Z.to_nat i) *! data_Q (index k (Z.to_nat i))
               +! data_tmp1 (start1 + inc1 * Z.to_nat i) *! h) in
        upd data_Q (index k (Z.to_nat i))
            (data_tmp1 (start1 + inc1 * Z.to_nat i) *! data_Q (index k (Z.to_nat i))
             -! data_tmp2 (start2 + inc2 * Z.to_nat i) *! h)))
    data_Q.

End Householder.

(** The Householder reflection of one line of a matrix, as the sources
    compute it: [x(j) - 2 * d(j) * ss] with
    [ss = d(lo) * x(lo) + ... + d(hi - 1) * x(hi - 1)] accumulated from
    zero. *)
Definition reflection_sum {T} `{NumericSub T} (d x : nat -> T) (lo hi : nat) : T :=
  for_loop lo hi (fun j ss => ss +! d j *! x j) num_zero.

Definition reflected {T} `{NumericSub T} (d x : nat -> T) (lo hi : nat) (j : nat) : T :=
  x j -! (num_two *! d j *! reflection_sum d x lo hi).

(** What [givens_next] makes of one row [q] of [Q]: the rotations run from
    the column pair [(m - 1, m)] down to [(l, l + 1)]; each takes the left
    column as it was on entry and the right column as the rotation before
    it left it.  [givens_carry ... t] is what the column [m - t] holds
    after [t] rotations. *)
Fixpoint givens_carry {T} `{NumericSub T} (t1 t2 q : nat -> T) (m t : nat) : T :=
  match t with
  | 0 => q m
  | S t' =>
      t1 (m - 1 - t') *! q (m - 1 - t') -! t2 (m - 1 - t') *! givens_carry t1 t2 q m t'
  end.

Definition givens_row {T} `{NumericSub T} (t1 t2 q : nat -> T) (l m c : nat) : T :=
  if (c <? l) || (m <? c) then q c
  else if c =? l then givens_carry t1 t2 q m (m - l)
  else t2 (c - 1) *! q (c - 1) +! t1 (c - 1) *! givens_carry t1 t2 q m (m - c).

(* ================================================================= *)
(** ** Lazy compilation of a program *)

Section LazyProgramCompiler.

(** [viennacl::ocl::context] and [viennacl::ocl::program] are declared in
    [viennacl/ocl/context.hpp], which is not among the sources: the two
    member functions of the context that the class calls are parameters.
    [add_program] changes the context and returns a reference to the
    program; [get_program] looks a program up by its name. *)
Variables ocl_context ocl_program : Type.
Variable add_program : ocl_context -> String.string -> String.string -> ocl_context * ocl_program.
Variable get_program : ocl_context -> String.string -> ocl_program.

(** The members of [lazy_program_compiler].  [ctx_] points to a context
    that is shared with the caller: the context is a state of its own,
    passed to and returned by the member functions that reach it.
    [program_] is a pointer that is null until the first call of
    [program()]. *)
Record lazy_program_compiler : Type := {
  program_ : option ocl_program;
  name_ : String.string;
  src_ : String.string
}.

(** The two constructors. *)
Definition lazy_program_compiler_new (name src : String.string) : lazy_program_compiler :=
  {| program_ := None; name_ := name; src_ := src |}.

Definition lazy_program_compiler_new_empty (name : String.string) : lazy_program_compiler :=
  {| program_ := None; name_ := name; src_ := String.EmptyString |}.

(** [add]: [src_ += src]. *)
Definition add (src : String.string) (c : lazy_program_compiler) : lazy_program_compiler :=
  {| program_ := program_ c; name_ := name_ c; src_ := String.append (src_ c) src |}.

(** [src()] *)
Definition src (c : lazy_program_compiler) : String.string := src_ c.

(** [program()]: returns the program, the compiler and the context. *)
Definition program (c : lazy_program_compiler) (ctx : ocl_context)
    : ocl_program * lazy_program_compiler * ocl_context :=
  match program_ c with
  | None =>
      let '(ctx', p) := add_program ctx (src_ c) (name_ c) in
      (get_program ctx' (name_ c),
       {| program_ := Some p; name_ := name_ c; src_ := src_ c |},
       ctx')
  | Some _ => (get_program ctx (name_ c), c, ctx)
  end.

(** A sequence of calls of the member functions [add] and [program]. *)
Inductive call : Type :=
  | call_add (src : String.string)
  | call_program.

Definition run_call (op : call) (s : lazy_program_compiler * ocl_context)
    : lazy_program_compiler * ocl_context :=
  match op with
  | call_add src => (add src (fst s), snd s)
  | call_program =>
      let '(_, c, ctx) := program (fst s) (snd s) in (c, ctx)
  end.

Definition run_calls (ops : list call) (s : lazy_program_compiler * ocl_context)
    : lazy_program_compiler * ocl_context :=
  fold_left (fun s op => run_call op s) ops s.

(** The sources added by the calls of [add], up to the first call of
    [program] and over the whole sequence. *)
Fixpoint added_before_program (ops : list call) : String.string :=
  match ops with
  | [] => String.EmptyString
  | call_add src :: ops' => String.append src (added_before_program ops')
  | call_program :: _ => String.EmptyString
  end.

Fixpoint added (ops : list call) : String.string :=
  match ops with
  | [] => String.EmptyString
  | call_add src :: ops' => String.append src (added ops')
  | call_program :: ops' => added ops'
  end.

Definition calls_program (ops : list call) : bool :=
  existsb (fun op => match op with call_program => true | call_add _ => false end) ops.

End LazyProgramCompiler.

(* ================================================================= *)
(** ** What an operation leaves in the storage of its destination *)

(** A cell of the storage of [M] that is not the cell of a logical element
    (padding, or a cell between the elements of a strided view). *)
Definition padding_cell {T} (M : matrix_base T) (a : nat) : Prop :=
  forall i j, i < size1 M -> j < size2 M -> a <> offset_of M i j.

Definition v_padding_cell {T} (v : vector_base T) (a : nat) : Prop :=
  forall i, i < v_size v -> a <> v_offset v i.

(** The operation ran to completion, the logical element [(i, j)] of
    [mat1] holds [value i j], and the cells that are not logical elements
    are as they were. *)
Definition elementwise_result {T} (mat1 : matrix_base T) (o : outcome T)
    (value : nat -> nat -> T) : Prop :=
  exists data,
    o = completed data /\
    (forall i j, i < size1 mat1 -> j < size2 mat1 ->
       data (offset_of mat1 i j) = value i j) /\
    (forall a, padding_cell mat1 a -> data a = elements mat1 a).

(** The loop nest that the element-wise operations share, in the loop
    order of either layout: the cell of [(row, col)] goes through
    [f row col]. *)
Definition elementwise_loops {T} (M : matrix_base T) (f : nat -> nat -> T -> T)
    : buffer T :=
  if is_row_major M then
    for_loop 0 (size1 M) (fun row =>
      for_loop 0 (size2 M) (fun col d =>
        upd d (wrapper_index row_major (wrapper_of M) row col)
            (f row col (d (wrapper_index row_major (wrapper_of M) row col)))))
    (elements M)
  else
    for_loop 0 (size2 M) (fun col =>
      for_loop 0 (size1 M) (fun row d =>
        upd d (wrapper_index column_major (wrapper_of M) row col)
            (f row col (d (wrapper_index column_major (wrapper_of M) row col)))))
    (elements M).

(** Two matrices with the same sizes and the same logical elements; the
    layouts, offsets, strides and paddings may differ. *)
Definition same_elements {T} (M M' : matrix_base T) : Prop :=
  size1 M' = size1 M /\ size2 M' = size2 M /\
  forall i j, i < size1 M -> j < size2 M -> element M' i j = element M i j.

(* ================================================================= *)
(** ** Example data *)

Definition buffer_of_list {T} (default : T) (l : list T) : buffer T :=
  fun a => nth a l default.

(** A matrix without offsets and with unit strides, [rows x cols] elements
    in a storage padded to [internal1 x internal2]. *)
Definition plain_matrix {T} (row_major : bool) (rows cols internal1 internal2 : nat)
    (data : buffer T) : matrix_base T :=
  {| start1 := 0; start2 := 0; stride1 := 1; stride2 := 1;
     size1 := rows; size2 := cols;
     internal_size1 := internal1; internal_size2 := internal2;
     is_row_major := row_major; elements := data |}.

Definition example_block_sizes : block_sizes :=
  {| mc := 4; kc := 2; nc := 4; mr := 2; nr := 2 |}.

Definition example_get_block_sizes (m k n : nat) : block_sizes :=
  example_block_sizes.

(** Integer matrices: [example_A] is 3 x 5, [example_B] is 5 x 3 and
    [example_C] is 3 x 3 in a 4 x 4 storage whose padding holds [-1]. *)
Definition example_A : matrix_base Z :=
  plain_matrix true 3 5 3 5
    (buffer_of_list 0%Z [1; 2; 3; 4; 5;  6; 7; 8; 9; 10;  11; 12; 13; 14; 15]%Z).

Definition example_B : matrix_base Z :=
  plain_matrix true 5 3 5 3
    (buffer_of_list 0%Z [1; 0; 2;  0; 1; 0;  3; 0; 1;  1; 1; 1;  2; 2; 2]%Z).

Definition example_C : matrix_base Z :=
  plain_matrix true 3 3 4 4
    (buffer_of_list 0%Z
       [100; 100; 100; -1;  100; 100; 100; -1;  100; 100; 100; -1;  -1; -1; -1; -1]%Z).

(** A 5 x 3 destination for the transpose of [example_A], in a 6 x 4
    storage, and a 3 x 5 destination for the way back. *)
Definition example_At : matrix_base Z :=
  plain_matrix true 5 3 6 4 (fun _ => 0%Z).

Definition example_A' : matrix_base Z :=
  plain_matrix true 3 5 3 5 (fun _ => 0%Z).

(** A 1 x 3 row, a 3 x 1 column and a 1 x 1 result. *)
Definition example_row : matrix_base Z :=
  plain_matrix true 1 3 1 3 (buffer_of_list 0%Z [1; 1; 1]%Z).

Definition example_column : matrix_base Z :=
  plain_matrix true 3 1 3 1 (buffer_of_list 0%Z [1; 1; 1]%Z).

Definition example_scalar : matrix_base Z :=
  plain_matrix true 1 1 1 1 (buffer_of_list 0%Z [1]%Z).

(** An empty product: 0 x 5 times 5 x 3. *)
Definition example_empty_A : matrix_base Z :=
  plain_matrix true 0 5 0 5 (fun _ => 0%Z).

Definition example_empty_C : matrix_base Z :=
  plain_matrix true 0 3 4 4 (fun _ => 7%Z).

(** What the freshly allocated buffers hold in the examples. *)
Definition example_garbage : nat -> nat -> buffer Z := fun _ _ _ => 777%Z.

Definition example_garbage_double : nat -> nat -> buffer float :=
  fun _ _ _ => infinity.

(** 1 x 1 matrices of [double]: [2], [3] and [5]. *)
Definition example_double_A : matrix_base float :=
  plain_matrix true 1 1 1 1 (buffer_of_list 0%float [2%float]).

Definition example_double_B : matrix_base float :=
  plain_matrix true 1 1 1 1 (buffer_of_list 0%float [3%float]).

Definition example_double_C : matrix_base float :=
  plain_matrix true 1 1 1 1 (buffer_of_list 0%float [5%float]).

(** Vectors: [example_x] holds [1 2 3 4 5]; [example_d] holds [10 20 30] at
    the offsets 1, 3 and 5 of its storage; [example_y] and [example_s] are
    destinations of three elements, the second one with an offset and a
    stride. *)
Definition example_x : vector_base Z :=
  {| v_start := 0; v_stride := 1; v_size := 5;
     v_elements := buffer_of_list 0%Z [1; 2; 3; 4; 5]%Z |}.

Definition example_d : vector_base Z :=
  {| v_start := 1; v_stride := 2; v_size := 3;
     v_elements := buffer_of_list 0%Z [0; 10; 0; 20; 0; 30; 0]%Z |}.

Definition example_y : vector_base Z :=
  {| v_start := 0; v_stride := 1; v_size := 3; v_elements := fun _ => 0%Z |}.

Definition example_s : vector_base Z :=
  {| v_start := 2; v_stride := 3; v_size := 3; v_elements := fun _ => (-1)%Z |}.

(** A 3 x 5 matrix of naturals, the source of a conversion. *)
Definition example_N : matrix_base nat :=
  plain_matrix true 3 5 3 5 (fun a => a).

(** A 3 x 3 matrix in a 4 x 4 storage, and a column-major copy of it. *)
Definition example_Q : matrix_base Z :=
  plain_matrix true 3 3 4 4
    (buffer_of_list 0%Z
       [1; 2; 3; -1;  4; 5; 6; -1;  7; 8; 9; -1;  -1; -1; -1; -1]%Z).

Definition example_Q_column_major : matrix_base Z :=
  plain_matrix false 3 3 4 4
    (buffer_of_list 0%Z
       [1; 4; 7; -1;  2; 5; 8; -1;  3; 6; 9; -1;  -1; -1; -1; -1]%Z).

(** Another content of the freshly allocated buffers. *)
Definition example_garbage' : nat -> nat -> buffer Z := fun _ _ a => Z.of_nat a.

(** The buffers of [detail::prod] on [example_A] and [example_B] when the
    last k-block (index 2, one valid position out of [kc = 2]) has been
    packed for the blocks of index 0. *)
Definition example_tile_buffers : gemm_buffers (T := Z) :=
  {| buffer_A :=
       pack_matrix_A (example_garbage 0 0) 0 4 4 2 2
         (elements example_A) 3 5 3 5 1 1 0 0 false true;
     buffer_B :=
       pack_matrix_B (example_garbage 0 1) 4 0 2 4 2
         (elements example_B) 5 3 5 3 1 1 0 0 false true;
     buffer_C := example_garbage 0 2;
     data_C := elements example_C |}.

(* ================================================================= *)
(** * Properties *)

(** ** Loops *)

Lemma for_loop_empty {S} (lo hi : nat) (body : nat -> S -> S) (s : S) :
  hi <= lo -> for_loop lo hi body s = s.
Proof.
  intros Hle. unfold for_loop.
  replace (hi - lo) with 0 by lia. reflexivity.
Qed.

Lemma for_loop_step {S} (lo hi : nat) (body : nat -> S -> S) (s : S) :
  lo <= hi -> for_loop lo (Datatypes.S hi) body s = body hi (for_loop lo hi body s).
Proof.
  intros Hle. unfold for_loop.
  replace (Datatypes.S hi - lo) with (Datatypes.S (hi - lo)) by lia.
  rewrite seq_S, fold_left_app. simpl.
  replace (lo + (hi - lo)) with hi by lia. reflexivity.
Qed.

(** A property that every iteration preserves holds after the loop. *)
Lemma for_loop_preserves {S} (P : S -> Prop) (lo hi : nat) (body : nat -> S -> S) (s : S) :
  P s ->
  (forall i s', lo <= i < hi -> P s' -> P (body i s')) ->
  P (for_loop lo hi body s).
Proof.
  intros Hs Hbody.
  destruct (Nat.le_gt_cases hi lo) as [Hle | Hlt].
  - rewrite for_loop_empty by exact Hle. exact Hs.
  - assert (Hgen : forall h, lo <= h <= hi -> P (for_loop lo h body s)).
    { induction h as [| h IH]; intros Hh.
      - rewrite for_loop_empty by lia. exact Hs.
      - destruct (Nat.eq_dec lo (Datatypes.S h)) as [-> | Hne].
        + rewrite for_loop_empty by lia. exact Hs.
        + rewrite for_loop_step by lia. apply Hbody; [lia | apply IH; lia]. }
    apply Hgen. lia.
Qed.

(** A property that iteration [k] establishes and every iteration
    preserves holds after the loop. *)
Lemma for_loop_establish {S} (P : S -> Prop) (lo hi : nat) (body : nat -> S -> S)
    (k : nat) (s : S) :
  lo <= k < hi ->
  (forall s', P (body k s')) ->
  (forall i s', lo <= i < hi -> P s' -> P (body i s')) ->
  P (for_loop lo hi body s).
Proof.
  intros Hk Hat Hkeep.
  assert (Hgen : forall h, k < h <= hi -> P (for_loop lo h body s)).
  { induction h as [| h IH]; intros Hh; [lia |].
    rewrite for_loop_step by lia.
    destruct (Nat.eq_dec h k) as [-> | Hne].
    - apply Hat.
    - apply Hkeep; [lia | apply IH; lia]. }
  apply Hgen. lia.
Qed.

Section Observation.

(** What a loop does to an observation [get] of its state, under an
    invariant [Inv] of the state. *)
Context {S X : Type} (get : S -> X) (Inv : S -> Prop).

Lemma for_loop_inv (lo hi : nat) (body : nat -> S -> S) (s : S) :
  Inv s ->
  (forall i s', lo <= i < hi -> Inv s' -> Inv (body i s')) ->
  Inv (for_loop lo hi body s).
Proof. apply for_loop_preserves. Qed.

(** No iteration changes the observation. *)
Lemma for_loop_miss (lo hi : nat) (body : nat -> S -> S) (s : S) :
  Inv s ->
  (forall i s', lo <= i < hi -> Inv s' -> Inv (body i s')) ->
  (forall i s', lo <= i < hi -> Inv s' -> get (body i s') = get s') ->
  get (for_loop lo hi body s) = get s.
Proof.
  intros Hs Hinv Hget.
  assert (Hboth : Inv (for_loop lo hi body s) /\ get (for_loop lo hi body s) = get s).
  { apply (for_loop_preserves (fun s' => Inv s' /\ get s' = get s)).
    - split; [exact Hs | reflexivity].
    - intros i s' Hi [HI Hg]. split.
      + apply Hinv; assumption.
      + rewrite Hget by assumption. exact Hg. }
  apply Hboth.
Qed.

(** Every iteration [i] maps the observation through [g i]. *)
Lemma for_loop_iter (lo hi : nat) (body : nat -> S -> S) (g : nat -> X -> X) (s : S) :
  Inv s ->
  (forall i s', lo <= i < hi -> Inv s' -> Inv (body i s')) ->
  (forall i s', lo <= i < hi -> Inv s' -> get (body i s') = g i (get s')) ->
  get (for_loop lo hi body s) = for_loop lo hi g (get s).
Proof.
  intros Hs Hinv Hget.
  destruct (Nat.le_gt_cases hi lo) as [Hle | Hlt].
  - rewrite !for_loop_empty by exact Hle. reflexivity.
  - assert (Hgen : forall h, lo <= h <= hi ->
               Inv (for_loop lo h body s) /\
               get (for_loop lo h body s) = for_loop lo h g (get s)).
    { induction h as [| h IH]; intros Hh.
      - rewrite !for_loop_empty by lia. split; [exact Hs | reflexivity].
      - destruct (Nat.eq_dec lo (Datatypes.S h)) as [-> | Hne].
        + rewrite !for_loop_empty by lia. split; [exact Hs | reflexivity].
        + rewrite !for_loop_step by lia.
          destruct IH as [HI Hg]; [lia |]. split.
          * apply Hinv; [lia | exact HI].
          * rewrite Hget by (lia || exact HI). rewrite Hg. reflexivity. }
    apply Hgen. lia.
Qed.

(** Exactly one iteration, [k], changes the observation. *)
Lemma for_loop_hit (lo hi : nat) (body : nat -> S -> S) (k : nat) (g : X -> X) (s : S) :
  lo <= k < hi ->
  Inv s ->
  (forall i s', lo <= i < hi -> Inv s' -> Inv (body i s')) ->
  (forall i s', lo <= i < hi -> i <> k -> Inv s' -> get (body i s') = get s') ->
  (forall s', Inv s' -> get (body k s') = g (get s')) ->
  get (for_loop lo hi body s) = g (get s).
Proof.
  intros Hk Hs Hinv Hother Hat.
  assert (Hgen : forall h, lo <= h <= hi ->
             Inv (for_loop lo h body s) /\
             get (for_loop lo h body s) = if h <=? k then get s else g (get s)).
  { induction h as [| h IH]; intros Hh.
    - rewrite for_loop_empty by lia. split; [exact Hs | reflexivity].
    - destruct (Nat.eq_dec lo (Datatypes.S h)) as [-> | Hne].
      + rewrite for_loop_empty by lia. split; [exact Hs |].
        destruct (Nat.leb_spec (Datatypes.S h) k); [reflexivity | lia].
      + rewrite for_loop_step by lia.
        destruct IH as [HI Hg]; [lia |]. split.
        * apply Hinv; [lia | exact HI].
        * destruct (Nat.eq_dec h k) as [-> | Hhk].
          -- rewrite Hat by exact HI. rewrite Hg.
             rewrite Nat.leb_refl.
             destruct (Nat.leb_spec (Datatypes.S k) k); [lia | reflexivity].
          -- rewrite Hother by (lia || assumption). rewrite Hg.
             destruct (Nat.leb_spec h k), (Nat.leb_spec (Datatypes.S h) k);
               try reflexivity; lia. }
  destruct (Hgen hi) as [_ Hg]; [lia |].
  rewrite Hg. destruct (Nat.leb_spec hi k); [lia | reflexivity].
Qed.

(** The same for two nested loops over [lo1 <= a < hi1], [lo2 <= b < hi2]. *)
Lemma for_loop2_inv (n m : nat) (act : nat -> nat -> S -> S) (s : S) :
  Inv s ->
  (forall a b s', a < n -> b < m -> Inv s' -> Inv (act a b s')) ->
  Inv (for_loop 0 n (fun a => for_loop 0 m (act a)) s).
Proof.
  intros Hs Hinv.
  apply for_loop_inv; [exact Hs |].
  intros a s' Ha HI. apply for_loop_inv; [exact HI |].
  intros b s'' Hb HI'. apply Hinv; (lia || assumption).
Qed.

Lemma for_loop2_miss (n m : nat) (act : nat -> nat -> S -> S) (s : S) :
  Inv s ->
  (forall a b s', a < n -> b < m -> Inv s' -> Inv (act a b s')) ->
  (forall a b s', a < n -> b < m -> Inv s' -> get (act a b s') = get s') ->
  get (for_loop 0 n (fun a => for_loop 0 m (act a)) s) = get s.
Proof.
  intros Hs Hinv Hget.
  apply for_loop_miss; [exact Hs | |].
  - intros a s' Ha HI. apply for_loop_inv; [exact HI |].
    intros b s'' Hb HI'. apply Hinv; (lia || assumption).
  - intros a s' Ha HI. apply for_loop_miss; [exact HI | |].
    + intros b s'' Hb HI'. apply Hinv; (lia || assumption).
    + intros b s'' Hb HI'. apply Hget; (lia || assumption).
Qed.

Lemma for_loop2_hit (n m : nat) (act : nat -> nat -> S -> S)
    (a0 b0 : nat) (g : X -> X) (s : S) :
  a0 < n -> b0 < m ->
  Inv s ->
  (forall a b s', a < n -> b < m -> Inv s' -> Inv (act a b s')) ->
  (forall a b s', a < n -> b < m -> ~ (a = a0 /\ b = b0) -> Inv s' ->
     get (act a b s') = get s') ->
  (forall s', Inv s' -> get (act a0 b0 s') = g (get s')) ->
  get (for_loop 0 n (fun a => for_loop 0 m (act a)) s) = g (get s).
Proof.
  intros Ha0 Hb0 Hs Hinv Hother Hat.
  apply for_loop_hit with (k := a0); [lia | exact Hs | | |].
  - intros a s' Ha HI. apply for_loop_inv; [exact HI |].
    intros b s'' Hb HI'. apply Hinv; (lia || assumption).
  - intros a s' Ha Hne HI. apply for_loop_miss; [exact HI | |].
    + intros b s'' Hb HI'. apply Hinv; (lia || assumption).
    + intros b s'' Hb HI'. apply Hother; (lia || assumption).
  - intros s' HI. apply for_loop_hit with (k := b0); [lia | exact HI | | |].
    + intros b s'' Hb HI'. apply Hinv; (lia || assumption).
    + intros b s'' Hb Hne HI'. apply Hother; (lia || assumption).
    + exact Hat.
Qed.

End Observation.

(** ** Buffers *)

Lemma upd_same {T} (data : buffer T) (a : nat) (v : T) : upd data a v a = v.
Proof. unfold upd. rewrite Nat.eqb_refl. reflexivity. Qed.

Lemma upd_other {T} (data : buffer T) (a a' : nat) (v : T) :
  a' <> a -> upd data a v a' = data a'.
Proof.
  intros Hne. unfold upd.
  destruct (Nat.eqb_spec a' a); [contradiction | reflexivity].
Qed.

(** ** Addressing *)

Lemma mem_index_inj (L : layout) (x y x' y' n1 n2 : nat) :
  match L with row_major => y < n2 /\ y' < n2 | column_major => x < n1 /\ x' < n1 end ->
  mem_index L x y n1 n2 = mem_index L x' y' n1 n2 ->
  x = x' /\ y = y'.
Proof.
  destruct L; simpl; intros [H1 H2] Heq.
  - assert (x = x') by nia. subst. split; [reflexivity | lia].
  - assert (y = y') by nia. subst. split; [lia | reflexivity].
Qed.

Lemma wrapper_index_inj (L : layout) (w : matrix_array_wrapper) (n1 n2 i j i' j' : nat) :
  wf_wrapper L w n1 n2 ->
  i < n1 -> j < n2 -> i' < n1 -> j' < n2 ->
  wrapper_index L w i j = wrapper_index L w i' j' ->
  i = i' /\ j = j'.
Proof.
  intros (Hinc1 & Hinc2 & Hfit) Hi Hj Hi' Hj' Heq.
  unfold wrapper_index in Heq.
  apply mem_index_inj in Heq.
  - destruct Heq as [E1 E2]. split; nia.
  - destruct L; split; apply Hfit; assumption.
Qed.

(** Two nested loops that store a value computed from the indices. *)
Section Store.
Context {T : Type}.
Variables (off : nat -> nat -> nat) (val : nat -> nat -> T) (n m : nat).

Lemma store_loops_frame (d : buffer T) (x : nat) :
  (forall a b, a < n -> b < m -> x <> off a b) ->
  for_loop 0 n (fun a => for_loop 0 m (fun b d => upd d (off a b) (val a b))) d x = d x.
Proof.
  intros Hx.
  apply for_loop2_miss with (get := fun d : buffer T => d x) (Inv := fun _ : buffer T => True)
     (act := fun a b d => upd d (off a b) (val a b)); auto.
  intros a b s' Ha Hb _. apply upd_other. apply Hx; assumption.
Qed.

Lemma store_loops_hit (d : buffer T) (a0 b0 : nat) :
  a0 < n -> b0 < m ->
  (forall a b, a < n -> b < m -> off a b = off a0 b0 -> a = a0 /\ b = b0) ->
  for_loop 0 n (fun a => for_loop 0 m (fun b d => upd d (off a b) (val a b))) d (off a0 b0)
  = val a0 b0.
Proof.
  intros Ha0 Hb0 Hinj.
  apply for_loop2_hit with (get := fun d : buffer T => d (off a0 b0)) (Inv := fun _ : buffer T => True)
           (act := fun a b d => upd d (off a b) (val a b)) (g := fun _ => val a0 b0) (a0 := a0) (b0 := b0); auto.
  - intros a b s' Ha Hb Hne _. apply upd_other.
    intros Heq. apply Hne. apply Hinj; auto.
  - intros s' _. apply upd_same.
Qed.
End Store.

(** ** Element-wise operations *)

Section ElementwiseProperties.

Context {T : Type} `{Numeric T}.

Lemma offset_of_row_major (M : matrix_base T) (i j : nat) :
  is_row_major M = true ->
  offset_of M i j = wrapper_index row_major (wrapper_of M) i j.
Proof. intros E. unfold offset_of. rewrite E. reflexivity. Qed.

Lemma offset_of_column_major (M : matrix_base T) (i j : nat) :
  is_row_major M = false ->
  offset_of M i j = wrapper_index column_major (wrapper_of M) i j.
Proof. intros E. unfold offset_of. rewrite E. reflexivity. Qed.

Lemma offset_of_inj (M : matrix_base T) (i j i' j' : nat) :
  wf_matrix M ->
  i < size1 M -> j < size2 M -> i' < size1 M -> j' < size2 M ->
  offset_of M i j = offset_of M i' j' -> i = i' /\ j = j'.
Proof. intros Hwf. apply wrapper_index_inj with (n1 := size1 M) (n2 := size2 M). exact Hwf. Qed.

(** The loop nest shared by the element-wise assignments, in either loop
    order, stores [val i j] into the logical cell [(i, j)]. *)
Lemma assign_rows_hit (M : matrix_base T) (val : nat -> nat -> T) (i j : nat) :
  wf_matrix M -> is_row_major M = true ->
  i < size1 M -> j < size2 M ->
  for_loop 0 (size1 M) (fun row =>
    for_loop 0 (size2 M) (fun col d =>
      upd d (wrapper_index row_major (wrapper_of M) row col) (val row col)))
    (elements M) (offset_of M i j) = val i j.
Proof.
  intros Hwf E Hi Hj. rewrite offset_of_row_major by exact E.
  apply store_loops_hit
    with (off := fun row col => wrapper_index row_major (wrapper_of M) row col)
         (val := val); try assumption.
  intros a b Ha Hb Heq.
  rewrite <- !offset_of_row_major in Heq by exact E.
  apply offset_of_inj with (M := M); assumption.
Qed.

Lemma assign_columns_hit (M : matrix_base T) (val : nat -> nat -> T) (i j : nat) :
  wf_matrix M -> is_row_major M = false ->
  i < size1 M -> j < size2 M ->
  for_loop 0 (size2 M) (fun col =>
    for_loop 0 (size1 M) (fun row d =>
      upd d (wrapper_index column_major (wrapper_of M) row col) (val row col)))
    (elements M) (offset_of M i j) = val i j.
Proof.
  intros Hwf E Hi Hj. rewrite offset_of_column_major by exact E.
  apply store_loops_hit
    with (off := fun col row => wrapper_index column_major (wrapper_of M) row col)
         (val := fun col row => val row col) (a0 := j) (b0 := i); try assumption.
  intros a b Ha Hb Heq.
  rewrite <- !offset_of_column_major in Heq by exact E.
  apply offset_of_inj with (M := M) in Heq; try assumption.
  destruct Heq; split; assumption.
Qed.

(** C7.  Every element-wise operation ([convert], [am], [ambm], [ambm_m],
    both forms of [element_op]) starts with an assertion that all its
    operands have the same [row_major] flag.  With assertions enabled, a
    call in which any two operands differ in that flag is aborted by the
    assertion with the storage of the destination as it was on entry, and a
    call whose operands agree passes the assertion and runs to completion. *)
Theorem layout_assertion {SrcT : Type} (cast : SrcT -> T) (src : matrix_base SrcT)
    (mat1 mat2 mat3 : matrix_base T) (alpha beta : T)
    (reciprocal_alpha flip_sign_alpha reciprocal_beta flip_sign_beta : bool)
    (op2 : T -> T -> T) (op1 : T -> T) :
  let f1 := is_row_major mat1 in
  let f2 := is_row_major mat2 in
  let f3 := is_row_major mat3 in
  let guarded (agree : bool) (o : outcome T) :=
    o = if agree then completed (storage o) else assertion_failed (elements mat1) in
  guarded (layouts_agree [f1; is_row_major src]) (convert cast mat1 src) /\
  guarded (layouts_agree [f1; f2]) (am mat1 mat2 alpha reciprocal_alpha flip_sign_alpha) /\
  guarded (layouts_agree [f1; f2; f3])
    (ambm mat1 mat2 alpha reciprocal_alpha flip_sign_alpha
          mat3 beta reciprocal_beta flip_sign_beta) /\
  guarded (layouts_agree [f1; f2; f3])
    (ambm_m mat1 mat2 alpha reciprocal_alpha flip_sign_alpha
            mat3 beta reciprocal_beta flip_sign_beta) /\
  guarded (layouts_agree [f1; f2; f3]) (element_op_binary op2 mat1 mat2 mat3) /\
  guarded (layouts_agree [f1; f2; f3]) (element_op_unary op1 mat1 mat2 mat3).
Proof.
  intros f1 f2 f3 guarded. subst guarded f1 f2 f3.
  unfold convert, am, ambm, ambm_m, element_op_binary, element_op_unary, layouts_agree.
  destruct (is_row_major mat1), (is_row_major mat2), (is_row_major mat3),
    (is_row_major src), reciprocal_alpha; simpl; repeat split; reflexivity.
Qed.

(** C8.  For matrices of the same layout, [am] sets every logical element
    [mat1(i, j)] to [mat2(i, j) * alpha'] when [reciprocal_alpha] is false
    and to [mat2(i, j) / alpha'] when it is true, where [alpha'] is [-alpha]
    if [flip_sign_alpha] is set and [alpha] otherwise; with both flags set
    the element is [mat2(i, j) / (-alpha)]. *)
Theorem am_spec (mat1 mat2 : matrix_base T) (alpha : T)
    (reciprocal_alpha flip_sign_alpha : bool) (i j : nat) :
  wf_matrix mat1 ->
  is_row_major mat1 = is_row_major mat2 ->
  i < size1 mat1 -> j < size2 mat1 ->
  let alpha' := if flip_sign_alpha then num_opp alpha else alpha in
  exists data,
    am mat1 mat2 alpha reciprocal_alpha flip_sign_alpha = completed data /\
    data (offset_of mat1 i j)
    = (if reciprocal_alpha then element mat2 i j /! alpha' else element mat2 i j *! alpha') /\
    (reciprocal_alpha = true -> flip_sign_alpha = true ->
     data (offset_of mat1 i j) = element mat2 i j /! num_opp alpha).
Proof.
  intros Hwf Hlay Hi Hj alpha'.
  assert (Hmain : exists data,
    am mat1 mat2 alpha reciprocal_alpha flip_sign_alpha = completed data /\
    data (offset_of mat1 i j)
    = (if reciprocal_alpha then element mat2 i j /! alpha' else element mat2 i j *! alpha')).
  { unfold am. rewrite <- Hlay, Bool.eqb_reflx. simpl negb. cbv iota.
    fold alpha'.
    destruct (is_row_major mat1) eqn:E1; destruct reciprocal_alpha;
      eexists; (split; [reflexivity |]).
    - rewrite assign_rows_hit by assumption.
      unfold element. rewrite offset_of_row_major by congruence. reflexivity.
    - rewrite assign_rows_hit by assumption.
      unfold element. rewrite offset_of_row_major by congruence. reflexivity.
    - rewrite assign_columns_hit by assumption.
      unfold element. rewrite offset_of_column_major by congruence. reflexivity.
    - rewrite assign_columns_hit by assumption.
      unfold element. rewrite offset_of_column_major by congruence. reflexivity. }
  destruct Hmain as (data & Hrun & Hval).
  exists data. split; [exact Hrun |]. split; [exact Hval |].
  intros -> Hflip. rewrite Hval. subst alpha'. rewrite Hflip. reflexivity.
Qed.

(** Two nested loops that store one value [s] leave [s] in every cell they
    address, whether or not the addresses are distinct. *)
Lemma fill_loops_hit (off : nat -> nat -> nat) (s : T) (n m : nat)
    (d : buffer T) (a0 b0 : nat) :
  a0 < n -> b0 < m ->
  for_loop 0 n (fun a => for_loop 0 m (fun b d => upd d (off a b) s)) d (off a0 b0) = s.
Proof.
  intros Ha0 Hb0.
  assert (Hkeep : forall a b (d' : buffer T),
             d' (off a0 b0) = s -> upd d' (off a b) s (off a0 b0) = s).
  { intros a b d' Hd. unfold upd. destruct (Nat.eqb _ _); [reflexivity | exact Hd]. }
  apply for_loop_establish with (P := fun d' : buffer T => d' (off a0 b0) = s) (k := a0);
    [lia | |].
  - intros d'.
    apply for_loop_establish with (P := fun d' : buffer T => d' (off a0 b0) = s) (k := b0);
      [lia | |].
    + intros d''. apply upd_same.
    + intros b d'' _ Hd. apply Hkeep, Hd.
  - intros a d' _ Hd.
    apply for_loop_preserves with (P := fun d' : buffer T => d' (off a0 b0) = s);
      [exact Hd |].
    intros b d'' _ Hd'. apply Hkeep, Hd'.
Qed.

(** With [clear == false], [matrix_assign] sets the logical elements and
    nothing else, for any view. *)
Lemma matrix_assign_logical (mat : matrix_base T) (s : T) :
  (forall i j, i < size1 mat -> j < size2 mat ->
     matrix_assign mat s false (offset_of mat i j) = s) /\
  (forall a, (forall i j, i < size1 mat -> j < size2 mat -> a <> offset_of mat i j) ->
     matrix_assign mat s false a = elements mat a).
Proof.
  unfold matrix_assign, offset_of. destruct (is_row_major mat); simpl; split.
  - intros i j Hi Hj.
    apply fill_loops_hit
      with (off := fun row col => wrapper_index row_major (wrapper_of mat) row col);
      assumption.
  - intros a Ha.
    apply store_loops_frame
      with (off := fun row col => wrapper_index row_major (wrapper_of mat) row col)
           (val := fun _ _ => s).
    intros; apply Ha; assumption.
  - intros i j Hi Hj.
    apply fill_loops_hit
      with (off := fun col row => wrapper_index column_major (wrapper_of mat) row col)
           (a0 := j) (b0 := i); assumption.
  - intros a Ha.
    apply store_loops_frame
      with (off := fun col row => wrapper_index column_major (wrapper_of mat) row col)
           (val := fun _ _ => s).
    intros; apply Ha; assumption.
Qed.

(** C9.  With [clear == false], [matrix_assign] writes [s] to the logical
    [size1 x size2] elements of [mat] and to nothing else, so every padding
    element (index beyond the logical sizes, inside
    [internal_size1 x internal_size2]) keeps its content; with
    [clear == true] the loops run over [internal_size1 x internal_size2] and
    the padding elements receive [s] as well. *)
Theorem matrix_assign_spec (mat : matrix_base T) (s : T) :
  wf_wrapper (layout_of (is_row_major mat)) (wrapper_of mat)
             (internal_size1 mat) (internal_size2 mat) ->
  size1 mat <= internal_size1 mat ->
  size2 mat <= internal_size2 mat ->
  (forall i j, i < size1 mat -> j < size2 mat ->
     matrix_assign mat s false (offset_of mat i j) = s) /\
  (forall a, (forall i j, i < size1 mat -> j < size2 mat -> a <> offset_of mat i j) ->
     matrix_assign mat s false a = elements mat a) /\
  (forall r c, r < internal_size1 mat -> c < internal_size2 mat ->
     ~ (r < size1 mat /\ c < size2 mat) ->
     matrix_assign mat s false (offset_of mat r c) = elements mat (offset_of mat r c)) /\
  (forall r c, r < internal_size1 mat -> c < internal_size2 mat ->
     matrix_assign mat s true (offset_of mat r c) = s).
Proof.
  intros Hwf Hs1 Hs2.
  destruct (matrix_assign_logical mat s) as [Hset Hframe].
  split; [exact Hset |]. split; [exact Hframe |]. split.
  - intros r c Hr Hc Hpad. apply Hframe.
    intros i j Hi Hj Heq. apply Hpad.
    apply wrapper_index_inj
      with (n1 := internal_size1 mat) (n2 := internal_size2 mat) in Heq;
      try assumption; lia.
  - intros r c Hr Hc.
    unfold matrix_assign, offset_of. destruct (is_row_major mat); simpl.
    + apply fill_loops_hit
        with (off := fun row col => wrapper_index row_major (wrapper_of mat) row col);
        assumption.
    + apply fill_loops_hit
        with (off := fun col row => wrapper_index column_major (wrapper_of mat) row col)
             (a0 := c) (b0 := r); assumption.
Qed.

(** A loop that stores [val i] at [i - lo]. *)
Lemma copy_loop_hit (val : nat -> T) (lo hi : nat) (v : buffer T) (i : nat) :
  lo <= i < hi ->
  for_loop lo hi (fun i v => upd v (i - lo) (val i)) v (i - lo) = val i.
Proof.
  intros Hi.
  apply for_loop_hit
    with (get := fun v : buffer T => v (i - lo)) (Inv := fun _ : buffer T => True)
         (k := i) (g := fun _ => val i); auto.
  - intros i' v' Hi' Hne _. apply upd_other. lia.
  - intros v' _. apply upd_same.
Qed.

Lemma copy_loop_frame (val : nat -> T) (lo hi : nat) (v : buffer T) (a : nat) :
  hi - lo <= a ->
  for_loop lo hi (fun i v => upd v (i - lo) (val i)) v a = v a.
Proof.
  intros Ha.
  apply for_loop_miss
    with (get := fun v : buffer T => v a) (Inv := fun _ : buffer T => True); auto.
  intros i v' Hi _. apply upd_other. lia.
Qed.

(** C10.  With [copy_col == false], [copy_vec] writes
    [V[i - col_start] = A(row_start, i)] for [col_start <= i < size1(A)] and
    nothing else: the bound of the row copy is the row count [size1(A)],
    because [A_size2] is initialised from [traits::size1(A)]; the column
    copy is bounded by [size1(A)] as well. *)
Theorem copy_vec_spec (A : matrix_base T) (data_V : buffer T)
    (row_start col_start : nat) :
  (forall i, col_start <= i < size1 A ->
     copy_vec A data_V row_start col_start false (i - col_start)
     = element A row_start i) /\
  (forall a, size1 A - col_start <= a ->
     copy_vec A data_V row_start col_start false a = data_V a) /\
  (forall i, row_start <= i < size1 A ->
     copy_vec A data_V row_start col_start true (i - row_start)
     = element A i col_start) /\
  (forall a, size1 A - row_start <= a ->
     copy_vec A data_V row_start col_start true a = data_V a).
Proof.
  unfold copy_vec, element, offset_of, wrapper_index, wrapper_of; simpl.
  destruct (is_row_major A); simpl; repeat split; intros;
    match goal with
    | Hi : _ <= _ < _
      |- for_loop _ _ (fun i v => upd v (i - _) (@?val i)) _ (_ - _) = _ =>
        rewrite (copy_loop_hit val _ Hi); f_equal; lia
    | Ha : _ - _ <= _
      |- for_loop _ _ (fun i v => upd v (i - _) (@?val i)) _ _ = _ =>
        exact (copy_loop_frame val _ _ _ Ha)
    end.
Qed.

End ElementwiseProperties.

(** ** Blocked transposition *)

Lemma block_cell_lt (bs q r n : nat) :
  q < n -> r < bs -> q * bs + r < n * bs.
Proof.
  intros Hq Hr.
  assert (Datatypes.S q * bs <= n * bs) by (apply Nat.mul_le_mono_r; lia).
  lia.
Qed.

Lemma block_of_lt (bs q r n : nat) :
  q * bs + r < n * bs -> q < n.
Proof.
  intros Hlt.
  destruct (Nat.le_gt_cases n q) as [Hle | Hgt]; [| exact Hgt].
  assert (n * bs <= q * bs) by (apply Nat.mul_le_mono_r; lia).
  lia.
Qed.

Lemma block_index_unique (bs q r q' r' : nat) :
  r < bs -> r' < bs -> q * bs + r = q' * bs + r' -> q = q' /\ r = r'.
Proof.
  intros Hr Hr' Heq.
  assert (q = q').
  { destruct (Nat.lt_trichotomy q q') as [Hlt | [Heq' | Hgt]]; [| exact Heq' |].
    - pose proof (@block_cell_lt bs q r q' Hlt Hr). lia.
    - pose proof (@block_cell_lt bs q' r' q Hgt Hr'). lia. }
  subst. lia.
Qed.

Lemma block_index_in_range (n m idx : nat) :
  idx < n * m -> 0 < m /\ idx / m < n /\ idx mod m < m.
Proof.
  intros Hidx.
  assert (0 < m) by (destruct m; [rewrite Nat.mul_0_r in Hidx |]; lia).
  split; [assumption |]. split.
  - apply Nat.Div0.div_lt_upper_bound. lia.
  - apply Nat.mod_upper_bound. lia.
Qed.

Section TransLoops.

Context {T S X : Type}.
Variables (A temp_trans : matrix_base T).
Variables (get : S -> X) (assign : nat -> nat -> S -> S).

Local Abbreviation dst := (trans_dst A temp_trans).
Local Abbreviation src := (offset_of A).

(** Rewrites the cell addressed through a wrapper with a shifted origin as
    the cell of a logical index; [i] and [j] are the logical row and column
    of the element of [A]. *)
Local Ltac logical i j :=
  match goal with
  | |- get (assign ?x ?y _) = _ =>
      replace x with (dst j i)
        by (unfold trans_dst, wrapper_index, wrapper_of;
            try match goal with E : is_row_major A = _ |- _ => rewrite E end;
            simpl; f_equal; lia);
      replace y with (src i j)
        by (unfold offset_of, wrapper_index, wrapper_of;
            try match goal with E : is_row_major A = _ |- _ => rewrite E end;
            simpl; f_equal; lia)
  end.

(** Bounds of a cell inside a block. *)
Local Ltac in_block :=
  repeat match goal with
  | Hq : ?q < ?n, Hr : ?r < ?b |- context [?q * ?b + ?r] =>
      lazymatch goal with
      | _ : q * b + r < n * b |- _ => fail
      | _ => pose proof (@block_cell_lt b q r n Hq Hr)
      end
  end;
  lia.

(** No assignment of the loop nest changes the observation. *)
Lemma trans_loops_miss (s : S) :
  (forall i j s', i < size1 A -> j < size2 A ->
     get (assign (dst j i) (src i j) s') = get s') ->
  get (trans_loops A temp_trans assign s) = get s.
Proof.
  intros Hmiss. unfold trans_loops. cbv zeta.
  assert (Hbs : 0 < sub_mat_size) by (unfold sub_mat_size; lia).
  pose proof (Nat.div_mod_eq (size1 A) sub_mat_size) as E1.
  pose proof (Nat.div_mod_eq (size2 A) sub_mat_size) as E2.
  pose proof (Nat.mod_upper_bound (size1 A) sub_mat_size) as R1.
  pose proof (Nat.mod_upper_bound (size2 A) sub_mat_size) as R2.
  revert Hbs E1 E2 R1 R2.
  generalize (size1 A / sub_mat_size) (size2 A / sub_mat_size)
             (size1 A mod sub_mat_size) (size2 A mod sub_mat_size).
  generalize sub_mat_size.
  intros bs rc cc rr cr Hbs E1 E2 R1 R2.
  specialize (R1 ltac:(lia)). specialize (R2 ltac:(lia)).
  rewrite for_loop2_miss with (Inv := fun _ : S => True); auto.
  - rewrite for_loop2_miss with (Inv := fun _ : S => True); auto.
    + apply for_loop_miss with (Inv := fun _ : S => True); auto.
      intros idx s' Hidx _.
      destruct (@block_index_in_range rc cc idx) as (Hcc & Hrow & Hcol); [lia |].
      destruct (is_row_major A) eqn:Erm.
      * apply for_loop2_miss with (Inv := fun _ : S => True); auto.
        intros j k s'' Hj Hk _.
        logical (idx / cc * bs + k) (idx mod cc * bs + j).
        apply Hmiss; in_block.
      * apply for_loop2_miss with (Inv := fun _ : S => True); auto.
        intros j k s'' Hj Hk _.
        logical (idx / cc * bs + j) (idx mod cc * bs + k).
        apply Hmiss; in_block.
    + intros j k s' Hj Hk _.
      logical k (cc * bs + j).
      apply Hmiss; in_block.
  - intros j k s' Hj Hk _.
    logical (rc * bs + j) k.
    apply Hmiss; in_block.
Qed.

(** The loop nest performs the assignment of the logical index [(i0, j0)]
    exactly once, and otherwise only assignments of other logical indices:
    the sub-blocks and the two remainders cover the index range without
    overlap. *)
Lemma trans_loops_hit (g : X -> X) (i0 j0 : nat) (s : S) :
  i0 < size1 A -> j0 < size2 A ->
  (forall i j s', i < size1 A -> j < size2 A -> ~ (i = i0 /\ j = j0) ->
     get (assign (dst j i) (src i j) s') = get s') ->
  (forall s', get (assign (dst j0 i0) (src i0 j0) s') = g (get s')) ->
  get (trans_loops A temp_trans assign s) = g (get s).
Proof.
  intros Hi0 Hj0 Hother Hat. unfold trans_loops. cbv zeta.
  assert (Hbs : 0 < sub_mat_size) by (unfold sub_mat_size; lia).
  pose proof (Nat.div_mod_eq (size1 A) sub_mat_size) as E1.
  pose proof (Nat.div_mod_eq (size2 A) sub_mat_size) as E2.
  pose proof (Nat.mod_upper_bound (size1 A) sub_mat_size) as R1.
  pose proof (Nat.mod_upper_bound (size2 A) sub_mat_size) as R2.
  revert Hbs E1 E2 R1 R2.
  generalize (size1 A / sub_mat_size) (size2 A / sub_mat_size)
             (size1 A mod sub_mat_size) (size2 A mod sub_mat_size).
  generalize sub_mat_size.
  intros bs rc cc rr cr Hbs E1 E2 R1 R2.
  specialize (R1 ltac:(lia)). specialize (R2 ltac:(lia)).
  pose proof (Nat.div_mod_eq i0 bs) as Ei0.
  pose proof (Nat.div_mod_eq j0 bs) as Ej0.
  pose proof (Nat.mod_upper_bound i0 bs ltac:(lia)) as Ri0.
  pose proof (Nat.mod_upper_bound j0 bs ltac:(lia)) as Rj0.
  revert Ei0 Ej0 Ri0 Rj0.
  generalize (i0 / bs) (j0 / bs) (i0 mod bs) (j0 mod bs).
  intros q0 p0 r0 c0 Ei0 Ej0 Ri0 Rj0.
  destruct (Nat.le_gt_cases (cc * bs) j0) as [Hright | Hleft].
  - (* the remainder on the right side *)
    destruct (Nat.le_exists_sub _ _ Hright) as (d & -> & _).
    rewrite for_loop2_miss with (Inv := fun _ : S => True); auto.
    + rewrite for_loop2_hit
        with (Inv := fun _ : S => True) (g := g) (a0 := d) (b0 := i0);
        auto; try lia.
      * f_equal.
        apply for_loop_miss with (Inv := fun _ : S => True); auto.
        intros idx s' Hidx _.
        destruct (@block_index_in_range rc cc idx) as (Hcc & Hrow & Hcol); [lia |].
        destruct (is_row_major A) eqn:Erm.
        -- apply for_loop2_miss with (Inv := fun _ : S => True); auto.
           intros j k s'' Hj Hk _.
           logical (idx / cc * bs + k) (idx mod cc * bs + j).
           apply Hother; in_block.
        -- apply for_loop2_miss with (Inv := fun _ : S => True); auto.
           intros j k s'' Hj Hk _.
           logical (idx / cc * bs + j) (idx mod cc * bs + k).
           apply Hother; in_block.
      * intros j k s' Hj Hk Hne _.
        logical k (cc * bs + j).
        apply Hother; in_block.
      * intros s' _.
        logical i0 (d + cc * bs).
        apply Hat.
    + intros j k s' Hj Hk _.
      logical (rc * bs + j) k.
      apply Hother; in_block.
  - destruct (Nat.le_gt_cases (rc * bs) i0) as [Hbottom | Htop].
    + (* the remainder on the bottom side *)
      destruct (Nat.le_exists_sub _ _ Hbottom) as (d & -> & _).
      rewrite for_loop2_hit
        with (Inv := fun _ : S => True) (g := g) (a0 := d) (b0 := j0);
        auto; try lia.
      * f_equal.
        rewrite for_loop2_miss with (Inv := fun _ : S => True); auto.
        -- apply for_loop_miss with (Inv := fun _ : S => True); auto.
           intros idx s' Hidx _.
           destruct (@block_index_in_range rc cc idx) as (Hcc & Hrow & Hcol); [lia |].
           destruct (is_row_major A) eqn:Erm.
           ++ apply for_loop2_miss with (Inv := fun _ : S => True); auto.
              intros j k s'' Hj Hk _.
              logical (idx / cc * bs + k) (idx mod cc * bs + j).
              apply Hother; in_block.
           ++ apply for_loop2_miss with (Inv := fun _ : S => True); auto.
              intros j k s'' Hj Hk _.
              logical (idx / cc * bs + j) (idx mod cc * bs + k).
              apply Hother; in_block.
        -- intros j k s' Hj Hk _.
           logical k (cc * bs + j).
           apply Hother; in_block.
      * intros j k s' Hj Hk Hne _.
        logical (rc * bs + j) k.
        apply Hother; in_block.
      * intros s' _.
        logical (d + rc * bs) j0.
        apply Hat.
    + (* the main part *)
      assert (Hq0 : q0 < rc) by (apply block_of_lt with (bs := bs) (r := r0); lia).
      assert (Hp0 : p0 < cc) by (apply block_of_lt with (bs := bs) (r := c0); lia).
      rewrite for_loop2_miss with (Inv := fun _ : S => True); auto.
      * rewrite for_loop2_miss with (Inv := fun _ : S => True); auto.
        -- apply for_loop_hit
             with (Inv := fun _ : S => True) (k := q0 * cc + p0); auto;
             [split; [lia | apply block_cell_lt; assumption] | |].
           ++ intros idx s' Hidx Hne _.
              destruct (@block_index_in_range rc cc idx) as (Hcc & Hrow & Hcol); [lia |].
              pose proof (Nat.div_mod_eq idx cc) as Eidx.
              assert (Hblock : ~ (idx / cc = q0 /\ idx mod cc = p0))
                by (intros [Ea Eb]; rewrite Ea, Eb in Eidx; lia).
              destruct (is_row_major A) eqn:Erm.
              ** apply for_loop2_miss with (Inv := fun _ : S => True); auto.
                 intros j k s'' Hj Hk _.
                 logical (idx / cc * bs + k) (idx mod cc * bs + j).
                 apply Hother; [in_block | in_block |].
                 intros [Ha Hb]. apply Hblock.
                 rewrite Ei0 in Ha. rewrite Ej0 in Hb.
                 split.
                 --- apply block_index_unique with (bs := bs) (r := k) (r' := r0); lia.
                 --- apply block_index_unique with (bs := bs) (r := j) (r' := c0); lia.
              ** apply for_loop2_miss with (Inv := fun _ : S => True); auto.
                 intros j k s'' Hj Hk _.
                 logical (idx / cc * bs + j) (idx mod cc * bs + k).
                 apply Hother; [in_block | in_block |].
                 intros [Ha Hb]. apply Hblock.
                 rewrite Ei0 in Ha. rewrite Ej0 in Hb.
                 split.
                 --- apply block_index_unique with (bs := bs) (r := j) (r' := r0); lia.
                 --- apply block_index_unique with (bs := bs) (r := k) (r' := c0); lia.
           ++ intros s' _.
              assert (Ediv : (q0 * cc + p0) / cc = q0)
                by (symmetry; apply Nat.div_unique with (r := p0); lia).
              assert (Emod : (q0 * cc + p0) mod cc = p0)
                by (symmetry; apply Nat.mod_unique with (q := q0); lia).
              rewrite Ediv, Emod.
              destruct (is_row_major A) eqn:Erm.
              ** apply for_loop2_hit
                   with (Inv := fun _ : S => True) (a0 := c0) (b0 := r0); auto.
                 --- intros j k s'' Hj Hk Hne _.
                     logical (q0 * bs + k) (p0 * bs + j).
                     apply Hother; in_block.
                 --- intros s'' _.
                     logical i0 j0.
                     apply Hat.
              ** apply for_loop2_hit
                   with (Inv := fun _ : S => True) (a0 := r0) (b0 := c0); auto.
                 --- intros j k s'' Hj Hk Hne _.
                     logical (q0 * bs + j) (p0 * bs + k).
                     apply Hother; in_block.
                 --- intros s'' _.
                     logical i0 j0.
                     apply Hat.
        -- intros j k s' Hj Hk _.
           logical k (cc * bs + j).
           apply Hother; in_block.
      * intros j k s' Hj Hk _.
        logical (rc * bs + j) k.
        apply Hother; in_block.
Qed.

End TransLoops.

Section TransProperties.

Context {T : Type}.

Lemma trans_dst_offset (A B : matrix_base T) (j i : nat) :
  is_row_major B = is_row_major A ->
  trans_dst A B j i = offset_of B j i.
Proof. intros E. unfold trans_dst, offset_of. rewrite E. reflexivity. Qed.

(** [trans] copies the element [(i, j)] of [A] into the cell [(j, i)] of
    the destination. *)
Lemma trans_element (A B : matrix_base T) (i j : nat) :
  is_row_major B = is_row_major A ->
  size1 B = size2 A -> size2 B = size1 A -> wf_matrix B ->
  i < size1 A -> j < size2 A ->
  trans A B (offset_of B j i) = element A i j.
Proof.
  intros Hlay H1 H2 Hwf Hi Hj. unfold trans.
  rewrite <- trans_dst_offset with (A := A) by exact Hlay.
  apply trans_loops_hit
    with (get := fun d : buffer T => d (trans_dst A B j i))
         (g := fun _ => element A i j) (i0 := i) (j0 := j); try assumption.
  - intros i' j' d Hi' Hj' Hne. apply upd_other.
    rewrite !trans_dst_offset by exact Hlay.
    intros Heq. apply Hne.
    apply offset_of_inj in Heq; try assumption; try lia.
  - intros d. apply upd_same.
Qed.

(** [trans] writes each of these cells once. *)
Lemma trans_writes_once (A B : matrix_base T) (i j : nat) :
  is_row_major B = is_row_major A ->
  size1 B = size2 A -> size2 B = size1 A -> wf_matrix B ->
  i < size1 A -> j < size2 A ->
  count_occ Nat.eq_dec (trans_writes A B) (offset_of B j i) = 1.
Proof.
  intros Hlay H1 H2 Hwf Hi Hj. unfold trans_writes.
  rewrite count_occ_rev.
  rewrite <- trans_dst_offset with (A := A) by exact Hlay.
  apply trans_loops_hit
    with (get := fun log => count_occ Nat.eq_dec log (trans_dst A B j i))
         (g := Datatypes.S) (s := @nil nat) (i0 := i) (j0 := j); try assumption.
  - intros i' j' log Hi' Hj' Hne. apply count_occ_cons_neq.
    rewrite !trans_dst_offset by exact Hlay.
    intros Heq. apply Hne.
    apply offset_of_inj in Heq; try assumption; try lia.
  - intros log. apply count_occ_cons_eq. reflexivity.
Qed.

(** [trans] writes no other cell. *)
Lemma trans_frame (A B : matrix_base T) (a : nat) :
  is_row_major B = is_row_major A ->
  (forall i j, i < size1 A -> j < size2 A -> a <> offset_of B j i) ->
  trans A B a = elements B a /\
  count_occ Nat.eq_dec (trans_writes A B) a = 0.
Proof.
  intros Hlay Ha. split.
  - unfold trans.
    apply trans_loops_miss with (get := fun d : buffer T => d a).
    intros i j d Hi Hj. apply upd_other.
    rewrite trans_dst_offset by exact Hlay. apply Ha; assumption.
  - unfold trans_writes. rewrite count_occ_rev.
    apply trans_loops_miss
      with (get := fun log => count_occ Nat.eq_dec log a) (s := @nil nat).
    intros i j log Hi Hj. apply count_occ_cons_neq.
    rewrite trans_dst_offset by exact Hlay.
    intros Heq. apply (Ha i j Hi Hj). symmetry. exact Heq.
Qed.

(** C6.  [trans] writes [temp_trans(j, i) = A(i, j)] for every logical
    index pair, in row-major and in column-major storage and for any
    offsets and strides of the destination; the 64 x 64 sub-blocks and the
    two remainder loops assign every one of these cells exactly once and no
    other cell; transposing the result again gives back the elements of
    [A]. *)
Theorem trans_spec (A B A' : matrix_base T) :
  is_row_major B = is_row_major A ->
  size1 B = size2 A -> size2 B = size1 A -> wf_matrix B ->
  is_row_major A' = is_row_major A ->
  size1 A' = size1 A -> size2 A' = size2 A -> wf_matrix A' ->
  let B' := with_elements B (trans A B) in
  let A'' := with_elements A' (trans B' A') in
  (forall i j, i < size1 A -> j < size2 A ->
     element B' j i = element A i j /\
     count_occ Nat.eq_dec (trans_writes A B) (offset_of B j i) = 1) /\
  (forall a, (forall i j, i < size1 A -> j < size2 A -> a <> offset_of B j i) ->
     trans A B a = elements B a /\
     count_occ Nat.eq_dec (trans_writes A B) a = 0) /\
  (forall i j, i < size1 A -> j < size2 A -> element A'' i j = element A i j).
Proof.
  intros HlayB HB1 HB2 HwfB HlayA' HA1 HA2 HwfA' B' A''.
  assert (Hfirst : forall i j, i < size1 A -> j < size2 A ->
            element B' j i = element A i j).
  { intros i j Hi Hj.
    change (trans A B (offset_of B j i) = element A i j).
    apply trans_element; assumption. }
  split; [| split].
  - intros i j Hi Hj. split; [apply Hfirst; assumption |].
    apply trans_writes_once; assumption.
  - intros a Ha. apply trans_frame; assumption.
  - intros i j Hi Hj. rewrite <- Hfirst by assumption.
    change (trans B' A' (offset_of A' i j) = element B' j i).
    apply trans_element; simpl; try assumption; try congruence; try lia.
Qed.

End TransProperties.

(** ** Blocking arithmetic *)

(** [b] is one of the [(size + (bc - 1)) / bc] blocks exactly when its
    origin lies inside the dimension. *)
Lemma block_count_spec (size bc b : nat) :
  0 < bc -> (b < (size + (bc - 1)) / bc <-> b * bc < size).
Proof.
  intros Hbc. split; intros Hb.
  - pose proof (Nat.Div0.mul_div_le (size + (bc - 1)) bc) as Hq.
    assert (bc * Datatypes.S b <= bc * ((size + (bc - 1)) / bc))
      by (apply Nat.mul_le_mono_l; lia).
    lia.
  - apply Nat.div_le_lower_bound; lia.
Qed.

Lemma div_mul_exact (bc br : nat) :
  0 < br -> bc mod br = 0 -> bc / br * br = bc.
Proof.
  intros Hbr Hmod. pose proof (Nat.div_mod_eq bc br). lia.
Qed.

Section Tiling.

(** One dimension of the product: [size] elements in blocks of [bc], each
    block in slivers of [br]. *)
Variables (size bc br : nat).
Hypotheses (Hbr : 0 < br) (Hbc : 0 < bc) (Hdiv : bc mod br = 0).

Local Abbreviation num_blocks := ((size + (bc - 1)) / bc).
Local Abbreviation max_sliver b :=
  (if size - b * bc <? bc then (size mod bc + (br - 1)) / br else bc / br).

(** The residue block is the last one. *)
Lemma residue_block (b : nat) :
  b * bc < size -> size - b * bc < bc -> size mod bc = size - b * bc.
Proof.
  intros Hb Hres. symmetry.
  apply Nat.mod_unique with (q := b); lia.
Qed.

(** Every sliver the loops reach starts inside the dimension and ends
    inside its block. *)
Lemma sliver_in_range (b sl : nat) :
  b < num_blocks -> sl < max_sliver b ->
  b * bc + sl * br < size /\ sl * br + br <= bc.
Proof.
  intros Hb Hsl.
  apply block_count_spec in Hb; [| exact Hbc].
  destruct (Nat.ltb_spec (size - b * bc) bc) as [Hres | Hfull].
  - rewrite (@residue_block b Hb Hres) in Hsl.
    apply block_count_spec in Hsl; [| exact Hbr].
    assert (Hle : sl * br + br <= (size - b * bc) + (br - 1) ) by lia.
    pose proof (@div_mul_exact bc br Hbr Hdiv) as Hex.
    assert (Hsl' : Datatypes.S sl <= bc / br).
    { apply Nat.div_le_lower_bound; [lia |].
      destruct (Nat.le_gt_cases (br * Datatypes.S sl) bc) as [Hok | Hbad]; [exact Hok |].
      exfalso.
      (* bc is a multiple of br strictly between sl*br and (sl+1)*br *)
      assert (Hq : bc / br <= sl).
      { apply Nat.lt_succ_r. apply block_of_lt with (bs := br) (r := 0). lia. }
      assert (bc / br * br <= sl * br) by (apply Nat.mul_le_mono_r; exact Hq).
      lia. }
    assert (Datatypes.S sl * br <= bc / br * br) by (apply Nat.mul_le_mono_r; exact Hsl').
    lia.
  - pose proof (@div_mul_exact bc br Hbr Hdiv) as Hex.
    assert (Datatypes.S sl * br <= bc / br * br) by (apply Nat.mul_le_mono_r; lia).
    lia.
Qed.

(** Every element of the dimension lies in a sliver the loops reach. *)
Lemma sliver_cover (x : nat) :
  x < size ->
  x / bc < num_blocks /\
  x mod bc / br < max_sliver (x / bc) /\
  x mod bc mod br < min br (size - (x / bc * bc + x mod bc / br * br)) /\
  x = x / bc * bc + x mod bc / br * br + x mod bc mod br.
Proof.
  intros Hx.
  pose proof (Nat.div_mod_eq x bc) as E1.
  pose proof (Nat.mod_upper_bound x bc ltac:(lia)) as R1.
  pose proof (Nat.div_mod_eq (x mod bc) br) as E2.
  pose proof (Nat.mod_upper_bound (x mod bc) br ltac:(lia)) as R2.
  assert (Hb : x / bc * bc < size) by lia.
  split; [apply block_count_spec; assumption |].
  split; [| lia].
  destruct (Nat.ltb_spec (size - x / bc * bc) bc) as [Hres | Hfull].
  - rewrite (@residue_block (x / bc) Hb Hres).
    apply block_count_spec; [exact Hbr |]. lia.
  - apply Nat.Div0.div_lt_upper_bound.
    pose proof (@div_mul_exact bc br Hbr Hdiv). lia.
Qed.

(** The sliver and the position inside it are determined by the element. *)
Lemma sliver_unique (b sl r b' sl' r' : nat) :
  r < br -> r' < br -> sl * br + br <= bc -> sl' * br + br <= bc ->
  b * bc + sl * br + r = b' * bc + sl' * br + r' ->
  b = b' /\ sl = sl' /\ r = r'.
Proof.
  intros Hr Hr' Hsl Hsl' Heq.
  destruct (@block_index_unique bc b (sl * br + r) b' (sl' * br + r')) as [Eb Es];
    try lia.
  destruct (@block_index_unique br sl r sl' r') as [Esl Er]; try lia.
Qed.

End Tiling.

(** ** More on loops *)

Lemma for_loop_ext {S} (lo hi : nat) (body body' : nat -> S -> S) (s : S) :
  (forall i s', lo <= i < hi -> body i s' = body' i s') ->
  for_loop lo hi body s = for_loop lo hi body' s.
Proof.
  intros Hext.
  apply for_loop_iter
    with (get := fun s' : S => s') (Inv := fun _ : S => True) (g := body'); auto.
Qed.

(** A loop over [lo <= p < lo + n] is a loop over [n] shifted indices. *)
Lemma for_loop_shift {S} (lo n : nat) (body : nat -> S -> S) (s : S) :
  for_loop lo (lo + n) body s = for_loop 0 n (fun p => body (lo + p)) s.
Proof.
  induction n as [| n IH].
  - rewrite !for_loop_empty by lia. reflexivity.
  - replace (lo + Datatypes.S n) with (Datatypes.S (lo + n)) by lia.
    rewrite !for_loop_step by lia. rewrite IH. reflexivity.
Qed.

(** A loop can be cut in two. *)
Lemma for_loop_split {S} (lo mid hi : nat) (body : nat -> S -> S) (s : S) :
  lo <= mid <= hi ->
  for_loop lo hi body s = for_loop mid hi body (for_loop lo mid body s).
Proof.
  intros Hmid. unfold for_loop.
  replace (hi - lo) with ((mid - lo) + (hi - mid)) by lia.
  rewrite seq_app, fold_left_app.
  replace (lo + (mid - lo)) with mid by lia. reflexivity.
Qed.

Section Kernel.

Context {T : Type} `{Numeric T}.

(** The zero fill of the register tile. *)
Lemma zero_fill_spec (c : buffer T) (n x : nat) :
  x < n -> for_loop 0 n (fun i c => upd c i num_zero) c x = num_zero.
Proof.
  intros Hx.
  apply for_loop_hit
    with (get := fun c : buffer T => c x) (Inv := fun _ : buffer T => True)
         (k := x) (g := fun _ : T => num_zero); auto; try lia.
  - intros i c' _ Hne _. apply upd_other. lia.
  - intros c' _. apply upd_same.
Qed.

(** The micro-kernel accumulates the products of the two slivers into each
    cell of the register tile. *)
Lemma standard_micro_kernel_spec (PA PB C : buffer T) (k_count mr nr i j : nat) :
  i < mr -> j < nr ->
  standard_micro_kernel PA PB C k_count mr nr (i * nr + j)
  = for_loop 0 k_count
      (fun p acc => acc +! PA (p * mr + i) *! PB (p * nr + j))
      (C (i * nr + j)).
Proof.
  intros Hi Hj. unfold standard_micro_kernel.
  apply for_loop_iter
    with (get := fun c : buffer T => c (i * nr + j)) (Inv := fun _ : buffer T => True)
         (g := fun p acc => acc +! PA (p * mr + i) *! PB (p * nr + j)); auto.
  intros p c _ _.
  apply for_loop2_hit
    with (get := fun c : buffer T => c (i * nr + j)) (Inv := fun _ : buffer T => True)
         (act := fun i j (C : buffer T) =>
                   upd C (i * nr + j) (C (i * nr + j) +! PA (p * mr + i) *! PB (p * nr + j)))
         (g := fun acc => acc +! PA (p * mr + i) *! PB (p * nr + j))
         (a0 := i) (b0 := j); auto.
  - intros i' j' c' Hi' Hj' Hne _. apply upd_other.
    intros Heq. apply Hne.
    symmetry in Heq.
    apply block_index_unique in Heq; assumption.
  - intros c' _. apply upd_same.
Qed.

(** *** Packing *)

Lemma packed_position_inj (w kc i p i' p' : nat) :
  0 < w -> p < kc -> p' < kc ->
  i / w * (w * kc) + p * w + i mod w = i' / w * (w * kc) + p' * w + i' mod w ->
  i = i' /\ p = p'.
Proof.
  intros Hw Hp Hp' Heq.
  pose proof (Nat.mod_upper_bound i w ltac:(lia)) as Ri.
  pose proof (Nat.mod_upper_bound i' w ltac:(lia)) as Ri'.
  pose proof (@block_cell_lt w p (i mod w) kc Hp Ri) as Bi.
  pose proof (@block_cell_lt w p' (i' mod w) kc Hp' Ri') as Bi'.
  destruct (@block_index_unique (w * kc) (i / w) (p * w + i mod w)
              (i' / w) (p' * w + i' mod w)) as [Eq Er]; try lia.
  destruct (@block_index_unique w p (i mod w) p' (i' mod w)) as [Ep Em]; try lia.
  split; [| exact Ep].
  rewrite (Nat.div_mod_eq i w), (Nat.div_mod_eq i' w), Eq, Em. reflexivity.
Qed.

(** Cell [r] of micro-sliver [p] of sliver [sl]. *)
Lemma packed_position_sliver (w kc sl r p : nat) :
  r < w ->
  (sl * w + r) / w * (w * kc) + p * w + (sl * w + r) mod w
  = sl * w * kc + (p * w + r).
Proof.
  intros Hr.
  assert (Ediv : (sl * w + r) / w = sl)
    by (symmetry; apply Nat.div_unique with (r := r); lia).
  assert (Emod : (sl * w + r) mod w = r)
    by (symmetry; apply Nat.mod_unique with (q := sl); lia).
  rewrite Ediv, Emod. lia.
Qed.

Lemma pack_matrix_A_spec (A : matrix_base T) (A_trans : bool) (bs : block_sizes)
    (offset_i offset_j : nat) (dest : buffer T) :
  0 < mr bs ->
  packed_A A A_trans bs offset_i offset_j
    (pack_matrix_A dest offset_i offset_j (mc bs) (kc bs) (mr bs)
       (elements A) (size1 A) (size2 A) (internal_size1 A) (internal_size2 A)
       (stride1 A) (stride2 A) (start1 A) (start2 A) A_trans (is_row_major A)).
Proof.
  intros Hmr i p Hi Hp. unfold pack_matrix_A. cbv zeta.
  rewrite store_loops_hit
    with (off := fun i p => i / mr bs * (mr bs * kc bs) + p * mr bs + i mod mr bs)
         (a0 := i) (b0 := p).
  - unfold op_element, element, offset_of, wrapper_index, wrapper_of.
    destruct A_trans; reflexivity.
  - exact Hi.
  - exact Hp.
  - intros i' p' _ Hp' Heq.
    apply packed_position_inj in Heq; try lia. 
Qed.

Lemma pack_matrix_B_spec (B : matrix_base T) (B_trans : bool) (bs : block_sizes)
    (offset_i offset_j : nat) (dest : buffer T) :
  0 < nr bs ->
  packed_B B B_trans bs offset_i offset_j
    (pack_matrix_B dest offset_i offset_j (kc bs) (nc bs) (nr bs)
       (elements B) (size1 B) (size2 B) (internal_size1 B) (internal_size2 B)
       (stride1 B) (stride2 B) (start1 B) (start2 B) B_trans (is_row_major B)).
Proof.
  intros Hnr p j Hp Hj. unfold pack_matrix_B. cbv zeta.
  rewrite store_loops_hit
    with (off := fun j p => j / nr bs * (nr bs * kc bs) + p * nr bs + j mod nr bs)
         (a0 := j) (b0 := p).
  - unfold op_element, element, offset_of, wrapper_index, wrapper_of.
    destruct B_trans; reflexivity.
  - exact Hj.
  - exact Hp.
  - intros j' p' _ Hp' Heq.
    apply packed_position_inj in Heq; try lia.
Qed.

End Kernel.

(** ** The blocked product *)

Section ProdProperties.

Context {T : Type} `{Numeric T}.
Variables (A : matrix_base T) (A_trans : bool) (B : matrix_base T) (B_trans : bool).
Variables (L : layout) (C : matrix_array_wrapper).
Variables (alpha beta : T) (bs : block_sizes).

Local Abbreviation m := (m_size A A_trans).
Local Abbreviation k := (k_size A A_trans).
Local Abbreviation n := (n_size B B_trans).
Local Abbreviation cell := (wrapper_index L C).
Local Abbreviation write_result' :=
  (write_result A A_trans B B_trans L C alpha beta bs).
Local Abbreviation prod_tile' :=
  (prod_tile A A_trans B B_trans L C alpha beta bs).

(** *** The write-back of one register tile *)

(** It writes logical cells of [C] only. *)
Lemma write_result_frame (A2B1_idx row0 col0 : nat) (buffer_C data : buffer T) (a : nat) :
  (forall i j, i < m -> j < n -> a <> cell i j) ->
  write_result' A2B1_idx row0 col0 buffer_C data a = data a.
Proof.
  intros Ha. unfold write_result.
  destruct (beta_nonzero beta).
  - apply for_loop2_miss
      with (get := fun d : buffer T => d a) (Inv := fun _ : buffer T => True); auto.
    intros i j d Hi Hj _. apply upd_other. apply Ha; lia.
  - apply for_loop2_miss
      with (get := fun d : buffer T => d a) (Inv := fun _ : buffer T => True); auto.
    intros i j d Hi Hj _.
    destruct (A2B1_idx =? 0); apply upd_other; apply Ha; lia.
Qed.

(** A cell of the tile receives [write_back] of its old content. *)
Lemma write_result_hit (A2B1_idx row0 col0 i j : nat) (buffer_C data : buffer T) :
  wf_wrapper L C m n ->
  i < min (mr bs) (m - row0) -> j < min (nr bs) (n - col0) ->
  write_result' A2B1_idx row0 col0 buffer_C data (cell (row0 + i) (col0 + j))
  = write_back alpha beta A2B1_idx (buffer_C (i * nr bs + j))
               (data (cell (row0 + i) (col0 + j))).
Proof.
  intros Hwf Hi Hj. unfold write_result, write_back.
  assert (Hinj : forall i' j', i' < min (mr bs) (m - row0) -> j' < min (nr bs) (n - col0) ->
            ~ (i' = i /\ j' = j) -> cell (row0 + i) (col0 + j) <> cell (row0 + i') (col0 + j')).
  { intros i' j' Hi' Hj' Hne Heq. apply Hne.
    apply wrapper_index_inj with (n1 := m) (n2 := n) in Heq; try assumption; lia. }
  destruct (beta_nonzero beta).
  - apply for_loop2_hit
      with (get := fun d : buffer T => d (cell (row0 + i) (col0 + j)))
           (Inv := fun _ : buffer T => True)
           (act := fun i j (d : buffer T) =>
                     upd d (cell (row0 + i) (col0 + j))
                         (beta *! d (cell (row0 + i) (col0 + j))
                          +! alpha *! buffer_C (i * nr bs + j)))
           (g := fun c => beta *! c +! alpha *! buffer_C (i * nr bs + j))
           (a0 := i) (b0 := j); auto.
    + intros i' j' d Hi' Hj' Hne _. apply upd_other. apply Hinj; assumption.
    + intros d _. apply upd_same.
  - apply for_loop2_hit
      with (get := fun d : buffer T => d (cell (row0 + i) (col0 + j)))
           (Inv := fun _ : buffer T => True)
           (act := fun i j (d : buffer T) =>
                     if A2B1_idx =? 0
                     then upd d (cell (row0 + i) (col0 + j))
                              (alpha *! buffer_C (i * nr bs + j))
                     else upd d (cell (row0 + i) (col0 + j))
                              (d (cell (row0 + i) (col0 + j))
                               +! alpha *! buffer_C (i * nr bs + j)))
           (g := fun c => if A2B1_idx =? 0 then alpha *! buffer_C (i * nr bs + j)
                          else c +! alpha *! buffer_C (i * nr bs + j))
           (a0 := i) (b0 := j); auto.
    + intros i' j' d Hi' Hj' Hne _.
      destruct (A2B1_idx =? 0); apply upd_other; apply Hinj; assumption.
    + intros d _. destruct (A2B1_idx =? 0); apply upd_same.
Qed.

(** A logical cell outside the tile keeps its content. *)
Lemma write_result_miss (A2B1_idx row0 col0 i0 j0 : nat) (buffer_C data : buffer T) :
  wf_wrapper L C m n ->
  i0 < m -> j0 < n ->
  ~ (exists i j, i < mr bs /\ j < nr bs /\ i0 = row0 + i /\ j0 = col0 + j) ->
  write_result' A2B1_idx row0 col0 buffer_C data (cell i0 j0) = data (cell i0 j0).
Proof.
  intros Hwf Hi0 Hj0 Hout. unfold write_result.
  assert (Hne : forall i j, i < min (mr bs) (m - row0) -> j < min (nr bs) (n - col0) ->
            cell i0 j0 <> cell (row0 + i) (col0 + j)).
  { intros i j Hi Hj Heq. apply Hout. exists i, j.
    apply wrapper_index_inj with (n1 := m) (n2 := n) in Heq; try assumption; lia. }
  destruct (beta_nonzero beta).
  - apply for_loop2_miss
      with (get := fun d : buffer T => d (cell i0 j0)) (Inv := fun _ : buffer T => True); auto.
    intros i j d Hi Hj _. apply upd_other. apply Hne; assumption.
  - apply for_loop2_miss
      with (get := fun d : buffer T => d (cell i0 j0)) (Inv := fun _ : buffer T => True); auto.
    intros i j d Hi Hj _.
    destruct (A2B1_idx =? 0); apply upd_other; apply Hne; assumption.
Qed.

(** *** One register tile *)

Hypothesis Hbs : valid_block_sizes bs.
Hypothesis HkB : (if B_trans then size2 B else size1 B) = k.

(** The subtractions of [detail::prod] do not underflow: every tile the
    loops reach has its origin inside [C], and every k-block starts inside
    the reduction dimension. *)
Lemma tile_row_origin_in_range (C1A1_idx sliver_A_idx : nat) :
  C1A1_idx < num_blocks_C1 A A_trans bs ->
  sliver_A_idx < max_sliver_A_idx A A_trans bs C1A1_idx ->
  C1A1_idx * mc bs + sliver_A_idx * mr bs < m /\
  sliver_A_idx * mr bs + mr bs <= mc bs.
Proof.
  destruct Hbs as (Hmr & Hnr & Hmc & Hkc & Hnc & Hdm & Hdn).
  apply sliver_in_range; assumption.
Qed.

Lemma tile_col_origin_in_range (C2B2_idx sliver_B_idx : nat) :
  C2B2_idx < num_blocks_C2 B B_trans bs ->
  sliver_B_idx < max_sliver_B_idx B B_trans bs C2B2_idx ->
  C2B2_idx * nc bs + sliver_B_idx * nr bs < n /\
  sliver_B_idx * nr bs + nr bs <= nc bs.
Proof.
  destruct Hbs as (Hmr & Hnr & Hmc & Hkc & Hnc & Hdm & Hdn).
  apply sliver_in_range; assumption.
Qed.

Lemma k_block_origin_in_range (A2B1_idx : nat) :
  A2B1_idx < num_blocks_A2 A A_trans bs <-> A2B1_idx * kc bs < k.
Proof.
  destruct Hbs as (Hmr & Hnr & Hmc & Hkc & Hnc & Hdm & Hdn).
  apply block_count_spec; assumption.
Qed.

(** The register tile holds the partial dot products of its k-block. *)
Lemma register_tile_spec (C2B2_idx A2B1_idx C1A1_idx sliver_B_idx sliver_A_idx i j : nat)
    (s : gemm_buffers) :
  packed_A A A_trans bs (C1A1_idx * mc bs) (A2B1_idx * kc bs) (buffer_A s) ->
  packed_B B B_trans bs (A2B1_idx * kc bs) (C2B2_idx * nc bs) (buffer_B s) ->
  sliver_A_idx * mr bs + mr bs <= mc bs ->
  sliver_B_idx * nr bs + nr bs <= nc bs ->
  i < min (mr bs) (m - (C1A1_idx * mc bs + sliver_A_idx * mr bs)) ->
  j < min (nr bs) (n - (C2B2_idx * nc bs + sliver_B_idx * nr bs)) ->
  buffer_C (prod_tile' C2B2_idx A2B1_idx C1A1_idx sliver_B_idx sliver_A_idx s)
           (i * nr bs + j)
  = dot A A_trans B B_trans
        (C1A1_idx * mc bs + sliver_A_idx * mr bs + i)
        (C2B2_idx * nc bs + sliver_B_idx * nr bs + j)
        (A2B1_idx * kc bs)
        (A2B1_idx * kc bs + min (kc bs) (k - A2B1_idx * kc bs)).
Proof.
  intros HpA HpB HsA HsB Hi Hj.
  unfold prod_tile. cbn [buffer_C].
  rewrite standard_micro_kernel_spec by lia.
  rewrite zero_fill_spec by (apply block_cell_lt; lia).
  unfold dot. rewrite for_loop_shift.
  apply for_loop_ext. intros p acc Hp.
  assert (EA : shift (buffer_A s) (sliver_A_idx * mr bs * kc bs) (p * mr bs + i)
               = op_element A A_trans
                   (C1A1_idx * mc bs + sliver_A_idx * mr bs + i) (A2B1_idx * kc bs + p)).
  { unfold shift. rewrite <- packed_position_sliver by lia.
    rewrite HpA by lia. f_equal. lia. }
  assert (EB : shift (buffer_B s) (sliver_B_idx * nr bs * kc bs) (p * nr bs + j)
               = op_element B B_trans
                   (A2B1_idx * kc bs + p) (C2B2_idx * nc bs + sliver_B_idx * nr bs + j)).
  { unfold shift. rewrite <- packed_position_sliver by lia.
    rewrite HpB by (rewrite ?HkB; lia). f_equal. lia. }
  rewrite EA, EB. reflexivity.
Qed.

Lemma prod_tile_hit (C2B2_idx A2B1_idx C1A1_idx sliver_B_idx sliver_A_idx i j : nat)
    (s : gemm_buffers) :
  wf_wrapper L C m n ->
  packed_A A A_trans bs (C1A1_idx * mc bs) (A2B1_idx * kc bs) (buffer_A s) ->
  packed_B B B_trans bs (A2B1_idx * kc bs) (C2B2_idx * nc bs) (buffer_B s) ->
  sliver_A_idx * mr bs + mr bs <= mc bs ->
  sliver_B_idx * nr bs + nr bs <= nc bs ->
  i < min (mr bs) (m - (C1A1_idx * mc bs + sliver_A_idx * mr bs)) ->
  j < min (nr bs) (n - (C2B2_idx * nc bs + sliver_B_idx * nr bs)) ->
  data_C (prod_tile' C2B2_idx A2B1_idx C1A1_idx sliver_B_idx sliver_A_idx s)
         (cell (C1A1_idx * mc bs + sliver_A_idx * mr bs + i)
               (C2B2_idx * nc bs + sliver_B_idx * nr bs + j))
  = write_back alpha beta A2B1_idx
      (dot A A_trans B B_trans
           (C1A1_idx * mc bs + sliver_A_idx * mr bs + i)
           (C2B2_idx * nc bs + sliver_B_idx * nr bs + j)
           (A2B1_idx * kc bs)
           (A2B1_idx * kc bs + min (kc bs) (k - A2B1_idx * kc bs)))
      (data_C s (cell (C1A1_idx * mc bs + sliver_A_idx * mr bs + i)
                      (C2B2_idx * nc bs + sliver_B_idx * nr bs + j))).
Proof.
  intros Hwf HpA HpB HsA HsB Hi Hj.
  rewrite <- register_tile_spec with (s := s) by assumption.
  unfold prod_tile. cbn [data_C buffer_C].
  apply write_result_hit; assumption.
Qed.

(** *** The loop nest, seen from one logical cell of [C]

    The cell is given by its block, its sliver and its position in the
    sliver, in both dimensions. *)

Hypothesis Hwf : wf_wrapper L C m n.
Variables (ib0 sA0 ri jb0 sB0 rj : nat).
Hypothesis Hib0 : ib0 < num_blocks_C1 A A_trans bs.
Hypothesis HsA0 : sA0 < max_sliver_A_idx A A_trans bs ib0.
Hypothesis Hri : ri < min (mr bs) (m - (ib0 * mc bs + sA0 * mr bs)).
Hypothesis Hjb0 : jb0 < num_blocks_C2 B B_trans bs.
Hypothesis HsB0 : sB0 < max_sliver_B_idx B B_trans bs jb0.
Hypothesis Hrj : rj < min (nr bs) (n - (jb0 * nc bs + sB0 * nr bs)).

Local Abbreviation i0 := (ib0 * mc bs + sA0 * mr bs + ri).
Local Abbreviation j0 := (jb0 * nc bs + sB0 * nr bs + rj).
Local Abbreviation at_cell s := (data_C s (cell i0 j0)).
Local Abbreviation partial A2B1_idx :=
  (dot A A_trans B B_trans i0 j0 (A2B1_idx * kc bs)
       (A2B1_idx * kc bs + min (kc bs) (k - A2B1_idx * kc bs))).

Lemma prod_tile_miss (C2B2_idx A2B1_idx C1A1_idx sliver_B_idx sliver_A_idx : nat)
    (s : gemm_buffers) :
  C1A1_idx < num_blocks_C1 A A_trans bs ->
  sliver_A_idx < max_sliver_A_idx A A_trans bs C1A1_idx ->
  C2B2_idx < num_blocks_C2 B B_trans bs ->
  sliver_B_idx < max_sliver_B_idx B B_trans bs C2B2_idx ->
  ~ (C1A1_idx = ib0 /\ sliver_A_idx = sA0 /\ C2B2_idx = jb0 /\ sliver_B_idx = sB0) ->
  at_cell (prod_tile' C2B2_idx A2B1_idx C1A1_idx sliver_B_idx sliver_A_idx s)
  = at_cell s.
Proof.
  intros Hib HsA Hjb HsB Hne.
  destruct Hbs as (Hmr & Hnr & Hmc & Hkc & Hnc & Hdm & Hdn).
  destruct (tile_row_origin_in_range Hib HsA) as [_ HA].
  destruct (tile_row_origin_in_range Hib0 HsA0) as [_ HA0].
  destruct (tile_col_origin_in_range Hjb HsB) as [_ HB].
  destruct (tile_col_origin_in_range Hjb0 HsB0) as [_ HB0].
  unfold prod_tile. cbn [data_C].
  apply write_result_miss; try assumption; try lia.
  intros (i & j & Hi & Hj & Ei & Ej). apply Hne.
  apply sliver_unique in Ei; try assumption; try lia.
  apply sliver_unique in Ej; try assumption; try lia.
Qed.

Lemma prod_block_C1A1_buffer_B (C2B2_idx A2B1_idx C1A1_idx : nat) (s : gemm_buffers) :
  buffer_B (prod_block_C1A1 A A_trans B B_trans L C alpha beta bs
              C2B2_idx A2B1_idx C1A1_idx s) = buffer_B s.
Proof.
  unfold prod_block_C1A1. cbv zeta.
  apply for_loop2_inv with (Inv := fun s' : gemm_buffers => buffer_B s' = buffer_B s).
  - reflexivity.
  - intros sB sA s' _ _ Hs'. exact Hs'.
Qed.

Lemma prod_block_C1A1_miss (C2B2_idx A2B1_idx C1A1_idx : nat) (s : gemm_buffers) :
  C1A1_idx < num_blocks_C1 A A_trans bs ->
  C2B2_idx < num_blocks_C2 B B_trans bs ->
  ~ (C1A1_idx = ib0 /\ C2B2_idx = jb0) ->
  at_cell (prod_block_C1A1 A A_trans B B_trans L C alpha beta bs
             C2B2_idx A2B1_idx C1A1_idx s) = at_cell s.
Proof.
  intros Hib Hjb Hne. unfold prod_block_C1A1. cbv zeta.
  rewrite for_loop2_miss
    with (get := fun s' : gemm_buffers => at_cell s') (Inv := fun _ : gemm_buffers => True); auto.
  intros sB sA s' HsB HsA _.
  apply prod_tile_miss; try assumption. tauto.
Qed.

Lemma prod_block_C1A1_hit (A2B1_idx : nat) (s : gemm_buffers) :
  packed_B B B_trans bs (A2B1_idx * kc bs) (jb0 * nc bs) (buffer_B s) ->
  at_cell (prod_block_C1A1 A A_trans B B_trans L C alpha beta bs jb0 A2B1_idx ib0 s)
  = write_back alpha beta A2B1_idx (partial A2B1_idx) (at_cell s).
Proof.
  intros HpB.
  destruct Hbs as (Hmr & Hnr & Hmc & Hkc & Hnc & Hdm & Hdn).
  destruct (tile_row_origin_in_range Hib0 HsA0) as [_ HA0].
  destruct (tile_col_origin_in_range Hjb0 HsB0) as [_ HB0].
  unfold prod_block_C1A1. cbv zeta.
  match goal with
  | |- context [for_loop 0 _ _ ?s1] => set (packed := s1)
  end.
  change (at_cell s) with (at_cell packed).
  apply for_loop2_hit
    with (get := fun s' : gemm_buffers => at_cell s')
         (Inv := fun s' : gemm_buffers =>
                   buffer_A s' = buffer_A packed /\ buffer_B s' = buffer_B packed)
         (act := fun sB sA => prod_tile' jb0 A2B1_idx ib0 sB sA)
         (a0 := sB0) (b0 := sA0); try assumption.
  - split; reflexivity.
  - intros sB sA s' _ _ Hs'. exact Hs'.
  - intros sB sA s' HsB HsA Hne _.
    apply prod_tile_miss; try assumption. tauto.
  - intros s' [EA EB].
    apply prod_tile_hit; try assumption.
    + rewrite EA. apply pack_matrix_A_spec. exact Hmr.
    + rewrite EB. exact HpB.
Qed.

Lemma prod_block_A2B1_miss (C2B2_idx A2B1_idx : nat) (s : gemm_buffers) :
  C2B2_idx < num_blocks_C2 B B_trans bs ->
  C2B2_idx <> jb0 ->
  at_cell (prod_block_A2B1 A A_trans B B_trans L C alpha beta bs C2B2_idx A2B1_idx s)
  = at_cell s.
Proof.
  intros Hjb Hne. unfold prod_block_A2B1. cbv zeta.
  rewrite for_loop_miss
    with (get := fun s' : gemm_buffers => at_cell s') (Inv := fun _ : gemm_buffers => True); auto.
  intros ib s' Hib _.
  apply prod_block_C1A1_miss; try assumption; try lia.
Qed.

Lemma prod_block_A2B1_hit (A2B1_idx : nat) (s : gemm_buffers) :
  at_cell (prod_block_A2B1 A A_trans B B_trans L C alpha beta bs jb0 A2B1_idx s)
  = write_back alpha beta A2B1_idx (partial A2B1_idx) (at_cell s).
Proof.
  destruct Hbs as (Hmr & Hnr & Hmc & Hkc & Hnc & Hdm & Hdn).
  unfold prod_block_A2B1. cbv zeta.
  match goal with
  | |- context [for_loop 0 _ _ ?s1] => set (packed := s1)
  end.
  change (at_cell s) with (at_cell packed).
  apply for_loop_hit
    with (get := fun s' : gemm_buffers => at_cell s')
         (Inv := fun s' : gemm_buffers => buffer_B s' = buffer_B packed)
         (k := ib0); try assumption.
  - lia.
  - reflexivity.
  - intros ib s' _ Hs'. rewrite prod_block_C1A1_buffer_B. exact Hs'.
  - intros ib s' Hib Hne _.
    apply prod_block_C1A1_miss; try assumption; try lia.
  - intros s' EB.
    apply prod_block_C1A1_hit.
    rewrite EB. apply pack_matrix_B_spec. exact Hnr.
Qed.

Variable uninitialized : nat -> nat -> buffer T.

Lemma prod_block_C2B2_miss (C2B2_idx : nat) (data : buffer T) :
  C2B2_idx < num_blocks_C2 B B_trans bs ->
  C2B2_idx <> jb0 ->
  prod_block_C2B2 uninitialized A A_trans B B_trans L C alpha beta bs C2B2_idx data
    (cell i0 j0) = data (cell i0 j0).
Proof.
  intros Hjb Hne. unfold prod_block_C2B2.
  rewrite for_loop_miss
    with (get := fun s' : gemm_buffers => at_cell s') (Inv := fun _ : gemm_buffers => True); auto.
  intros kb s' _ _. apply prod_block_A2B1_miss; assumption.
Qed.

Lemma prod_block_C2B2_hit (data : buffer T) :
  prod_block_C2B2 uninitialized A A_trans B B_trans L C alpha beta bs jb0 data
    (cell i0 j0)
  = for_loop 0 (num_blocks_A2 A A_trans bs)
      (fun A2B1_idx c => write_back alpha beta A2B1_idx (partial A2B1_idx) c)
      (data (cell i0 j0)).
Proof.
  unfold prod_block_C2B2.
  rewrite for_loop_iter
    with (get := fun s' : gemm_buffers => at_cell s') (Inv := fun _ : gemm_buffers => True)
         (g := fun A2B1_idx c => write_back alpha beta A2B1_idx (partial A2B1_idx) c);
    auto.
  intros kb s' _ _. apply prod_block_A2B1_hit.
Qed.

(** All blocks together: the cell goes through the write-back of every
    k-block, in order, and through nothing else. *)
Lemma prod_blocks_cell (data : buffer T) :
  for_loop 0 (num_blocks_C2 B B_trans bs)
    (prod_block_C2B2 uninitialized A A_trans B B_trans L C alpha beta bs) data
    (cell i0 j0)
  = for_loop 0 (num_blocks_A2 A A_trans bs)
      (fun A2B1_idx c => write_back alpha beta A2B1_idx (partial A2B1_idx) c)
      (data (cell i0 j0)).
Proof.
  apply for_loop_hit
    with (get := fun d : buffer T => d (cell i0 j0)) (Inv := fun _ : buffer T => True)
         (k := jb0)
         (g := for_loop 0 (num_blocks_A2 A A_trans bs)
                 (fun A2B1_idx c => write_back alpha beta A2B1_idx (partial A2B1_idx) c));
    auto.
  - lia.
  - intros jb d Hjb Hne _. apply prod_block_C2B2_miss; [lia | exact Hne].
  - intros d _. apply prod_block_C2B2_hit.
Qed.

End ProdProperties.

(** ** The product as a whole *)

Section ProdTheorems.

Context {T : Type} `{Numeric T}.
Variable get_block_sizes : nat -> nat -> nat -> block_sizes.
Variable uninitialized : nat -> nat -> buffer T.
Variables (A : matrix_base T) (A_trans : bool) (B : matrix_base T) (B_trans : bool).
Variables (L : layout) (C : matrix_array_wrapper) (C_size1 C_size2 : nat).
Variables (alpha beta : T).

Local Abbreviation m := (m_size A A_trans).
Local Abbreviation k := (k_size A A_trans).
Local Abbreviation n := (n_size B B_trans).
Local Abbreviation bs := (get_block_sizes m k n).
Local Abbreviation cell := (wrapper_index L C).
Local Abbreviation prod' :=
  (prod get_block_sizes uninitialized A A_trans B B_trans L C C_size1 C_size2 alpha beta).

(** Every logical cell of [C] goes through the write-back of every
    k-block, in order. *)
Lemma prod_cell (data : buffer T) (i j : nat) :
  valid_block_sizes bs ->
  wf_wrapper L C m n ->
  consistent_dimensions A A_trans B B_trans C_size1 C_size2 ->
  1 <= k -> i < m -> j < n ->
  prod' data (cell i j)
  = accumulate_blocks (write_back alpha beta) A A_trans B B_trans bs i j
      (data (cell i j)).
Proof.
  intros Hbs Hwf (HC1 & HC2 & HkB) Hk Hi Hj.
  unfold prod.
  assert (Hdim : zero_dimension A A_trans C_size1 C_size2 = false).
  { unfold zero_dimension. rewrite HC1, HC2.
    rewrite !orb_false_iff. unfold k_size in Hk.
    repeat split; apply Nat.eqb_neq; lia. }
  rewrite Hdim. cbv zeta.
  pose proof Hbs as (Hmr & Hnr & Hmc & Hkc & Hnc & Hdm & Hdn).
  destruct (sliver_cover Hmr Hmc Hdm Hi) as (Hib & HsA & Hri & Ei).
  destruct (sliver_cover Hnr Hnc Hdn Hj) as (Hjb & HsB & Hrj & Ej).
  unfold accumulate_blocks.
  rewrite Ei, Ej.
  apply prod_blocks_cell; assumption.
Qed.

(** No cell outside the logical range of [C] is written. *)
Lemma prod_frame (data : buffer T) (a : nat) :
  (forall i j, i < m -> j < n -> a <> cell i j) ->
  prod' data a = data a.
Proof.
  intros Ha. unfold prod.
  destruct (zero_dimension A A_trans C_size1 C_size2); [reflexivity |].
  cbv zeta.
  apply for_loop_miss
    with (get := fun d : buffer T => d a) (Inv := fun _ : buffer T => True); auto.
  intros jb d _ _. unfold prod_block_C2B2.
  apply for_loop_miss
    with (get := fun s : gemm_buffers => data_C s a)
         (Inv := fun _ : gemm_buffers => True); auto.
  intros kb s _ _. unfold prod_block_A2B1. cbv zeta.
  rewrite for_loop_miss
    with (get := fun s : gemm_buffers => data_C s a)
         (Inv := fun _ : gemm_buffers => True); auto.
  intros ib s' _ _. unfold prod_block_C1A1. cbv zeta.
  rewrite for_loop2_miss
    with (get := fun s : gemm_buffers => data_C s a)
         (Inv := fun _ : gemm_buffers => True); auto.
  intros sB sA s'' _ _ _. unfold prod_tile. cbn [data_C].
  apply write_result_frame. exact Ha.
Qed.

(** *** Summation over the k-blocks, up to reassociation *)

Section Reassociation.

Hypothesis laws : reassociation_laws T.

Lemma sum_from (t : nat -> T) (lo hi : nat) (x : T) :
  lo <= hi ->
  for_loop lo hi (fun p acc => acc +! t p) x
  = x +! for_loop lo hi (fun p acc => acc +! t p) num_zero.
Proof.
  destruct laws as [Hassoc Hzero _].
  induction hi as [| hi IH]; intros Hle.
  - rewrite !for_loop_empty by lia. symmetry. apply Hzero.
  - destruct (Nat.eq_dec lo (Datatypes.S hi)) as [-> | Hne].
    + rewrite !for_loop_empty by lia. symmetry. apply Hzero.
    + rewrite !for_loop_step by lia. rewrite IH by lia.
      symmetry. apply Hassoc.
Qed.

Lemma dot_split (i j lo mid hi : nat) :
  lo <= mid <= hi ->
  dot A A_trans B B_trans i j lo hi
  = dot A A_trans B B_trans i j lo mid +! dot A A_trans B B_trans i j mid hi.
Proof.
  intros Hmid. unfold dot.
  rewrite for_loop_split with (mid := mid) by exact Hmid.
  apply sum_from with (t := fun p => op_element A A_trans i p *! op_element B B_trans p j).
  lia.
Qed.

(** After its first [b] k-blocks the zero-optimised path has stored
    [alpha] times the dot product over the first [b] blocks. *)
Lemma zero_path_blocks (kc1 i j b : nat) (c : T) :
  1 <= b -> (b - 1) * kc1 < k ->
  for_loop 0 b
    (fun A2B1_idx c =>
       zero_path alpha A2B1_idx
         (dot A A_trans B B_trans i j (A2B1_idx * kc1)
              (A2B1_idx * kc1 + min kc1 (k - A2B1_idx * kc1)))
         c)
    c
  = alpha *! dot A A_trans B B_trans i j 0 (min k (b * kc1)).
Proof.
  destruct laws as [_ _ Hdistr].
  induction b as [| b IH]; intros Hb Hlast; [lia |].
  rewrite for_loop_step by lia.
  destruct b as [| b'].
  - rewrite for_loop_empty by lia. unfold zero_path. simpl Nat.eqb. cbv iota.
    f_equal. f_equal; lia.
  - rewrite IH by (simpl in *; lia).
    unfold zero_path. simpl Nat.eqb. cbv iota.
    rewrite <- Hdistr. f_equal.
    replace (min k (Datatypes.S b' * kc1)) with (Datatypes.S b' * kc1)
      by (simpl in *; lia).
    rewrite <- dot_split by lia.
    f_equal. simpl in *. lia.
Qed.

End Reassociation.

(** The write-back of a [beta] that compares above or below zero is the
    general accumulate path, at every k-block: the old content of the cell
    is multiplied by [beta] once per k-block. *)
Lemma prod_general_path (data : buffer T) (i j : nat) :
  beta_nonzero beta = true ->
  valid_block_sizes bs ->
  wf_wrapper L C m n ->
  consistent_dimensions A A_trans B B_trans C_size1 C_size2 ->
  1 <= k -> i < m -> j < n ->
  prod' data (cell i j)
  = accumulate_blocks (general_path alpha beta) A A_trans B B_trans bs i j
      (data (cell i j)).
Proof.
  intros Hbeta Hbs Hwf Hdims Hk Hi Hj.
  rewrite prod_cell by assumption.
  unfold accumulate_blocks. apply for_loop_ext.
  intros kb c _. unfold write_back, general_path. rewrite Hbeta. reflexivity.
Qed.

(** When the reduction dimension fits in one k-block, the general path
    gives [beta * C + alpha * (op(A) * op(B))]; beyond one k-block it does
    not ([accumulate_blocks] applies [beta] again for every k-block). *)
Lemma prod_single_k_block (data : buffer T) (i j : nat) :
  beta_nonzero beta = true ->
  valid_block_sizes bs ->
  wf_wrapper L C m n ->
  consistent_dimensions A A_trans B B_trans C_size1 C_size2 ->
  1 <= k -> k <= kc bs -> i < m -> j < n ->
  prod' data (cell i j)
  = beta *! data (cell i j) +! alpha *! dot A A_trans B B_trans i j 0 k.
Proof.
  intros Hbeta Hbs Hwf Hdims Hk Hkc Hi Hj.
  rewrite prod_general_path by assumption.
  unfold accumulate_blocks.
  pose proof (k_block_origin_in_range A A_trans Hbs) as Hblocks.
  assert (Hnb : num_blocks_A2 A A_trans bs = 1).
  { pose proof (Hblocks 0) as H0. pose proof (Hblocks 1) as H1. simpl in H0. lia. }
  rewrite Hnb, for_loop_step, for_loop_empty by lia.
  unfold general_path. f_equal. f_equal. f_equal; lia.
Qed.

(** The zero-optimised path does not read the old content of the cell. *)
Lemma accumulate_zero_path_overwrites (i j : nat) (c c' : T) :
  1 <= num_blocks_A2 A A_trans bs ->
  accumulate_blocks (zero_path alpha) A A_trans B B_trans bs i j c
  = accumulate_blocks (zero_path alpha) A A_trans B B_trans bs i j c'.
Proof.
  intros Hnb. unfold accumulate_blocks.
  rewrite for_loop_split with (mid := 1) (s := c) by lia.
  rewrite for_loop_split with (mid := 1) (s := c') by lia.
  (* the first k-block assigns: [zero_path alpha 0 t c] is [alpha * t] *)
  f_equal; reflexivity.
Qed.

(** The write-back of a [beta] that compares neither above nor below zero
    is the zero-optimised overwrite path. *)
Lemma prod_zero_path (data : buffer T) (i j : nat) :
  beta_nonzero beta = false ->
  valid_block_sizes bs ->
  wf_wrapper L C m n ->
  consistent_dimensions A A_trans B B_trans C_size1 C_size2 ->
  1 <= k -> i < m -> j < n ->
  prod' data (cell i j)
  = accumulate_blocks (zero_path alpha) A A_trans B B_trans bs i j (data (cell i j)).
Proof.
  intros Hbeta Hbs Hwf Hdims Hk Hi Hj.
  rewrite prod_cell by assumption.
  unfold accumulate_blocks. apply for_loop_ext.
  intros kb c _. unfold write_back, zero_path. rewrite Hbeta. reflexivity.
Qed.

(** C3.  With [beta] exactly zero and [m, k, n >= 1], every logical element
    of [C] is assigned [alpha * tile] by k-block 0 and has [alpha * tile]
    added by the later k-blocks; it does not depend on what [C] held before
    the call (nor on what the freshly allocated buffers hold), and it is
    [alpha * (op(A) * op(B))(i, j)] up to reassociation of the sum over
    [k]. *)
Theorem prod_beta_zero (data : buffer T) (i j : nat) :
  (num_zero <! num_zero) = false ->
  beta = num_zero ->
  valid_block_sizes bs ->
  wf_wrapper L C m n ->
  consistent_dimensions A A_trans B B_trans C_size1 C_size2 ->
  1 <= k -> i < m -> j < n ->
  prod' data (cell i j)
  = accumulate_blocks (zero_path alpha) A A_trans B B_trans bs i j (data (cell i j)) /\
  (forall data' : buffer T, prod' data' (cell i j) = prod' data (cell i j)) /\
  (reassociation_laws T ->
   prod' data (cell i j) = alpha *! dot A A_trans B B_trans i j 0 k).
Proof.
  intros Hirr Hbeta Hbs Hwf Hdims Hk Hi Hj.
  assert (Hpath : beta_nonzero beta = false).
  { unfold beta_nonzero. rewrite Hbeta, Hirr. reflexivity. }
  pose proof (k_block_origin_in_range A A_trans Hbs) as Hblocks.
  assert (Hnb : 1 <= num_blocks_A2 A A_trans bs)
    by (apply Hblocks; simpl; lia).
  split; [apply prod_zero_path; assumption |]. split.
  - intros data'. rewrite !prod_zero_path by assumption.
    apply accumulate_zero_path_overwrites. exact Hnb.
  - intros laws. rewrite prod_zero_path by assumption.
    unfold accumulate_blocks.
    rewrite zero_path_blocks; try assumption.
    + f_equal. f_equal.
      pose proof (Hblocks (num_blocks_A2 A A_trans bs)) as Hend. lia.
    + apply Hblocks. lia.
Qed.

(** C4.  Whatever the dimensions, divisible by the block sizes or not,
    [detail::prod] clips every remainder tile.  The clipped counts stay
    inside the product: every k-block the loops reach starts inside [k]
    and its count [min(kc, k - k_block * kc)] ends inside [k]; every tile
    the loops reach has its origin inside [C] and its write-back bounds
    [min(mr, m - row_origin)] and [min(nr, n - col_origin)] end inside [C].
    The body of the innermost loop uses them: on the packed blocks, the
    micro-kernel leaves in the valid part of the register tile the sum over
    the [min(kc, k - k_block * kc)] valid positions of the k-block and over
    no other position; the write-back puts these sums through the
    write-back policy into the cells
    [row_origin <= i < row_origin + min(mr, m - row_origin)],
    [col_origin <= j < col_origin + min(nr, n - col_origin)] of [C] and
    leaves every other cell as it was.  For the call as a whole, every
    logical element of [C] goes through the write-back of every k-block in
    turn, each with the sum over the clipped range of that k-block, and no
    cell of the storage of [C] other than the logical ones is written. *)
Theorem prod_clipping (data : buffer T) :
  valid_block_sizes bs ->
  (forall A2B1_idx, A2B1_idx < num_blocks_A2 A A_trans bs ->
     A2B1_idx * kc bs < k /\
     1 <= min (kc bs) (k - A2B1_idx * kc bs) /\
     A2B1_idx * kc bs + min (kc bs) (k - A2B1_idx * kc bs) <= k) /\
  (forall C1A1_idx sliver_A_idx,
     C1A1_idx < num_blocks_C1 A A_trans bs ->
     sliver_A_idx < max_sliver_A_idx A A_trans bs C1A1_idx ->
     let row0 := C1A1_idx * mc bs + sliver_A_idx * mr bs in
     row0 < m /\ 1 <= min (mr bs) (m - row0) /\ row0 + min (mr bs) (m - row0) <= m) /\
  (forall C2B2_idx sliver_B_idx,
     C2B2_idx < num_blocks_C2 B B_trans bs ->
     sliver_B_idx < max_sliver_B_idx B B_trans bs C2B2_idx ->
     let col0 := C2B2_idx * nc bs + sliver_B_idx * nr bs in
     col0 < n /\ 1 <= min (nr bs) (n - col0) /\ col0 + min (nr bs) (n - col0) <= n) /\
  (forall a, (forall i j, i < m -> j < n -> a <> cell i j) -> prod' data a = data a) /\
  (forall C2B2_idx A2B1_idx C1A1_idx sliver_B_idx sliver_A_idx (s : gemm_buffers),
     wf_wrapper L C m n ->
     (if B_trans then size2 B else size1 B) = k ->
     C1A1_idx < num_blocks_C1 A A_trans bs ->
     sliver_A_idx < max_sliver_A_idx A A_trans bs C1A1_idx ->
     C2B2_idx < num_blocks_C2 B B_trans bs ->
     sliver_B_idx < max_sliver_B_idx B B_trans bs C2B2_idx ->
     packed_A A A_trans bs (C1A1_idx * mc bs) (A2B1_idx * kc bs) (buffer_A s) ->
     packed_B B B_trans bs (A2B1_idx * kc bs) (C2B2_idx * nc bs) (buffer_B s) ->
     let row0 := C1A1_idx * mc bs + sliver_A_idx * mr bs in
     let col0 := C2B2_idx * nc bs + sliver_B_idx * nr bs in
     let k0 := A2B1_idx * kc bs in
     let s' := prod_tile A A_trans B B_trans L C alpha beta bs
                 C2B2_idx A2B1_idx C1A1_idx sliver_B_idx sliver_A_idx s in
     (forall i j, i < min (mr bs) (m - row0) -> j < min (nr bs) (n - col0) ->
        buffer_C s' (i * nr bs + j)
        = dot A A_trans B B_trans (row0 + i) (col0 + j)
              k0 (k0 + min (kc bs) (k - k0)) /\
        data_C s' (cell (row0 + i) (col0 + j))
        = write_back alpha beta A2B1_idx (buffer_C s' (i * nr bs + j))
            (data_C s (cell (row0 + i) (col0 + j)))) /\
     (forall i0 j0, i0 < m -> j0 < n ->
        ~ (row0 <= i0 < row0 + min (mr bs) (m - row0) /\
           col0 <= j0 < col0 + min (nr bs) (n - col0)) ->
        data_C s' (cell i0 j0) = data_C s (cell i0 j0)) /\
     (forall a, (forall i j, i < m -> j < n -> a <> cell i j) ->
        data_C s' a = data_C s a)) /\
  (wf_wrapper L C m n ->
   consistent_dimensions A A_trans B B_trans C_size1 C_size2 ->
   1 <= k ->
   forall i j, i < m -> j < n ->
     prod' data (cell i j)
     = for_loop 0 (num_blocks_A2 A A_trans bs)
         (fun A2B1_idx c =>
            write_back alpha beta A2B1_idx
              (dot A A_trans B B_trans i j (A2B1_idx * kc bs)
                   (A2B1_idx * kc bs + min (kc bs) (k - A2B1_idx * kc bs)))
              c)
         (data (cell i j))).
Proof.
  intros Hbs.
  pose proof Hbs as (Hmr & Hnr & Hmc & Hkc & Hnc & Hdm & Hdn).
  split; [| split; [| split; [| split; [| split]]]].
  - intros kb Hkb. apply (k_block_origin_in_range A A_trans Hbs) in Hkb. lia.
  - intros ib sA Hib HsA row0.
    destruct (tile_row_origin_in_range A A_trans Hbs Hib HsA) as [Hrow _].
    subst row0. lia.
  - intros jb sB Hjb HsB col0.
    destruct (tile_col_origin_in_range B B_trans Hbs Hjb HsB) as [Hcol _].
    subst col0. lia.
  - intros a Ha. apply prod_frame. exact Ha.
  - intros jb kb ib sB sA s Hwf HkB Hib HsA Hjb HsB HpA HpB row0 col0 k0 s'.
    destruct (tile_row_origin_in_range A A_trans Hbs Hib HsA) as [Hrow HfitA].
    destruct (tile_col_origin_in_range B B_trans Hbs Hjb HsB) as [Hcol HfitB].
    assert (Htile : forall i j,
              i < min (mr bs) (m - row0) -> j < min (nr bs) (n - col0) ->
              buffer_C s' (i * nr bs + j)
              = dot A A_trans B B_trans (row0 + i) (col0 + j)
                    k0 (k0 + min (kc bs) (k - k0))).
    { intros i j Hi Hj. subst s' row0 col0 k0.
      apply register_tile_spec; assumption. }
    split; [| split].
    + intros i j Hi Hj. split; [apply Htile; assumption |].
      subst s'. unfold prod_tile. cbn [data_C buffer_C].
      apply write_result_hit; assumption.
    + intros i0 j0 Hi0 Hj0 Hout.
      subst s'. unfold prod_tile. cbn [data_C].
      apply write_result_miss; try assumption.
      intros (i & j & Hi & Hj & Ei & Ej). apply Hout. subst i0 j0. lia.
    + intros a Ha. subst s'. unfold prod_tile. cbn [data_C].
      apply write_result_frame. exact Ha.
  - intros Hwf Hdims Hk i j Hi Hj.
    rewrite prod_cell by assumption. reflexivity.
Qed.

(** C5.  When one of the three product dimensions is zero, the test at the
    entry of [detail::prod] holds and the storage of [C] is returned as it
    is, whatever [beta]. *)
Theorem prod_zero_dimension (data : buffer T) :
  consistent_dimensions A A_trans B B_trans C_size1 C_size2 ->
  m = 0 \/ n = 0 \/ k = 0 ->
  zero_dimension A A_trans C_size1 C_size2 = true /\
  prod' data = data.
Proof.
  intros (HC1 & HC2 & _) Hzero.
  assert (Hdim : zero_dimension A A_trans C_size1 C_size2 = true).
  { unfold zero_dimension. rewrite HC1, HC2. unfold k_size in Hzero.
    rewrite !orb_true_iff, !Nat.eqb_eq. tauto. }
  split; [exact Hdim |].
  unfold prod. rewrite Hdim. reflexivity.
Qed.

End ProdTheorems.

(** ** NaN as [beta] *)

(** C1, as amended.  When [beta] is NaN both comparisons [beta > 0] and
    [beta < 0] are false, so the write-back of every k-block is the one of
    the zero-optimised path: k-block 0 assigns [C = alpha * tile] and the
    later k-blocks add [alpha * tile]; [beta] is not applied to [C]. *)
Theorem prod_beta_nan (get_block_sizes : nat -> nat -> nat -> block_sizes)
    (uninitialized : nat -> nat -> buffer float)
    (A : matrix_base float) (A_trans : bool) (B : matrix_base float) (B_trans : bool)
    (L : layout) (C : matrix_array_wrapper) (C_size1 C_size2 : nat)
    (alpha : float) (data : buffer float) (i j : nat) :
  let bs := get_block_sizes (m_size A A_trans) (k_size A A_trans) (n_size B B_trans) in
  valid_block_sizes bs ->
  wf_wrapper L C (m_size A A_trans) (n_size B B_trans) ->
  consistent_dimensions A A_trans B B_trans C_size1 C_size2 ->
  1 <= k_size A A_trans -> i < m_size A A_trans -> j < n_size B B_trans ->
  beta_nonzero nan = false /\
  (forall A2B1_idx t c, write_back alpha nan A2B1_idx t c = zero_path alpha A2B1_idx t c) /\
  prod get_block_sizes uninitialized A A_trans B B_trans L C C_size1 C_size2
       alpha nan data (wrapper_index L C i j)
  = accumulate_blocks (zero_path alpha) A A_trans B B_trans bs i j
      (data (wrapper_index L C i j)).
Proof.
  intros bs Hbs Hwf Hdims Hk Hi Hj.
  assert (Hnan : beta_nonzero nan = false) by reflexivity.
  split; [exact Hnan |]. split.
  - intros kb t c. unfold write_back. rewrite Hnan. reflexivity.
  - apply prod_zero_path; assumption.
Qed.

Lemma prod_beta_nan_witness :
  beta_nonzero nan = false /\
  (forall A2B1_idx t c,
     write_back 1%float nan A2B1_idx t c = zero_path 1%float A2B1_idx t c) /\
  prod example_get_block_sizes example_garbage_double
       example_double_A false example_double_B false
       row_major (wrapper_of example_double_C) 1 1 1%float nan
       (elements example_double_C)
       (wrapper_index row_major (wrapper_of example_double_C) 0 0)
  = accumulate_blocks (zero_path 1%float) example_double_A false example_double_B false
      example_block_sizes 0 0
      (elements example_double_C
         (wrapper_index row_major (wrapper_of example_double_C) 0 0)).
Proof.
  apply (@prod_beta_nan example_get_block_sizes example_garbage_double
           example_double_A false example_double_B false
           row_major (wrapper_of example_double_C) 1 1 1%float
           (elements example_double_C) 0 0).
  - unfold valid_block_sizes; simpl; repeat split; lia.
  - unfold wf_wrapper; simpl; repeat split; intros; lia.
  - unfold consistent_dimensions; simpl; repeat split; reflexivity.
  - simpl; lia.
  - simpl; lia.
  - simpl; lia.
Defined.

(** C1 as stated fails: with [beta = NaN], [alpha = 1] and the 1 x 1
    matrices [2], [3] and [5], the comparison [beta > 0 || beta < 0] is
    false, [detail::prod] stores [1 * (2 * 3) = 6], and the general
    accumulate path would have stored [NaN * 5 + 6 = NaN]. *)
Lemma nan_beta_takes_the_zero_path :
  beta_nonzero nan = false /\
  prod_impl example_get_block_sizes example_garbage_double
    example_double_A false example_double_B false example_double_C 1%float nan
    (offset_of example_double_C 0 0) = 6%float /\
  accumulate_blocks (general_path 1%float nan)
    example_double_A false example_double_B false example_block_sizes 0 0
    (element example_double_C 0 0) = nan /\
  prod_impl example_get_block_sizes example_garbage_double
    example_double_A false example_double_B false example_double_C 1%float nan
    (offset_of example_double_C 0 0)
  <> accumulate_blocks (general_path 1%float nan)
       example_double_A false example_double_B false example_block_sizes 0 0
       (element example_double_C 0 0).
Proof.
  split; [reflexivity |]. split; [vm_compute; reflexivity |].
  split; [vm_compute; reflexivity |].
  intros Heq.
  apply (f_equal (fun x => PrimFloat.eqb x x)) in Heq.
  vm_compute in Heq. discriminate Heq.
Qed.

(** ** [beta] is applied once per k-block *)

(** C2.  The engine does not match the triple-loop reference when [beta] is
    not zero and the reduction dimension spans several k-blocks: [beta] is
    applied to [C] once per k-block.  With [alpha = 1], [beta = 2], [k = 3]
    and [kc = 2], the product of the row [1 1 1] and the column [1 1 1] is
    added to [C = 1] as [2 * (2 * 1 + 1 * 2) + 1 * 1 = 9]; the reference
    gives [1 * 3 + 2 * 1 = 5]. *)
Theorem prod_rescales_per_k_block :
  prod_impl example_get_block_sizes example_garbage
    example_row false example_column false example_scalar 1%Z 2%Z
    (offset_of example_scalar 0 0) = 9%Z /\
  gemm_reference example_row false example_column false 1%Z 2%Z
    (element example_scalar 0 0) 0 0 = 5%Z /\
  num_blocks_A2 example_row false example_block_sizes = 2.
Proof. repeat split; vm_compute; reflexivity. Qed.

(** ** The theorems at the example data *)

(** [alpha = 2], [beta = 0]: the cell (1, 2) of [example_C]. *)
Lemma prod_beta_zero_witness :
  prod example_get_block_sizes example_garbage example_A false example_B false
       row_major (wrapper_of example_C) 3 3 2%Z 0%Z (elements example_C)
       (wrapper_index row_major (wrapper_of example_C) 1 2)
  = 2%Z *! dot example_A false example_B false 1 2 0 5.
Proof.
  refine (proj2 (proj2
            (@prod_beta_zero Z _ example_get_block_sizes example_garbage
               example_A false example_B false row_major (wrapper_of example_C)
               3 3 2%Z 0%Z (elements example_C) 1 2 _ _ _ _ _ _ _ _)) _).
  - reflexivity.
  - reflexivity.
  - unfold valid_block_sizes; simpl; repeat split; lia.
  - unfold wf_wrapper; simpl; repeat split; intros; lia.
  - unfold consistent_dimensions; simpl; repeat split; reflexivity.
  - simpl; lia.
  - simpl; lia.
  - simpl; lia.
  - split; intros; simpl; lia.
Defined.

(** The padding cell at offset 3 of [example_C] is not a logical cell; the
    cell (1, 2) goes through the three k-blocks of [k = 5] with [kc = 2],
    the last one with the count 1; and the remainder tile at (2, 2), one
    row and one column out of [mr = nr = 2], takes from the last k-block
    the product at the position 4 alone. *)
Lemma prod_clipping_witness :
  prod example_get_block_sizes example_garbage example_A false example_B false
       row_major (wrapper_of example_C) 3 3 2%Z 3%Z (elements example_C) 3
  = elements example_C 3 /\
  prod example_get_block_sizes example_garbage example_A false example_B false
       row_major (wrapper_of example_C) 3 3 2%Z 3%Z (elements example_C)
       (wrapper_index row_major (wrapper_of example_C) 1 2)
  = for_loop 0 (num_blocks_A2 example_A false example_block_sizes)
      (fun A2B1_idx c =>
         write_back 2%Z 3%Z A2B1_idx
           (dot example_A false example_B false 1 2 (A2B1_idx * 2)
                (A2B1_idx * 2 + min 2 (5 - A2B1_idx * 2)))
           c)
      (elements example_C (wrapper_index row_major (wrapper_of example_C) 1 2)) /\
  buffer_C
    (prod_tile example_A false example_B false row_major (wrapper_of example_C)
       2%Z 3%Z example_block_sizes 0 2 0 1 1 example_tile_buffers)
    (0 * 2 + 0)
  = dot example_A false example_B false 2 2 4 5.
Proof.
  pose proof (@prod_clipping Z _ example_get_block_sizes example_garbage
                example_A false example_B false row_major (wrapper_of example_C)
                3 3 2%Z 3%Z (elements example_C)
                ltac:(unfold valid_block_sizes; simpl; repeat split; lia))
    as (_ & _ & _ & Hframe & Htile & Hcell).
  split; [| split].
  - apply Hframe.
    intros i j Hi Hj. simpl in Hi, Hj. unfold wrapper_index; simpl. lia.
  - apply Hcell.
    + unfold wf_wrapper; simpl; repeat split; intros; lia.
    + unfold consistent_dimensions; simpl; repeat split; reflexivity.
    + simpl; lia.
    + simpl; lia.
    + simpl; lia.
  - refine (proj1 (proj1 (Htile 0 2 0 1 1 example_tile_buffers _ _ _ _ _ _ _ _) 0 0 _ _)).
    + unfold wf_wrapper; simpl; repeat split; intros; lia.
    + reflexivity.
    + vm_compute; lia.
    + vm_compute; lia.
    + vm_compute; lia.
    + vm_compute; lia.
    + intros i p Hi Hp. simpl in Hi, Hp.
      assert (p = 0) by lia. subst p.
      destruct i as [| [| [| i]]]; [vm_compute; reflexivity .. | lia].
    + intros p j Hp Hj. simpl in Hp, Hj.
      assert (p = 0) by lia. subst p.
      destruct j as [| [| [| j]]]; [vm_compute; reflexivity .. | lia].
    + simpl; lia.
    + simpl; lia.
Defined.

(** [m = 0]: a 0 x 5 matrix times [example_B]. *)
Lemma prod_zero_dimension_witness :
  zero_dimension example_empty_A false 0 3 = true /\
  prod example_get_block_sizes example_garbage example_empty_A false example_B false
       row_major (wrapper_of example_empty_C) 0 3 2%Z 3%Z (elements example_empty_C)
  = elements example_empty_C.
Proof.
  refine (@prod_zero_dimension Z _ example_get_block_sizes example_garbage
            example_empty_A false example_B false row_major
            (wrapper_of example_empty_C) 0 3 2%Z 3%Z (elements example_empty_C) _ _).
  - unfold consistent_dimensions; simpl; repeat split; reflexivity.
  - left. reflexivity.
Defined.

(** [example_A] transposed into [example_At] and back into [example_A']. *)
Lemma trans_spec_witness :
  element (with_elements example_A'
             (trans (with_elements example_At (trans example_A example_At)) example_A'))
          1 3
  = element example_A 1 3.
Proof.
  refine (proj2 (proj2 (@trans_spec Z example_A example_At example_A'
                          _ _ _ _ _ _ _ _)) 1 3 _ _).
  - reflexivity.
  - reflexivity.
  - reflexivity.
  - unfold wf_matrix, wf_wrapper; simpl; repeat split; intros; lia.
  - reflexivity.
  - reflexivity.
  - reflexivity.
  - unfold wf_matrix, wf_wrapper; simpl; repeat split; intros; lia.
  - simpl; lia.
  - simpl; lia.
Defined.

(** [example_A' = example_A / (-3)]: both flags set. *)
Lemma am_spec_witness :
  exists data,
    am example_A' example_A 3%Z true true = completed data /\
    data (offset_of example_A' 1 2) = element example_A 1 2 /! num_opp 3%Z.
Proof.
  destruct (@am_spec Z _ example_A' example_A 3%Z true true 1 2) as (data & Hrun & _ & Hboth).
  - unfold wf_matrix, wf_wrapper; simpl; repeat split; intros; lia.
  - reflexivity.
  - simpl; lia.
  - simpl; lia.
  - exists data. split; [exact Hrun | apply Hboth; reflexivity].
Defined.

(** [example_C]: 3 x 3 elements in a 4 x 4 storage. *)
Lemma matrix_assign_spec_witness :
  matrix_assign example_C 9%Z false (offset_of example_C 1 3)
  = elements example_C (offset_of example_C 1 3) /\
  matrix_assign example_C 9%Z true (offset_of example_C 1 3) = 9%Z.
Proof.
  assert (Hspec := @matrix_assign_spec Z example_C 9%Z
            ltac:(unfold wf_wrapper; simpl; repeat split; intros; lia)
            ltac:(simpl; lia) ltac:(simpl; lia)).
  destruct Hspec as (_ & _ & Hpad & Hclear).
  split.
  - apply Hpad; simpl; lia.
  - apply Hclear; simpl; lia.
Defined.

(** Some values, computed. *)
Example am_both_flags :
  dump (storage (am example_A' example_A 3%Z true true)) 6
  = [0; 0; -1; -1; -1; -2]%Z.
Proof. vm_compute. reflexivity. Qed.

Example copy_vec_row_of_3x5 :
  dump (copy_vec example_A (fun _ => 0%Z) 1 0 false) 5 = [6; 7; 8; 0; 0]%Z.
Proof. vm_compute. reflexivity. Qed.

Example prod_beta_zero_overwrites :
  dump (prod_impl example_get_block_sizes example_garbage
          example_A false example_B false example_C 1%Z 0%Z) 16
  = [24; 16; 19; -1;  59; 36; 49; -1;  94; 56; 79; -1;  -1; -1; -1; -1]%Z.
Proof. vm_compute. reflexivity. Qed.

Example trans_of_3x5 :
  dump (trans example_A example_At) 20
  = [1; 6; 11; 0;  2; 7; 12; 0;  3; 8; 13; 0;  4; 9; 14; 0;  5; 10; 15; 0]%Z.
Proof. vm_compute. reflexivity. Qed.

(* ================================================================= *)
(** * Further properties *)

(** ** Loop nests that update one cell per iteration *)

Section Update.

Context {T : Type}.
Variables (off : nat -> nat -> nat) (f : nat -> nat -> T -> T) (n m : nat).

Local Abbreviation update_loops :=
  (for_loop 0 n (fun a =>
     for_loop 0 m (fun b (d : buffer T) => upd d (off a b) (f a b (d (off a b)))))).

Lemma update_loops_frame (d : buffer T) (x : nat) :
  (forall a b, a < n -> b < m -> x <> off a b) ->
  update_loops d x = d x.
Proof.
  intros Hx.
  apply for_loop2_miss
    with (get := fun d : buffer T => d x) (Inv := fun _ : buffer T => True)
         (act := fun a b d => upd d (off a b) (f a b (d (off a b)))); auto.
  intros a b s' Ha Hb _. apply upd_other. apply Hx; assumption.
Qed.

Lemma update_loops_hit (d : buffer T) (a0 b0 : nat) :
  a0 < n -> b0 < m ->
  (forall a b, a < n -> b < m -> off a b = off a0 b0 -> a = a0 /\ b = b0) ->
  update_loops d (off a0 b0) = f a0 b0 (d (off a0 b0)).
Proof.
  intros Ha0 Hb0 Hinj.
  apply for_loop2_hit
    with (get := fun d : buffer T => d (off a0 b0)) (Inv := fun _ : buffer T => True)
         (act := fun a b d => upd d (off a b) (f a b (d (off a b))))
         (g := f a0 b0) (a0 := a0) (b0 := b0); auto.
  - intros a b s' Ha Hb Hne _. apply upd_other.
    intros Heq. apply Hne. apply Hinj; auto.
  - intros s' _. apply upd_same.
Qed.

End Update.

(** The loop nest of an element-wise operation on the matrix [M]: the
    logical cell [(i, j)] goes through [f i j], every cell that is not a
    logical one is left as it was. *)
Section ElementwiseLoops.

Context {T : Type}.
Variables (M : matrix_base T) (f : nat -> nat -> T -> T).

Lemma elementwise_loops_hit (i j : nat) :
  wf_matrix M -> i < size1 M -> j < size2 M ->
  elementwise_loops M f (offset_of M i j) = f i j (element M i j).
Proof.
  intros Hwf Hi Hj. unfold elementwise_loops, element.
  destruct (is_row_major M) eqn:E.
  - rewrite offset_of_row_major by exact E.
    apply update_loops_hit
      with (off := fun row col => wrapper_index row_major (wrapper_of M) row col)
           (f := f); try assumption.
    intros a b Ha Hb Heq.
    rewrite <- !offset_of_row_major in Heq by exact E.
    apply offset_of_inj with (M := M); assumption.
  - rewrite offset_of_column_major by exact E.
    apply update_loops_hit
      with (off := fun col row => wrapper_index column_major (wrapper_of M) row col)
           (f := fun col row => f row col) (a0 := j) (b0 := i); try assumption.
    intros a b Ha Hb Heq.
    rewrite <- !offset_of_column_major in Heq by exact E.
    apply offset_of_inj with (M := M) in Heq; try assumption.
    destruct Heq; split; assumption.
Qed.

Lemma elementwise_loops_frame (a : nat) :
  padding_cell M a -> elementwise_loops M f a = elements M a.
Proof.
  intros Ha. unfold elementwise_loops.
  destruct (is_row_major M) eqn:E.
  - apply update_loops_frame
      with (off := fun row col => wrapper_index row_major (wrapper_of M) row col)
           (f := f).
    intros r c Hr Hc. rewrite <- offset_of_row_major by exact E. apply Ha; assumption.
  - apply update_loops_frame
      with (off := fun col row => wrapper_index column_major (wrapper_of M) row col)
           (f := fun col row => f row col).
    intros c r Hc Hr. rewrite <- offset_of_column_major by exact E. apply Ha; assumption.
Qed.

End ElementwiseLoops.

(** ** The other element-wise operations *)

Section ElementwiseExtras.

Context {T : Type} `{Numeric T}.

Lemma elementwise_loops_result (mat1 : matrix_base T) (f : nat -> nat -> T -> T) :
  wf_matrix mat1 ->
  elementwise_result mat1 (completed (elementwise_loops mat1 f))
    (fun i j => f i j (element mat1 i j)).
Proof.
  intros Hwf. eexists. split; [reflexivity |]. split.
  - intros i j Hi Hj. apply elementwise_loops_hit; assumption.
  - intros a Ha. apply elementwise_loops_frame. exact Ha.
Qed.

(** X1.  [convert] stores [static_cast<DestNumericT>(mat2(i, j))] in every
    logical element of [mat1] and writes no other cell of its storage. *)
Theorem convert_spec {SrcT : Type} (cast : SrcT -> T)
    (mat1 : matrix_base T) (mat2 : matrix_base SrcT) :
  wf_matrix mat1 ->
  is_row_major mat1 = is_row_major mat2 ->
  elementwise_result mat1 (convert cast mat1 mat2)
    (fun i j => cast (element mat2 i j)).
Proof.
  intros Hwf E.
  replace (convert cast mat1 mat2)
    with (completed (elementwise_loops mat1 (fun i j _ => cast (element mat2 i j)))).
  - apply elementwise_loops_result with (f := fun i j (_ : T) => cast (element mat2 i j)).
    exact Hwf.
  - unfold convert, elementwise_loops, element, offset_of.
    rewrite <- E. destruct (is_row_major mat1); reflexivity.
Qed.

(** X2.  [ambm] stores the sum of [mat2(i, j)] scaled by [alpha'] and
    [mat3(i, j)] scaled by [beta'] in every logical element of [mat1]; a
    scalar divides where its reciprocal flag is set and multiplies
    otherwise, and is negated first where its sign flag is set.  No other
    cell is written. *)
Theorem ambm_spec (mat1 mat2 : matrix_base T) (alpha : T)
    (reciprocal_alpha flip_sign_alpha : bool)
    (mat3 : matrix_base T) (beta : T) (reciprocal_beta flip_sign_beta : bool) :
  wf_matrix mat1 ->
  is_row_major mat1 = is_row_major mat2 ->
  is_row_major mat1 = is_row_major mat3 ->
  let alpha' := if flip_sign_alpha then num_opp alpha else alpha in
  let beta' := if flip_sign_beta then num_opp beta else beta in
  elementwise_result mat1
    (ambm mat1 mat2 alpha reciprocal_alpha flip_sign_alpha
          mat3 beta reciprocal_beta flip_sign_beta)
    (fun i j =>
       (if reciprocal_alpha then element mat2 i j /! alpha' else element mat2 i j *! alpha')
       +! (if reciprocal_beta then element mat3 i j /! beta' else element mat3 i j *! beta')).
Proof.
  intros Hwf E2 E3 alpha' beta'.
  set (value := fun i j : nat =>
       (if reciprocal_alpha then element mat2 i j /! alpha' else element mat2 i j *! alpha')
       +! (if reciprocal_beta then element mat3 i j /! beta' else element mat3 i j *! beta')).
  replace (ambm mat1 mat2 alpha reciprocal_alpha flip_sign_alpha
                mat3 beta reciprocal_beta flip_sign_beta)
    with (completed (elementwise_loops mat1 (fun i j _ => value i j))).
  - apply elementwise_loops_result with (f := fun i j (_ : T) => value i j). exact Hwf.
  - subst value alpha' beta'.
    unfold ambm, ambm_value, elementwise_loops, element, offset_of.
    rewrite <- E2, <- E3.
    destruct (is_row_major mat1), reciprocal_alpha, reciprocal_beta; reflexivity.
Qed.

(** X3.  [ambm_m] adds the same value to what the logical element of
    [mat1] held on entry, and writes no other cell. *)
Theorem ambm_m_spec (mat1 mat2 : matrix_base T) (alpha : T)
    (reciprocal_alpha flip_sign_alpha : bool)
    (mat3 : matrix_base T) (beta : T) (reciprocal_beta flip_sign_beta : bool) :
  wf_matrix mat1 ->
  is_row_major mat1 = is_row_major mat2 ->
  is_row_major mat1 = is_row_major mat3 ->
  let alpha' := if flip_sign_alpha then num_opp alpha else alpha in
  let beta' := if flip_sign_beta then num_opp beta else beta in
  elementwise_result mat1
    (ambm_m mat1 mat2 alpha reciprocal_alpha flip_sign_alpha
            mat3 beta reciprocal_beta flip_sign_beta)
    (fun i j =>
       element mat1 i j
       +! ((if reciprocal_alpha then element mat2 i j /! alpha' else element mat2 i j *! alpha')
           +! (if reciprocal_beta then element mat3 i j /! beta' else element mat3 i j *! beta'))).
Proof.
  intros Hwf E2 E3 alpha' beta'.
  set (value := fun i j : nat =>
       (if reciprocal_alpha then element mat2 i j /! alpha' else element mat2 i j *! alpha')
       +! (if reciprocal_beta then element mat3 i j /! beta' else element mat3 i j *! beta')).
  replace (ambm_m mat1 mat2 alpha reciprocal_alpha flip_sign_alpha
                  mat3 beta reciprocal_beta flip_sign_beta)
    with (completed (elementwise_loops mat1 (fun i j old => old +! value i j))).
  - apply elementwise_loops_result with (f := fun i j old => old +! value i j). exact Hwf.
  - subst value alpha' beta'.
    unfold ambm_m, ambm_value, elementwise_loops, element, offset_of.
    rewrite <- E2, <- E3.
    destruct (is_row_major mat1), reciprocal_alpha, reciprocal_beta; reflexivity.
Qed.

(** X4.  The binary [element_op] stores [op(lhs(i, j), rhs(i, j))] in every
    logical element of [A], and the unary one [op(lhs(i, j))]: the second
    operand of the proxy is read by the assertion only.  Neither writes
    another cell. *)
Theorem element_op_spec (op2 : T -> T -> T) (op1 : T -> T)
    (A lhs rhs : matrix_base T) :
  wf_matrix A ->
  is_row_major A = is_row_major lhs ->
  is_row_major A = is_row_major rhs ->
  elementwise_result A (element_op_binary op2 A lhs rhs)
    (fun i j => op2 (element lhs i j) (element rhs i j)) /\
  elementwise_result A (element_op_unary op1 A lhs rhs)
    (fun i j => op1 (element lhs i j)).
Proof.
  intros Hwf E2 E3. split.
  - replace (element_op_binary op2 A lhs rhs)
      with (completed (elementwise_loops A
              (fun i j _ => op2 (element lhs i j) (element rhs i j)))).
    + apply elementwise_loops_result
        with (f := fun i j (_ : T) => op2 (element lhs i j) (element rhs i j)).
      exact Hwf.
    + unfold element_op_binary, elementwise_loops, element, offset_of.
      rewrite <- E2, <- E3. destruct (is_row_major A); reflexivity.
  - replace (element_op_unary op1 A lhs rhs)
      with (completed (elementwise_loops A (fun i j _ => op1 (element lhs i j)))).
    + apply elementwise_loops_result with (f := fun i j (_ : T) => op1 (element lhs i j)).
      exact Hwf.
    + unfold element_op_unary, elementwise_loops, element, offset_of.
      rewrite <- E2, <- E3. destruct (is_row_major A); reflexivity.
Qed.

(** X5.  [am] writes the logical elements of [mat1] only, whatever its
    flags; and scaling by [alpha] and then by the reciprocal of the same
    [alpha] gives [mat2] back wherever dividing undoes multiplying. *)
Theorem am_frame_and_round_trip (mat1 mat2 : matrix_base T) (alpha : T)
    (reciprocal_alpha flip_sign_alpha : bool) :
  wf_matrix mat1 ->
  is_row_major mat1 = is_row_major mat2 ->
  (forall a, padding_cell mat1 a ->
     storage (am mat1 mat2 alpha reciprocal_alpha flip_sign_alpha) a = elements mat1 a) /\
  (forall i j, i < size1 mat1 -> j < size2 mat1 ->
     let scaled := with_elements mat1 (storage (am mat1 mat2 alpha false flip_sign_alpha)) in
     let alpha' := if flip_sign_alpha then num_opp alpha else alpha in
     (element mat2 i j *! alpha') /! alpha' = element mat2 i j ->
     storage (am mat1 scaled alpha true flip_sign_alpha) (offset_of mat1 i j)
     = element mat2 i j).
Proof.
  intros Hwf E.
  assert (Hloops : forall (M2 : matrix_base T) r,
            is_row_major mat1 = is_row_major M2 ->
            am mat1 M2 alpha r flip_sign_alpha
            = completed (elementwise_loops mat1 (fun i j _ =>
                let alpha' := if flip_sign_alpha then num_opp alpha else alpha in
                if r then element M2 i j /! alpha' else element M2 i j *! alpha'))).
  { intros M2 r E2. unfold am, elementwise_loops, element, offset_of.
    rewrite <- E2. destruct (is_row_major mat1), r; reflexivity. }
  split.
  - intros a Ha. rewrite Hloops by exact E. cbn [storage].
    apply elementwise_loops_frame. exact Ha.
  - intros i j Hi Hj scaled alpha' Hundo.
    assert (Escaled : is_row_major mat1 = is_row_major scaled) by reflexivity.
    rewrite (Hloops scaled true Escaled). cbn [storage].
    rewrite elementwise_loops_hit by assumption. cbv zeta.
    assert (Hel : element scaled i j = element mat2 i j *! alpha').
    { unfold element at 1. subst scaled. cbn [elements with_elements].
      change (offset_of (with_elements mat1 _) i j) with (offset_of mat1 i j).
      rewrite (Hloops mat2 false E). cbn [storage].
      rewrite elementwise_loops_hit by assumption. reflexivity. }
    rewrite Hel. exact Hundo.
Qed.

End ElementwiseExtras.

(** ** Vectors *)

(** A loop that stores [val i] in the cell [off i]. *)
Section StoreLoop.

Context {T : Type}.
Variables (off : nat -> nat) (val : nat -> T) (n : nat).

Lemma store_loop_frame (d : buffer T) (x : nat) :
  (forall i, i < n -> x <> off i) ->
  for_loop 0 n (fun i d => upd d (off i) (val i)) d x = d x.
Proof.
  intros Hx.
  apply for_loop_miss
    with (get := fun d : buffer T => d x) (Inv := fun _ : buffer T => True); auto.
  intros i s' Hi _. apply upd_other. apply Hx. lia.
Qed.

Lemma store_loop_hit (d : buffer T) (i0 : nat) :
  i0 < n ->
  (forall i, i < n -> off i = off i0 -> i = i0) ->
  for_loop 0 n (fun i d => upd d (off i) (val i)) d (off i0) = val i0.
Proof.
  intros Hi0 Hinj.
  apply for_loop_hit
    with (get := fun d : buffer T => d (off i0)) (Inv := fun _ : buffer T => True)
         (k := i0) (g := fun _ : T => val i0); auto; try lia.
  - intros i s' Hi Hne _. apply upd_other. intros Heq. apply Hne. apply Hinj; [lia | auto].
  - intros s' _. apply upd_same.
Qed.

End StoreLoop.

Lemma v_offset_inj {T} (v : vector_base T) (i i' : nat) :
  0 < v_stride v -> v_offset v i = v_offset v i' -> i = i'.
Proof. unfold v_offset. intros Hinc Heq. nia. Qed.

Section VectorProperties.

Context {T : Type} `{Numeric T}.

(** The loop shared by the operations that fill a vector. *)
Lemma fill_vector_hit (vec : vector_base T) (val : nat -> T) (i : nat) :
  0 < v_stride vec -> i < v_size vec ->
  for_loop 0 (v_size vec) (fun i d => upd d (v_start vec + i * v_stride vec) (val i))
    (v_elements vec) (v_offset vec i) = val i.
Proof.
  intros Hinc Hi.
  apply store_loop_hit with (off := fun i => v_start vec + i * v_stride vec) (val := val).
  - exact Hi.
  - intros i' _ Heq. apply v_offset_inj with (v := vec); assumption.
Qed.

Lemma fill_vector_frame (vec : vector_base T) (val : nat -> T) (a : nat) :
  v_padding_cell vec a ->
  for_loop 0 (v_size vec) (fun i d => upd d (v_start vec + i * v_stride vec) (val i))
    (v_elements vec) a = v_elements vec a.
Proof.
  intros Ha.
  apply store_loop_frame with (off := fun i => v_start vec + i * v_stride vec) (val := val).
  exact Ha.
Qed.

(** X6.  [matrix_row] copies [mat(i, j)] into the element [j] of [vec] for
    every [j] below the size of the vector (the sizes of the matrix are not
    read), and [matrix_column] copies [mat(i, j)] into the element [i];
    neither writes a cell of the storage of [vec] that is not one of its
    elements. *)
Theorem matrix_row_column_spec (mat : matrix_base T) (vec : vector_base T) (k : nat) :
  0 < v_stride vec ->
  (forall j, j < v_size vec ->
     matrix_row mat k vec (v_offset vec j) = element mat k j) /\
  (forall i, i < v_size vec ->
     matrix_column mat k vec (v_offset vec i) = element mat i k) /\
  (forall a, v_padding_cell vec a ->
     matrix_row mat k vec a = v_elements vec a /\
     matrix_column mat k vec a = v_elements vec a).
Proof.
  intros Hinc. unfold matrix_row, matrix_column, element, offset_of.
  split; [| split].
  - intros j Hj. destruct (is_row_major mat); cbv zeta;
      rewrite fill_vector_hit
        with (val := fun j => elements mat (wrapper_index _ (wrapper_of mat) k j));
      auto.
  - intros i Hi. destruct (is_row_major mat); cbv zeta;
      rewrite fill_vector_hit
        with (val := fun i => elements mat (wrapper_index _ (wrapper_of mat) i k));
      auto.
  - intros a Ha. destruct (is_row_major mat); cbv zeta; split.
    + apply fill_vector_frame
        with (val := fun j => elements mat (wrapper_index _ (wrapper_of mat) k j)); auto.
    + apply fill_vector_frame
        with (val := fun i => elements mat (wrapper_index _ (wrapper_of mat) i k)); auto.
    + apply fill_vector_frame
        with (val := fun j => elements mat (wrapper_index _ (wrapper_of mat) k j)); auto.
    + apply fill_vector_frame
        with (val := fun i => elements mat (wrapper_index _ (wrapper_of mat) i k)); auto.
Qed.

(** X7.  Taking the row [j] of the transpose that [trans] wrote is taking
    the column [j] of the matrix: the two calls leave the same storage of
    [vec]. *)
Theorem matrix_row_of_trans (A B : matrix_base T) (vec : vector_base T) (j a : nat) :
  is_row_major B = is_row_major A ->
  size1 B = size2 A -> size2 B = size1 A -> wf_matrix B ->
  j < size2 A -> v_size vec <= size1 A ->
  matrix_row (with_elements B (trans A B)) j vec a = matrix_column A j vec a.
Proof.
  intros E E1 E2 Hwf Hj Hsize.
  assert (Hcell : forall i, i < v_size vec ->
            trans A B (offset_of B j i) = element A i j).
  { intros i Hi. apply trans_element; try assumption. lia. }
  unfold matrix_row, matrix_column.
  cbn [is_row_major with_elements elements]. rewrite E.
  unfold element, offset_of in Hcell. rewrite E in Hcell.
  change (wrapper_of (with_elements B (trans A B))) with (wrapper_of B).
  destruct (is_row_major A); cbv zeta;
    (match goal with
     | |- ?l a = ?r a => assert (Hloops : l = r); [| rewrite Hloops; reflexivity]
     end);
    apply for_loop_ext; intros i d Hi; cbn [layout_of] in Hcell;
    rewrite Hcell by lia; reflexivity.
Qed.

End VectorProperties.

(** ** Diagonals *)

Section DiagonalProperties.

Context {T : Type} `{Numeric T}.

(** X8.  [matrix_diagonal_assign] stores [s] in the cell of [(row, row)]
    for every row of the matrix and writes no other cell; when the matrix
    has no more rows than columns these cells are logical elements, and
    the logical elements off the diagonal keep their values. *)
Theorem matrix_diagonal_assign_spec (mat : matrix_base T) (s : T) :
  (forall row, row < size1 mat ->
     matrix_diagonal_assign mat s (offset_of mat row row) = s) /\
  (forall a, (forall row, row < size1 mat -> a <> offset_of mat row row) ->
     matrix_diagonal_assign mat s a = elements mat a) /\
  (wf_matrix mat -> size1 mat <= size2 mat ->
   forall i j, i < size1 mat -> j < size2 mat -> i <> j ->
     matrix_diagonal_assign mat s (offset_of mat i j) = element mat i j).
Proof.
  assert (Hframe : forall a, (forall row, row < size1 mat -> a <> offset_of mat row row) ->
            matrix_diagonal_assign mat s a = elements mat a).
  { intros a Ha. unfold matrix_diagonal_assign, offset_of in *.
    destruct (is_row_major mat); cbv zeta;
      apply store_loop_frame
        with (off := fun row => wrapper_index _ (wrapper_of mat) row row)
             (val := fun _ : nat => s); exact Ha. }
  split; [| split].
  - intros row Hrow. unfold matrix_diagonal_assign, offset_of.
    destruct (is_row_major mat); cbv zeta;
      apply for_loop_establish
        with (P := fun d : buffer T => d (wrapper_index _ (wrapper_of mat) row row) = s)
             (k := row); try lia;
      try (intros; apply upd_same);
      (intros i d _ Hd; unfold upd;
       destruct (Nat.eqb _ _); [reflexivity | exact Hd]).
  - exact Hframe.
  - intros Hwf Hsq i j Hi Hj Hne. apply Hframe.
    intros row Hrow Heq.
    apply offset_of_inj in Heq; try assumption; try lia.
Qed.

(** The diagonal [k] of a matrix starts in the row [-k] when [k] is
    negative and in the column [k] otherwise. *)
Lemma diagonal_start (k : Z) :
  (if (0 <=? k)%Z then 0 else Z.to_nat (- k)) = Z.to_nat (- k) /\
  (if (0 <=? k)%Z then Z.to_nat k else 0) = Z.to_nat k.
Proof. destruct (Z.leb_spec 0 k); split; lia. Qed.

(** The loop of [matrix_diag_from_vector], after the call of
    [matrix_assign]. *)
Lemma matrix_diag_from_vector_loop (vec : vector_base T) (k : Z) (mat : matrix_base T)
    (a : nat) :
  matrix_diag_from_vector vec k mat a
  = for_loop 0 (v_size vec) (fun i d =>
      upd d (offset_of mat (Z.to_nat (- k) + i) (Z.to_nat k + i))
          (v_elements vec (v_start vec + i * v_stride vec)))
    (matrix_assign mat num_zero false) a.
Proof.
  destruct (diagonal_start k) as [Er Ec].
  unfold matrix_diag_from_vector, offset_of. rewrite Er, Ec.
  destruct (is_row_major mat); reflexivity.
Qed.

Lemma matrix_diag_from_vector_hit (vec : vector_base T) (k : Z) (mat : matrix_base T)
    (t : nat) :
  wf_matrix mat ->
  Z.to_nat (- k) + v_size vec <= size1 mat ->
  Z.to_nat k + v_size vec <= size2 mat ->
  t < v_size vec ->
  matrix_diag_from_vector vec k mat (offset_of mat (Z.to_nat (- k) + t) (Z.to_nat k + t))
  = v_element vec t.
Proof.
  intros Hwf Hrows Hcols Ht. rewrite matrix_diag_from_vector_loop.
  rewrite store_loop_hit
    with (off := fun i => offset_of mat (Z.to_nat (- k) + i) (Z.to_nat k + i))
         (val := fun i => v_elements vec (v_start vec + i * v_stride vec));
    [reflexivity | exact Ht |].
  intros i Hi Heq. apply offset_of_inj in Heq; try assumption; lia.
Qed.

Lemma matrix_diag_to_vector_hit (mat : matrix_base T) (k : Z) (vec : vector_base T)
    (t : nat) :
  0 < v_stride vec -> t < v_size vec ->
  matrix_diag_to_vector mat k vec (v_offset vec t)
  = element mat (Z.to_nat (- k) + t) (Z.to_nat k + t).
Proof.
  intros Hinc Ht. destruct (diagonal_start k) as [Er Ec].
  unfold matrix_diag_to_vector, element, offset_of. rewrite Er, Ec.
  destruct (is_row_major mat); cbv zeta;
    rewrite fill_vector_hit
      with (val := fun i => elements mat
              (wrapper_index _ (wrapper_of mat) (Z.to_nat (- k) + i) (Z.to_nat k + i)));
    auto.
Qed.

(** X9.  [matrix_diag_from_vector] leaves the element [t] of [vec] in the
    element [t] of the diagonal [k] of [mat], zero in every other logical
    element, and the cells that are not logical elements as they were,
    when the diagonal of the length of [vec] fits in the matrix. *)
Theorem matrix_diag_from_vector_spec (vec : vector_base T) (k : Z) (mat : matrix_base T) :
  let row_start := Z.to_nat (- k) in
  let col_start := Z.to_nat k in
  wf_matrix mat ->
  row_start + v_size vec <= size1 mat ->
  col_start + v_size vec <= size2 mat ->
  (forall t, t < v_size vec ->
     matrix_diag_from_vector vec k mat (offset_of mat (row_start + t) (col_start + t))
     = v_element vec t) /\
  (forall i j, i < size1 mat -> j < size2 mat ->
     (forall t, t < v_size vec -> ~ (i = row_start + t /\ j = col_start + t)) ->
     matrix_diag_from_vector vec k mat (offset_of mat i j) = num_zero) /\
  (forall a, padding_cell mat a ->
     matrix_diag_from_vector vec k mat a = elements mat a).
Proof.
  intros row_start col_start Hwf Hrows Hcols.
  destruct (matrix_assign_logical mat num_zero) as [Hzero Hpad].
  split; [| split].
  - intros t Ht. apply matrix_diag_from_vector_hit; assumption.
  - intros i j Hi Hj Hoff. rewrite matrix_diag_from_vector_loop.
    rewrite store_loop_frame
      with (off := fun i => offset_of mat (Z.to_nat (- k) + i) (Z.to_nat k + i))
           (val := fun i => v_elements vec (v_start vec + i * v_stride vec)).
    + apply Hzero; assumption.
    + intros t Ht Heq. apply offset_of_inj in Heq; try assumption; try lia.
      apply (Hoff t Ht). exact Heq.
  - intros a Ha. rewrite matrix_diag_from_vector_loop.
    rewrite store_loop_frame
      with (off := fun i => offset_of mat (Z.to_nat (- k) + i) (Z.to_nat k + i))
           (val := fun i => v_elements vec (v_start vec + i * v_stride vec)).
    + apply Hpad. exact Ha.
    + intros t Ht. apply Ha; lia.
Qed.

(** X10.  [matrix_diag_to_vector] copies the element [t] of the diagonal
    [k] of [mat] into the element [t] of [vec] and writes no other cell of
    the storage of [vec]. *)
Theorem matrix_diag_to_vector_spec (mat : matrix_base T) (k : Z) (vec : vector_base T) :
  0 < v_stride vec ->
  (forall t, t < v_size vec ->
     matrix_diag_to_vector mat k vec (v_offset vec t)
     = element mat (Z.to_nat (- k) + t) (Z.to_nat k + t)) /\
  (forall a, v_padding_cell vec a ->
     matrix_diag_to_vector mat k vec a = v_elements vec a).
Proof.
  intros Hinc. split.
  - intros t Ht. apply matrix_diag_to_vector_hit; assumption.
  - intros a Ha. destruct (diagonal_start k) as [Er Ec].
    unfold matrix_diag_to_vector. rewrite Er, Ec.
    destruct (is_row_major mat); cbv zeta;
      apply fill_vector_frame
        with (val := fun i => elements mat
                (wrapper_index _ (wrapper_of mat) (Z.to_nat (- k) + i) (Z.to_nat k + i)));
      auto.
Qed.

(** X11.  Reading the diagonal [k] back from the matrix that
    [matrix_diag_from_vector] built gives the elements of the vector it
    was built from. *)
Theorem matrix_diag_round_trip (vec vec' : vector_base T) (k : Z) (mat : matrix_base T)
    (t : nat) :
  wf_matrix mat ->
  Z.to_nat (- k) + v_size vec <= size1 mat ->
  Z.to_nat k + v_size vec <= size2 mat ->
  0 < v_stride vec' -> v_size vec' <= v_size vec -> t < v_size vec' ->
  matrix_diag_to_vector (with_elements mat (matrix_diag_from_vector vec k mat)) k vec'
    (v_offset vec' t)
  = v_element vec t.
Proof.
  intros Hwf Hrows Hcols Hinc Hsize Ht.
  rewrite matrix_diag_to_vector_hit by assumption.
  unfold element. cbn [elements with_elements].
  change (offset_of (with_elements mat _) ?i ?j) with (offset_of mat i j).
  apply matrix_diag_from_vector_hit; try assumption. lia.
Qed.

End DiagonalProperties.

(** ** The matrix-vector product *)

Section MatrixVectorProduct.

Context {T : Type} `{Numeric T}.

(** The index expressions [mem_index(i * inc1 + start1, j * inc2 + start2,
    ...)] of the sources address the logical element [(i, j)]. *)
Lemma mem_index_offset (M : matrix_base T) (i j : nat) :
  mem_index (layout_of (is_row_major M))
            (i * stride1 M + start1 M) (j * stride2 M + start2 M)
            (internal_size1 M) (internal_size2 M)
  = offset_of M i j.
Proof.
  unfold offset_of, wrapper_index. cbn [wrapper_of w_start1 w_start2 w_inc1 w_inc2
    w_internal_size1 w_internal_size2].
  f_equal; apply Nat.add_comm.
Qed.

Lemma v_index_offset (v : vector_base T) (i : nat) :
  i * v_stride v + v_start v = v_offset v i.
Proof. unfold v_offset. apply Nat.add_comm. Qed.

(** The accumulation into the zero-initialised [temp_array] of the single
    thread ([id] is 0, so that the index [A_size2 * id + col] is [col]):
    the entry [c] receives the terms [w a c] in increasing order of [a]. *)
Lemma temp_array_accumulate (n m : nat) (w : nat -> nat -> T) (c : nat) :
  c < m ->
  for_loop 0 n (fun a =>
    for_loop 0 m (fun b (t : buffer T) =>
      upd t b (t b +! w a b)))
    (fun _ => num_zero) c
  = for_loop 0 n (fun a acc => acc +! w a c) num_zero.
Proof.
  intros Hc.
  apply for_loop_iter
    with (get := fun t : buffer T => t c) (Inv := fun _ : buffer T => True)
         (g := fun a acc => acc +! w a c) (s := fun _ : nat => num_zero); auto.
  intros a t Ha _.
  apply for_loop_hit
    with (get := fun t : buffer T => t c) (Inv := fun _ : buffer T => True)
         (k := c) (g := fun acc => acc +! w a c); auto; try lia.
  - intros b t' Hb Hne _. apply upd_other. lia.
  - intros t' _. apply upd_same.
Qed.

(** The reduction of [temp_array] into the zeroed result. *)
Lemma temp_array_reduce (res : vector_base T) (temp_array : buffer T) (m i : nat) :
  0 < v_stride res -> i < m ->
  for_loop 0 1 (fun id =>
    for_loop 0 m (fun col r =>
      upd r (vector_array_wrapper (v_start res) (v_stride res) col)
          (r (vector_array_wrapper (v_start res) (v_stride res) col)
           +! temp_array (m * id + col))))
    (for_loop 0 m (fun col r =>
       upd r (vector_array_wrapper (v_start res) (v_stride res) col) num_zero)
       (v_elements res))
    (v_offset res i)
  = num_zero +! temp_array i.
Proof.
  intros Hinc Hi.
  assert (Hinj : forall b, vector_array_wrapper (v_start res) (v_stride res) b
                           = v_offset res i -> b = i).
  { intros b Heq. apply v_offset_inj with (v := res); assumption. }
  change (v_offset res i) with (vector_array_wrapper (v_start res) (v_stride res) i).
  rewrite update_loops_hit
    with (off := fun _ col => vector_array_wrapper (v_start res) (v_stride res) col)
         (f := fun id col old => old +! temp_array (m * id + col))
         (a0 := 0) (b0 := i); try lia.
  - rewrite store_loop_hit
      with (off := vector_array_wrapper (v_start res) (v_stride res))
           (val := fun _ : nat => num_zero); try assumption.
    + replace (m * 0 + i) with i by lia. reflexivity.
    + intros b _ Heq. apply Hinj. exact Heq.
  - intros a b Ha Hb Heq. split; [lia | apply Hinj; exact Heq].
Qed.

Lemma temp_array_frame (res : vector_base T) (temp_array : buffer T) (m a : nat) :
  (forall i, i < m -> a <> v_offset res i) ->
  for_loop 0 1 (fun id =>
    for_loop 0 m (fun col r =>
      upd r (vector_array_wrapper (v_start res) (v_stride res) col)
          (r (vector_array_wrapper (v_start res) (v_stride res) col)
           +! temp_array (m * id + col))))
    (for_loop 0 m (fun col r =>
       upd r (vector_array_wrapper (v_start res) (v_stride res) col) num_zero)
       (v_elements res))
    a
  = v_elements res a.
Proof.
  intros Ha.
  rewrite update_loops_frame
    with (off := fun _ col => vector_array_wrapper (v_start res) (v_stride res) col)
         (f := fun id col old => old +! temp_array (m * id + col)).
  - apply store_loop_frame
      with (off := vector_array_wrapper (v_start res) (v_stride res))
           (val := fun _ : nat => num_zero).
    exact Ha.
  - intros _ b _ Hb. apply Ha. exact Hb.
Qed.

(** X12.  The matrix-vector [prod_impl] stores in the element [i] of
    [result] the sum [op(mat)(i, 0) * vec(0) + op(mat)(i, 1) * vec(1) + ...],
    accumulated from zero in increasing order of the column of [op(mat)];
    the two branches that go through [temp_array] (row-major and
    transposed, column-major and not transposed) add that sum to the zero
    they stored in [result] first.  The rows are counted by the matrix:
    the size of [result] is not read.  No other cell of the storage of
    [result] is written. *)
Theorem prod_impl_vector_spec (mat : matrix_base T) (trans : bool)
    (vec result : vector_base T) :
  let rows := if trans then size2 mat else size1 mat in
  let cols := if trans then size1 mat else size2 mat in
  0 < v_stride result ->
  (forall i, i < rows ->
     prod_impl_vector mat trans vec result (v_offset result i)
     = if Bool.eqb (is_row_major mat) trans
       then num_zero +! dot_vector mat trans vec i cols
       else dot_vector mat trans vec i cols) /\
  (forall a, (forall i, i < rows -> a <> v_offset result i) ->
     prod_impl_vector mat trans vec result a = v_elements result a).
Proof.
  intros rows cols Hinc. subst rows cols.
  assert (Hel : forall i j, elements mat (mem_index (layout_of (is_row_major mat))
                  (i * stride1 mat + start1 mat) (j * stride2 mat + start2 mat)
                  (internal_size1 mat) (internal_size2 mat)) = element mat i j).
  { intros i j. rewrite mem_index_offset. reflexivity. }
  assert (Hx : forall p, v_elements vec (p * v_stride vec + v_start vec) = v_element vec p).
  { intros p. rewrite v_index_offset. reflexivity. }
  assert (Hwrap : forall i j, elements mat
                    (wrapper_index (layout_of (is_row_major mat))
                       {| w_start1 := start1 mat; w_start2 := start2 mat;
                          w_inc1 := stride1 mat; w_inc2 := stride2 mat;
                          w_internal_size1 := internal_size1 mat;
                          w_internal_size2 := internal_size2 mat |} i j)
                  = element mat i j) by reflexivity.
  assert (Hxw : forall p, v_elements vec
                    (vector_array_wrapper (v_start vec) (v_stride vec) p)
                  = v_element vec p) by reflexivity.
  unfold prod_impl_vector.
  destruct (is_row_major mat) eqn:E, trans; cbn [Bool.eqb negb layout_of] in *; cbv zeta;
    rewrite ?Nat.mul_0_r, ?Nat.mul_1_r, ?Nat.add_0_r, ?Nat.div_1_r, ?Nat.sub_0_r;
    cbn [Nat.add]; rewrite ?Nat.mul_1_r, ?Nat.div_1_r, ?Nat.sub_0_r.
  - (* row-major, transposed: through [temp_array] *)
    split.
    + intros i Hi. rewrite temp_array_reduce by assumption.
      f_equal.
      rewrite temp_array_accumulate
        with (w := fun row col =>
                elements mat (wrapper_index row_major _ row col)
                *! v_elements vec (vector_array_wrapper _ _ row)) by exact Hi.
      unfold dot_vector. apply for_loop_ext. intros p acc _.
      rewrite Hwrap, Hxw. reflexivity.
    + intros a Ha. apply temp_array_frame. exact Ha.
  - (* row-major, not transposed: one dot product per row *)
    split.
    + intros i Hi. rewrite <- v_index_offset.
      rewrite store_loop_hit
        with (off := fun row => row * v_stride result + v_start result)
             (val := fun row =>
                for_loop 0 (size2 mat) (fun col temp =>
                  temp +! elements mat (mem_index row_major _ _ _ _) *! v_elements vec _)
                num_zero); try assumption.
      * unfold dot_vector. apply for_loop_ext. intros p acc _.
        rewrite Hel, Hx. reflexivity.
      * intros r _ Heq. rewrite !v_index_offset in Heq.
        apply v_offset_inj with (v := result); assumption.
    + intros a Ha.
      apply store_loop_frame
        with (off := fun row => row * v_stride result + v_start result)
             (val := fun row =>
                for_loop 0 (size2 mat) (fun col temp =>
                  temp +! elements mat (mem_index row_major _ _ _ _) *! v_elements vec _)
                num_zero).
      intros i Hi. rewrite v_index_offset. apply Ha. exact Hi.
  - (* column-major, transposed: one dot product per column of [mat] *)
    split.
    + intros i Hi. rewrite <- v_index_offset.
      rewrite store_loop_hit
        with (off := fun row => row * v_stride result + v_start result)
             (val := fun row =>
                for_loop 0 (size1 mat) (fun col temp =>
                  temp +! elements mat (mem_index column_major _ _ _ _) *! v_elements vec _)
                num_zero); try assumption.
      * unfold dot_vector. apply for_loop_ext. intros p acc _.
        rewrite Hel, Hx. reflexivity.
      * intros r _ Heq. rewrite !v_index_offset in Heq.
        apply v_offset_inj with (v := result); assumption.
    + intros a Ha.
      apply store_loop_frame
        with (off := fun row => row * v_stride result + v_start result)
             (val := fun row =>
                for_loop 0 (size1 mat) (fun col temp =>
                  temp +! elements mat (mem_index column_major _ _ _ _) *! v_elements vec _)
                num_zero).
      intros i Hi. rewrite v_index_offset. apply Ha. exact Hi.
  - (* column-major, not transposed: through [temp_array] *)
    split.
    + intros i Hi. rewrite temp_array_reduce by assumption.
      f_equal.
      rewrite temp_array_accumulate
        with (n := size2 mat) (m := size1 mat)
             (w := fun col row =>
                elements mat (wrapper_index column_major _ row col)
                *! v_elements vec (vector_array_wrapper _ _ col)) by exact Hi.
      unfold dot_vector. apply for_loop_ext. intros p acc _.
      rewrite Hwrap, Hxw. reflexivity.
    + intros a Ha. apply temp_array_frame. exact Ha.
Qed.

End MatrixVectorProduct.

(** ** Rank-1 update and bidiagonal packing *)

Section RankOneProperties.

Context {T : Type} `{Numeric T}.

(** X13.  [scaled_rank_1_update] adds [vec1(i) * vec2(j)], scaled by
    [alpha'], to every logical element of [mat1] and writes no other cell.
    The scalar (negated first where [flip_sign_alpha] is set) multiplies,
    or divides where [reciprocal_alpha] is set, the element of [vec1] for
    a row-major matrix and the element of [vec2] for a column-major one. *)
Theorem scaled_rank_1_update_spec (mat1 : matrix_base T) (alpha : T)
    (reciprocal_alpha flip_sign_alpha : bool) (vec1 vec2 : vector_base T) :
  wf_matrix mat1 ->
  let alpha' := if flip_sign_alpha then num_opp alpha else alpha in
  let scaled x := if reciprocal_alpha then x /! alpha' else x *! alpha' in
  (forall i j, i < size1 mat1 -> j < size2 mat1 ->
     scaled_rank_1_update mat1 alpha reciprocal_alpha flip_sign_alpha vec1 vec2
       (offset_of mat1 i j)
     = element mat1 i j
       +! (if is_row_major mat1
           then scaled (v_element vec1 i) *! v_element vec2 j
           else v_element vec1 i *! scaled (v_element vec2 j))) /\
  (forall a, padding_cell mat1 a ->
     scaled_rank_1_update mat1 alpha reciprocal_alpha flip_sign_alpha vec1 vec2 a
     = elements mat1 a).
Proof.
  intros Hwf alpha' scaled. subst scaled alpha'.
  pose proof (mem_index_offset mat1) as Hidx.
  unfold scaled_rank_1_update.
  destruct (is_row_major mat1) eqn:E; cbn [layout_of] in Hidx; split.
  - intros i j Hi Hj. rewrite <- Hidx.
    destruct reciprocal_alpha; cbv zeta;
      rewrite update_loops_hit
        with (off := fun row col => mem_index row_major _ _ _ _)
             (f := fun row col old =>
                     old +! _ (v_elements vec1 (row * v_stride vec1 + v_start vec1)) _
                            *! v_elements vec2 (col * v_stride vec2 + v_start vec2));
      try assumption;
      try (rewrite Hidx, !v_index_offset; reflexivity);
      (intros a b Ha Hb Heq; rewrite !Hidx in Heq;
       apply offset_of_inj with (M := mat1); assumption).
  - intros a Ha.
    destruct reciprocal_alpha; cbv zeta;
      apply update_loops_frame
        with (off := fun row col => mem_index row_major _ _ _ _)
             (f := fun row col old =>
                     old +! _ (v_elements vec1 (row * v_stride vec1 + v_start vec1)) _
                            *! v_elements vec2 (col * v_stride vec2 + v_start vec2));
      intros r c Hr Hc; rewrite Hidx; apply Ha; assumption.
  - intros i j Hi Hj. rewrite <- Hidx.
    destruct reciprocal_alpha; cbv zeta;
      rewrite update_loops_hit
        with (off := fun col row => mem_index column_major
                       (row * stride1 mat1 + start1 mat1) (col * stride2 mat1 + start2 mat1)
                       (internal_size1 mat1) (internal_size2 mat1))
             (f := fun col row old =>
                     old +! v_elements vec1 (row * v_stride vec1 + v_start vec1)
                            *! _ (v_elements vec2 (col * v_stride vec2 + v_start vec2)) _)
             (a0 := j) (b0 := i);
      try assumption;
      try (rewrite Hidx, !v_index_offset; reflexivity);
      (intros a b Ha Hb Heq; rewrite !Hidx in Heq;
       apply offset_of_inj with (M := mat1) in Heq; try assumption;
       destruct Heq; split; assumption).
  - intros a Ha.
    destruct reciprocal_alpha; cbv zeta;
      apply update_loops_frame
        with (off := fun col row => mem_index column_major
                       (row * stride1 mat1 + start1 mat1) (col * stride2 mat1 + start2 mat1)
                       (internal_size1 mat1) (internal_size2 mat1))
             (f := fun col row old =>
                     old +! v_elements vec1 (row * v_stride vec1 + v_start vec1)
                            *! _ (v_elements vec2 (col * v_stride vec2 + v_start vec2)) _);
      intros c r Hc Hr; rewrite Hidx; apply Ha; assumption.
Qed.

End RankOneProperties.

Section BidiagProperties.

Context {T : Type} `{Numeric T}.

Lemma v_index_offset_mul (v : vector_base T) (i : nat) :
  v_start v + v_stride v * i = v_offset v i.
Proof. unfold v_offset. f_equal. apply Nat.mul_comm. Qed.

(** A loop over a pair of buffers that stores into each of them is, on
    each component, the loop that stores into that buffer. *)
Lemma pair_loop_fst {X Y : Type} (n : nat) (f : nat -> X -> X) (g : nat -> Y -> Y)
    (x : X) (y : Y) :
  fst (for_loop 0 n (fun i '(x, y) => (f i x, g i y)) (x, y)) = for_loop 0 n f x.
Proof.
  apply for_loop_iter
    with (get := @fst X Y) (Inv := fun _ : X * Y => True) (g := f) (s := (x, y)); auto.
  intros i [x' y'] _ _. reflexivity.
Qed.

Lemma pair_loop_snd {X Y : Type} (n : nat) (f : nat -> X -> X) (g : nat -> Y -> Y)
    (x : X) (y : Y) :
  snd (for_loop 0 n (fun i '(x, y) => (f i x, g i y)) (x, y)) = for_loop 0 n g y.
Proof.
  apply for_loop_iter
    with (get := @snd X Y) (Inv := fun _ : X * Y => True) (g := g) (s := (x, y)); auto.
  intros i [x' y'] _ _. reflexivity.
Qed.

(** What [bidiag_pack_impl] returns, one vector at a time. *)
Lemma bidiag_pack_impl_D (A : matrix_base T) (D S : vector_base T) :
  let size := min (v_size D) (v_size S) in
  fst (bidiag_pack_impl A D S)
  = upd (for_loop 0 (size - 1) (fun i d => upd d (v_offset D i) (element A i i))
           (v_elements D))
        (v_offset D (size - 1)) (element A (size - 1) (size - 1)).
Proof.
  intros size. subst size.
  pose proof (mem_index_offset A) as Hidx.
  unfold bidiag_pack_impl.
  destruct (is_row_major A); cbn [layout_of] in Hidx; cbv zeta;
    (match goal with
     | |- fst (let '(_, _) := ?loop in _) = _ =>
         rewrite (surjective_pairing loop); cbn [fst]
     end);
    rewrite pair_loop_fst, Hidx, v_index_offset_mul; f_equal;
    apply for_loop_ext; intros i d _;
    rewrite Hidx, v_index_offset_mul; reflexivity.
Qed.

Lemma bidiag_pack_impl_S (A : matrix_base T) (D S : vector_base T) :
  let size := min (v_size D) (v_size S) in
  snd (bidiag_pack_impl A D S)
  = for_loop 0 (size - 1) (fun i d => upd d (v_offset S (i + 1)) (element A i (i + 1)))
      (v_elements S).
Proof.
  intros size. subst size.
  pose proof (mem_index_offset A) as Hidx.
  unfold bidiag_pack_impl.
  destruct (is_row_major A); cbn [layout_of] in Hidx; cbv zeta;
    (match goal with
     | |- snd (let '(_, _) := ?loop in _) = _ =>
         rewrite (surjective_pairing loop); cbn [snd]
     end);
    rewrite pair_loop_snd;
    apply for_loop_ext; intros i d _;
    rewrite Hidx, v_index_offset_mul; reflexivity.
Qed.

(** X14.  For vectors of at least one element, with
    [size = min(size(D), size(S))]: [bidiag_pack_impl] stores the diagonal
    element [A(i, i)] in [D(i)] for every [i < size] and the superdiagonal
    element [A(i, i + 1)] in [S(i + 1)] for every [i < size - 1]; [S(0)] is
    not written, nor is any other cell of the two storages. *)
Theorem bidiag_pack_impl_spec (A : matrix_base T) (D S : vector_base T) :
  let size := min (v_size D) (v_size S) in
  1 <= size -> 0 < v_stride D -> 0 < v_stride S ->
  (forall i, i < size ->
     fst (bidiag_pack_impl A D S) (v_offset D i) = element A i i) /\
  (forall i, i + 1 < size ->
     snd (bidiag_pack_impl A D S) (v_offset S (i + 1)) = element A i (i + 1)) /\
  snd (bidiag_pack_impl A D S) (v_offset S 0) = v_element S 0 /\
  (forall a, (forall i, i < size -> a <> v_offset D i) ->
     fst (bidiag_pack_impl A D S) a = v_elements D a) /\
  (forall a, (forall i, i + 1 < size -> a <> v_offset S (i + 1)) ->
     snd (bidiag_pack_impl A D S) a = v_elements S a).
Proof.
  intros size Hsize HincD HincS.
  pose proof (bidiag_pack_impl_D A D S) as HD.
  pose proof (bidiag_pack_impl_S A D S) as HS.
  cbv zeta in HD, HS. fold size in HD, HS. rewrite HD, HS.
  assert (HSframe : forall a, (forall i, i + 1 < size -> a <> v_offset S (i + 1)) ->
            for_loop 0 (size - 1)
              (fun i d => upd d (v_offset S (i + 1)) (element A i (i + 1)))
              (v_elements S) a = v_elements S a).
  { intros a Ha.
    apply store_loop_frame
      with (off := fun i => v_offset S (i + 1)) (val := fun i => element A i (i + 1)).
    intros i Hi. apply Ha. lia. }
  split; [| split; [| split; [| split]]].
  - intros i Hi.
    destruct (Nat.eq_dec i (size - 1)) as [-> | Hne].
    + apply upd_same.
    + rewrite upd_other
        by (intros Heq; apply v_offset_inj in Heq; [contradiction | exact HincD]).
      apply store_loop_hit
        with (off := fun i => v_offset D i) (val := fun i => element A i i).
      * lia.
      * intros i' _ Heq. apply v_offset_inj with (v := D); assumption.
  - intros i Hi.
    apply store_loop_hit
      with (off := fun i => v_offset S (i + 1)) (val := fun i => element A i (i + 1)).
    + lia.
    + intros i' _ Heq. apply v_offset_inj in Heq; [lia | exact HincS].
  - rewrite HSframe; [reflexivity |].
    intros i _ Heq. apply v_offset_inj in Heq; [lia | exact HincS].
  - intros a Ha.
    rewrite upd_other by (apply Ha; lia).
    apply store_loop_frame
      with (off := fun i => v_offset D i) (val := fun i => element A i i).
    intros i Hi. apply Ha. lia.
  - exact HSframe.
Qed.

End BidiagProperties.

(** ** Householder updates *)

(** The loop nest of the two Householder updates: line after line, the sum
    [ss] is taken over the positions [lo <= j < hi] of the line, then
    every such position is updated with it. *)
Section LineUpdate.

Context {T : Type} `{NumericSub T}.
Variables (off : nat -> nat -> nat) (d : nat -> T) (lo hi n : nat).

Hypothesis off_inj :
  forall i j i' j', i < n -> i' < n -> lo <= j < hi -> lo <= j' < hi ->
    off i j = off i' j' -> i = i' /\ j = j'.

Local Abbreviation line_update :=
  (fun (i : nat) (data : buffer T) =>
     for_loop lo hi (fun j data' =>
       upd data' (off i j)
           (data' (off i j)
            -! (num_two *! d j
                *! for_loop lo hi (fun j ss => ss +! d j *! data (off i j)) num_zero)))
     data).

Lemma line_update_other (i i0 j0 : nat) (data : buffer T) :
  i < n -> i0 < n -> i <> i0 -> lo <= j0 < hi ->
  line_update i data (off i0 j0) = data (off i0 j0).
Proof.
  intros Hi Hi0 Hne Hj0.
  apply for_loop_miss
    with (get := fun s : buffer T => s (off i0 j0)) (Inv := fun _ : buffer T => True);
    auto.
  intros j s' Hj _. apply upd_other.
  intros Heq. apply off_inj in Heq; try assumption. destruct Heq. congruence.
Qed.

Lemma line_update_at (i0 j0 : nat) (data : buffer T) :
  i0 < n -> lo <= j0 < hi ->
  line_update i0 data (off i0 j0)
  = reflected d (fun j => data (off i0 j)) lo hi j0.
Proof.
  intros Hi0 Hj0. unfold reflected, reflection_sum.
  apply for_loop_hit
    with (get := fun s : buffer T => s (off i0 j0)) (Inv := fun _ : buffer T => True)
         (k := j0)
         (g := fun x => x -! (num_two *! d j0
                 *! for_loop lo hi (fun j ss => ss +! d j *! data (off i0 j)) num_zero));
    auto.
  - intros j s' Hj Hne _. apply upd_other.
    intros Heq. apply off_inj in Heq; try assumption. destruct Heq. congruence.
  - intros s' _. apply upd_same.
Qed.

Lemma line_update_hit (data : buffer T) (i0 j0 : nat) :
  i0 < n -> lo <= j0 < hi ->
  for_loop 0 n line_update data (off i0 j0)
  = reflected d (fun j => data (off i0 j)) lo hi j0.
Proof.
  intros Hi0 Hj0.
  rewrite for_loop_split with (mid := Datatypes.S i0) by lia.
  rewrite for_loop_step by lia.
  set (before := for_loop 0 i0 line_update data).
  (* the lines before [i0] leave the line [i0] as it was *)
  assert (Hbefore : forall j, lo <= j < hi -> before (off i0 j) = data (off i0 j)).
  { intros j Hj. subst before.
    apply for_loop_miss
      with (get := fun s : buffer T => s (off i0 j)) (Inv := fun _ : buffer T => True);
      auto.
    intros i s' Hi _. apply line_update_other; (lia || assumption). }
  (* so do the lines after it *)
  rewrite for_loop_miss
    with (get := fun s : buffer T => s (off i0 j0)) (Inv := fun _ : buffer T => True);
    auto.
  - rewrite line_update_at by assumption.
    unfold reflected, reflection_sum.
    rewrite Hbefore by assumption. f_equal. f_equal.
    apply for_loop_ext. intros j ss Hj. rewrite Hbefore by assumption. reflexivity.
  - intros i s' Hi _. apply line_update_other; (lia || assumption).
Qed.

Lemma line_update_frame (data : buffer T) (x : nat) :
  (forall i j, i < n -> lo <= j < hi -> x <> off i j) ->
  for_loop 0 n line_update data x = data x.
Proof.
  intros Hx.
  apply for_loop_miss
    with (get := fun s : buffer T => s x) (Inv := fun _ : buffer T => True); auto.
  intros i s' Hi _.
  apply for_loop_miss
    with (get := fun s : buffer T => s x) (Inv := fun _ : buffer T => True); auto.
  intros j s'' Hj _. apply upd_other. apply Hx; (lia || assumption).
Qed.

End LineUpdate.

Section HouseholderProperties.

Context {T : Type} `{NumericSub T}.

(** X15.  [house_update_A_left] replaces, in every column [j] of [A], the
    elements of the rows [start < i < size1] by
    [A(i, j) - 2 * D(i) * ss] where [ss] is the sum of [D(r) * A(r, j)]
    over these rows, taken on the column as it was on entry; the rows up
    to [start] and the cells that are not logical elements are left as
    they were. *)
Theorem house_update_A_left_spec (A : matrix_base T) (D : vector_base T) (start : nat) :
  wf_matrix A ->
  (forall i j, start < i < size1 A -> j < size2 A ->
     house_update_A_left A D start (offset_of A i j)
     = reflected (v_element D) (fun r => element A r j) (start + 1) (size1 A) i) /\
  (forall i j, i <= start -> i < size1 A -> j < size2 A ->
     house_update_A_left A D start (offset_of A i j) = element A i j) /\
  (forall a, padding_cell A a -> house_update_A_left A D start a = elements A a).
Proof.
  intros Hwf.
  pose proof (mem_index_offset A) as Hidx.
  assert (Hloops : house_update_A_left A D start
            = for_loop 0 (size2 A) (fun i data =>
                for_loop (start + 1) (size1 A) (fun j data' =>
                  upd data' (offset_of A j i)
                      (data' (offset_of A j i)
                       -! (num_two *! v_element D j
                           *! for_loop (start + 1) (size1 A)
                                (fun j ss => ss +! v_element D j *! data (offset_of A j i))
                                num_zero)))
                data)
              (elements A)).
  { unfold house_update_A_left.
    destruct (is_row_major A); cbn [layout_of] in Hidx; cbv zeta;
      apply for_loop_ext; intros i data _;
      (rewrite for_loop_ext
         with (body' := fun j ss => ss +! v_element D j *! data (offset_of A j i))
         by (intros j ss _; rewrite Hidx, v_index_offset_mul; reflexivity));
      apply for_loop_ext; intros j data' _;
      rewrite Hidx, v_index_offset_mul; reflexivity. }
  rewrite Hloops.
  assert (Hinj : forall i j i' j', i < size2 A -> i' < size2 A ->
            start + 1 <= j < size1 A -> start + 1 <= j' < size1 A ->
            offset_of A j i = offset_of A j' i' -> i = i' /\ j = j').
  { intros i j i' j' Hi Hi' Hj Hj' Heq.
    apply offset_of_inj in Heq; try assumption; try lia. }
  assert (Hframe : forall a,
            (forall i j, start < i < size1 A -> j < size2 A -> a <> offset_of A i j) ->
            for_loop 0 (size2 A) (fun i data =>
                for_loop (start + 1) (size1 A) (fun j data' =>
                  upd data' (offset_of A j i)
                      (data' (offset_of A j i)
                       -! (num_two *! v_element D j
                           *! for_loop (start + 1) (size1 A)
                                (fun j ss => ss +! v_element D j *! data (offset_of A j i))
                                num_zero)))
                data)
              (elements A) a = elements A a).
  { intros a Ha.
    apply line_update_frame with (off := fun i j => offset_of A j i) (d := v_element D).
    intros i j Hi Hj. apply Ha; lia. }
  split; [| split].
  - intros i j Hi Hj.
    apply line_update_hit
      with (off := fun i j => offset_of A j i) (d := v_element D) (i0 := j) (j0 := i);
      try assumption; lia.
  - intros i j Hi Hi1 Hj. apply Hframe.
    intros i' j' Hi' Hj' Heq.
    apply offset_of_inj in Heq; try assumption; lia.
  - intros a Ha. apply Hframe.
    intros i j Hi Hj. apply Ha; lia.
Qed.

(** X16.  [house_update_A_right] replaces every logical element of [A] by
    [A(i, j) - 2 * D(j) * ss] where [ss] is the sum of [D(c) * A(i, c)]
    over the columns of the row [i], taken on the row as it was on entry;
    the cells that are not logical elements are left as they were. *)
Theorem house_update_A_right_spec (A : matrix_base T) (D : vector_base T) :
  wf_matrix A ->
  (forall i j, i < size1 A -> j < size2 A ->
     house_update_A_right A D (offset_of A i j)
     = reflected (v_element D) (fun c => element A i c) 0 (size2 A) j) /\
  (forall a, padding_cell A a -> house_update_A_right A D a = elements A a).
Proof.
  intros Hwf.
  pose proof (mem_index_offset A) as Hidx.
  assert (Hloops : house_update_A_right A D
            = for_loop 0 (size1 A) (fun i data =>
                for_loop 0 (size2 A) (fun j data' =>
                  upd data' (offset_of A i j)
                      (data' (offset_of A i j)
                       -! (num_two *! v_element D j
                           *! for_loop 0 (size2 A)
                                (fun j ss => ss +! v_element D j *! data (offset_of A i j))
                                num_zero)))
                data)
              (elements A)).
  { unfold house_update_A_right.
    destruct (is_row_major A); cbn [layout_of] in Hidx; cbv zeta;
      apply for_loop_ext; intros i data _;
      (rewrite for_loop_ext
         with (body' := fun j ss => ss +! v_element D j *! data (offset_of A i j))
         by (intros j ss _; rewrite Hidx, v_index_offset_mul; reflexivity));
      apply for_loop_ext; intros j data' _;
      rewrite Hidx, v_index_offset_mul; reflexivity. }
  rewrite Hloops.
  split.
  - intros i j Hi Hj.
    apply line_update_hit
      with (off := fun i j => offset_of A i j) (d := v_element D) (i0 := i) (j0 := j);
      try assumption; try lia.
    intros a b a' b' Ha Ha' Hb Hb' Heq.
    apply offset_of_inj in Heq; try assumption; lia.
  - intros a Ha.
    apply line_update_frame with (off := fun i j => offset_of A i j) (d := v_element D).
    intros i j Hi Hj. apply Ha; lia.
Qed.

End HouseholderProperties.

(** ** Givens rotations *)

Section Rotations.

Context {T : Type} `{NumericSub T}.
Variables (off : nat -> nat -> nat) (t1 t2 : nat -> T) (n1 n2 m : nat).
Variable data0 : buffer T.

Hypothesis off_inj :
  forall k c k' c', k < n1 -> c < n2 -> k' < n1 -> c' < n2 ->
    off k c = off k' c' -> k = k' /\ c = c'.
Hypothesis m_in_range : m < n2.

(** The rotation of the columns [i] and [i + 1], row after row. *)
Local Abbreviation rotate i :=
  (for_loop 0 n1 (fun k (data : buffer T) =>
     upd (upd data (off k (i + 1))
              (t2 i *! data (off k i) +! t1 i *! data (off k (i + 1))))
         (off k i)
         (t1 i *! upd data (off k (i + 1))
                      (t2 i *! data (off k i) +! t1 i *! data (off k (i + 1)))
                      (off k i)
          -! t2 i *! data (off k (i + 1))))).

Lemma rotate_other (i k c : nat) (data : buffer T) :
  i + 1 < n2 -> k < n1 -> c < n2 -> c <> i -> c <> i + 1 ->
  rotate i data (off k c) = data (off k c).
Proof.
  intros Hi Hk Hc Hne Hne'.
  apply for_loop_miss
    with (get := fun s : buffer T => s (off k c)) (Inv := fun _ : buffer T => True);
    auto.
  intros k' s' Hk' _.
  rewrite !upd_other; [reflexivity | |];
    intros Heq; apply off_inj in Heq; try lia.
Qed.

Lemma rotate_frame (i x : nat) (data : buffer T) :
  (forall k c, k < n1 -> c < n2 -> x <> off k c) ->
  i + 1 < n2 ->
  rotate i data x = data x.
Proof.
  intros Hx Hi.
  apply for_loop_miss
    with (get := fun s : buffer T => s x) (Inv := fun _ : buffer T => True); auto.
  intros k' s' Hk' _.
  rewrite !upd_other; [reflexivity | |]; apply Hx; lia.
Qed.

Lemma rotate_pair (i k : nat) (data : buffer T) :
  i + 1 < n2 -> k < n1 ->
  rotate i data (off k i)
  = t1 i *! data (off k i) -! t2 i *! data (off k (i + 1)) /\
  rotate i data (off k (i + 1))
  = t2 i *! data (off k i) +! t1 i *! data (off k (i + 1)).
Proof.
  intros Hi Hk.
  assert (Hne : off k i <> off k (i + 1)).
  { intros Heq. apply off_inj in Heq; lia. }
  assert (Hpair :
    (fun s : buffer T => (s (off k i), s (off k (i + 1)))) (rotate i data)
    = (fun xy : T * T =>
         (t1 i *! fst xy -! t2 i *! snd xy, t2 i *! fst xy +! t1 i *! snd xy))
        ((fun s : buffer T => (s (off k i), s (off k (i + 1)))) data)).
  { apply for_loop_hit
      with (get := fun s : buffer T => (s (off k i), s (off k (i + 1))))
           (Inv := fun _ : buffer T => True) (k := k)
           (g := fun xy : T * T =>
              (t1 i *! fst xy -! t2 i *! snd xy, t2 i *! fst xy +! t1 i *! snd xy));
      auto; try lia.
    - intros k' s' Hk' Hkk _.
      rewrite !upd_other; [reflexivity | | | |];
        intros Heq; apply off_inj in Heq; lia.
    - intros s' _. cbn [fst snd].
      rewrite upd_same.
      rewrite (upd_other _ _ Hne).
      rewrite (upd_other _ _ (not_eq_sym Hne)).
      rewrite upd_same. reflexivity. }
  cbn [fst snd] in Hpair.
  split; [exact (f_equal fst Hpair) | exact (f_equal snd Hpair)].
Qed.

(** What the row [q] has become after [t] rotations. *)
Local Abbreviation q k := (fun c => data0 (off k c)).

Local Abbreviation after k t c :=
  (if c <? m - t then q k c%nat
   else if c =? m - t then givens_carry t1 t2 (q k) m t
   else if m <? c then q k c%nat
   else t2 (c - 1) *! q k (c - 1) +! t1 (c - 1) *! givens_carry t1 t2 (q k) m (m - c)).

Lemma rotations_cell (n k c : nat) :
  n <= m -> k < n1 -> c < n2 ->
  for_loop 0 n (fun t => rotate (m - 1 - t)) data0 (off k c) = after k n c.
Proof.
  intros Hn Hk. revert c.
  induction n as [| t IH]; intros c Hc.
  - rewrite for_loop_empty by lia. rewrite Nat.sub_0_r.
    destruct (Nat.ltb_spec c m); [reflexivity |].
    destruct (Nat.eqb_spec c m) as [-> | Hne]; [reflexivity |].
    destruct (Nat.ltb_spec m c); [reflexivity | lia].
  - rewrite for_loop_step by lia.
    set (d := for_loop 0 t (fun t => rotate (m - 1 - t)) data0) in *.
    assert (IH' : forall c, c < n2 -> d (off k c) = after k t c) by (apply IH; lia).
    assert (Hi : m - 1 - t + 1 < n2) by lia.
    destruct (@rotate_pair (m - 1 - t) k d Hi Hk) as [Hleft Hright].
    destruct (Nat.eq_dec c (m - 1 - t)) as [-> | Hne].
    + (* the left column of the pair *)
      rewrite Hleft, !IH' by lia.
      replace (m - 1 - t <? m - t) with true by (symmetry; apply Nat.ltb_lt; lia).
      replace (m - 1 - t + 1 <? m - t) with false by (symmetry; apply Nat.ltb_ge; lia).
      replace (m - 1 - t + 1 =? m - t) with true by (symmetry; apply Nat.eqb_eq; lia).
      replace (m - 1 - t <? m - Datatypes.S t) with false
        by (symmetry; apply Nat.ltb_ge; lia).
      replace (m - 1 - t =? m - Datatypes.S t) with true
        by (symmetry; apply Nat.eqb_eq; lia).
      reflexivity.
    + destruct (Nat.eq_dec c (m - 1 - t + 1)) as [-> | Hne'].
      * (* the right column of the pair *)
        rewrite Hright, !IH' by lia.
        replace (m - 1 - t <? m - t) with true by (symmetry; apply Nat.ltb_lt; lia).
        replace (m - 1 - t + 1 <? m - t) with false by (symmetry; apply Nat.ltb_ge; lia).
        replace (m - 1 - t + 1 =? m - t) with true by (symmetry; apply Nat.eqb_eq; lia).
        replace (m - 1 - t + 1 <? m - Datatypes.S t) with false
          by (symmetry; apply Nat.ltb_ge; lia).
        replace (m - 1 - t + 1 =? m - Datatypes.S t) with false
          by (symmetry; apply Nat.eqb_neq; lia).
        replace (m <? m - 1 - t + 1) with false by (symmetry; apply Nat.ltb_ge; lia).
        replace (m - 1 - t + 1 - 1) with (m - 1 - t) by lia.
        replace (m - (m - 1 - t + 1)) with t by lia.
        reflexivity.
      * (* the other columns *)
        rewrite rotate_other by (lia || assumption).
        rewrite IH' by exact Hc.
        destruct (Nat.ltb_spec c (m - t)), (Nat.ltb_spec c (m - Datatypes.S t));
          try lia; try reflexivity.
        -- destruct (Nat.eqb_spec c (m - t)), (Nat.eqb_spec c (m - Datatypes.S t));
             try lia; reflexivity.
Qed.

Lemma rotations_frame (n x : nat) :
  n <= m ->
  (forall k c, k < n1 -> c < n2 -> x <> off k c) ->
  for_loop 0 n (fun t => rotate (m - 1 - t)) data0 x = data0 x.
Proof.
  intros Hn Hx.
  apply for_loop_miss
    with (get := fun s : buffer T => s x) (Inv := fun _ : buffer T => True); auto.
  intros t s' Ht _. apply rotate_frame; [exact Hx | lia].
Qed.

End Rotations.

Section GivensProperties.

Context {T : Type} `{NumericSub T}.

(** X17.  [givens_next] with [0 <= l <= m] and the column [m] inside [Q]
    rotates the column pairs [(m - 1, m)], ..., [(l, l + 1)] in this order:
    every logical element [(k, c)] ends as [givens_row] computes it from
    the row [k] as it was on entry, so that the columns outside [l .. m]
    keep their values; the cells that are not logical elements are left as
    they were. *)
Theorem givens_next_spec (Q : matrix_base T) (tmp1 tmp2 : vector_base T) (l m : Z) :
  wf_matrix Q ->
  (0 <= l)%Z -> (l <= m)%Z -> Z.to_nat m < size2 Q ->
  (forall k c, k < size1 Q -> c < size2 Q ->
     givens_next Q tmp1 tmp2 l m (offset_of Q k c)
     = givens_row (v_element tmp1) (v_element tmp2) (fun c => element Q k c)
         (Z.to_nat l) (Z.to_nat m) c) /\
  (forall k c, k < size1 Q -> c < size2 Q -> c < Z.to_nat l \/ Z.to_nat m < c ->
     givens_next Q tmp1 tmp2 l m (offset_of Q k c) = element Q k c) /\
  (forall a, padding_cell Q a -> givens_next Q tmp1 tmp2 l m a = elements Q a).
Proof.
  intros Hwf Hl Hlm Hm.
  pose proof (mem_index_offset Q) as Hidx.
  set (mm := Z.to_nat m). set (ll := Z.to_nat l).
  assert (Hloops : givens_next Q tmp1 tmp2 l m
            = for_loop 0 (mm - ll) (fun t =>
                for_loop 0 (size1 Q) (fun k (data : buffer T) =>
                  upd (upd data (offset_of Q k (mm - 1 - t + 1))
                         (v_element tmp2 (mm - 1 - t) *! data (offset_of Q k (mm - 1 - t))
                          +! v_element tmp1 (mm - 1 - t)
                             *! data (offset_of Q k (mm - 1 - t + 1))))
                      (offset_of Q k (mm - 1 - t))
                      (v_element tmp1 (mm - 1 - t)
                       *! upd data (offset_of Q k (mm - 1 - t + 1))
                            (v_element tmp2 (mm - 1 - t)
                             *! data (offset_of Q k (mm - 1 - t))
                             +! v_element tmp1 (mm - 1 - t)
                                *! data (offset_of Q k (mm - 1 - t + 1)))
                            (offset_of Q k (mm - 1 - t))
                       -! v_element tmp2 (mm - 1 - t)
                          *! data (offset_of Q k (mm - 1 - t + 1)))))
              (elements Q)).
  { unfold givens_next.
    replace (Z.to_nat (m - l)) with (mm - ll) by (subst mm ll; lia).
    destruct (is_row_major Q); cbn [layout_of] in Hidx; cbv zeta;
      apply for_loop_ext; intros t data Ht;
      replace (Z.to_nat (m - 1 - Z.of_nat t + 1)) with (mm - 1 - t + 1)
        by (subst mm ll; lia);
      replace (Z.to_nat (m - 1 - Z.of_nat t)) with (mm - 1 - t)
        by (subst mm ll; lia);
      apply for_loop_ext; intros k data' _;
      rewrite !Hidx, !v_index_offset_mul; reflexivity. }
  rewrite Hloops.
  assert (Hinj : forall k c k' c', k < size1 Q -> c < size2 Q ->
            k' < size1 Q -> c' < size2 Q ->
            offset_of Q k c = offset_of Q k' c' -> k = k' /\ c = c').
  { intros k c k' c' Hk Hc Hk' Hc' Heq.
    apply offset_of_inj in Heq; assumption. }
  assert (Hcell : forall k c, k < size1 Q -> c < size2 Q ->
            for_loop 0 (mm - ll) (fun t =>
                for_loop 0 (size1 Q) (fun k (data : buffer T) =>
                  upd (upd data (offset_of Q k (mm - 1 - t + 1))
                         (v_element tmp2 (mm - 1 - t) *! data (offset_of Q k (mm - 1 - t))
                          +! v_element tmp1 (mm - 1 - t)
                             *! data (offset_of Q k (mm - 1 - t + 1))))
                      (offset_of Q k (mm - 1 - t))
                      (v_element tmp1 (mm - 1 - t)
                       *! upd data (offset_of Q k (mm - 1 - t + 1))
                            (v_element tmp2 (mm - 1 - t)
                             *! data (offset_of Q k (mm - 1 - t))
                             +! v_element tmp1 (mm - 1 - t)
                                *! data (offset_of Q k (mm - 1 - t + 1)))
                            (offset_of Q k (mm - 1 - t))
                       -! v_element tmp2 (mm - 1 - t)
                          *! data (offset_of Q k (mm - 1 - t + 1)))))
              (elements Q) (offset_of Q k c)
            = givens_row (v_element tmp1) (v_element tmp2) (fun c => element Q k c)
                ll mm c).
  { intros k c Hk Hc.
    rewrite rotations_cell
      with (off := offset_of Q) (t1 := v_element tmp1) (t2 := v_element tmp2)
           (n1 := size1 Q) (n2 := size2 Q) (m := mm) (data0 := elements Q);
      try assumption; try lia.
    unfold givens_row, element.
    replace (mm - (mm - ll)) with ll by (subst mm ll; lia).
    destruct (Nat.ltb_spec c ll); [reflexivity |].
    destruct (Nat.eqb_spec c ll); cbn [orb].
    - destruct (Nat.ltb_spec mm c); [subst mm ll; lia | reflexivity].
    - destruct (Nat.ltb_spec mm c); reflexivity. }
  split; [exact Hcell | split].
  - intros k c Hk Hc Hout. rewrite Hcell by assumption.
    unfold givens_row.
    replace ((c <? ll) || (mm <? c)) with true; [reflexivity |].
    symmetry. apply orb_true_iff.
    destruct Hout; [left; apply Nat.ltb_lt | right; apply Nat.ltb_lt]; assumption.
  - intros a Ha.
    apply rotations_frame
      with (off := offset_of Q) (t1 := v_element tmp1) (t2 := v_element tmp2)
           (n1 := size1 Q) (n2 := size2 Q) (m := mm) (data0 := elements Q);
      try assumption; lia.
Qed.

End GivensProperties.

(** ** The dispatcher of the matrix-matrix product *)

(** An address of the storage of a matrix is the offset of a logical
    element or it is not. *)
Lemma bounded_search (P : nat -> Prop) (n : nat) :
  (forall i, P i \/ ~ P i) ->
  (exists i, i < n /\ P i) \/ (forall i, i < n -> ~ P i).
Proof.
  intros Hdec. induction n as [| n IH].
  - right. intros i Hi. lia.
  - destruct IH as [(i & Hi & HP) | Hnone].
    + left. exists i. split; [lia | exact HP].
    + destruct (Hdec n) as [HP | HnP].
      * left. exists n. split; [lia | exact HP].
      * right. intros i Hi.
        destruct (Nat.eq_dec i n) as [-> | Hne]; [exact HnP | apply Hnone; lia].
Qed.

Lemma logical_or_padding {T} (M : matrix_base T) (a : nat) :
  (exists i j, i < size1 M /\ j < size2 M /\ a = offset_of M i j) \/ padding_cell M a.
Proof.
  destruct (bounded_search
              (fun i => exists j, j < size2 M /\ a = offset_of M i j) (size1 M))
    as [(i & Hi & j & Hj & Ha) | Hnone].
  - intros i.
    destruct (bounded_search (fun j => a = offset_of M i j) (size2 M))
      as [(j & Hj & Ha) | Hnone].
    + intros j. destruct (Nat.eq_dec a (offset_of M i j)); [left | right]; assumption.
    + left. exists j. split; assumption.
    + right. intros (j & Hj & Ha). exact (Hnone j Hj Ha).
  - left. exists i, j. repeat split; assumption.
  - right. intros i j Hi Hj Ha. apply (Hnone i Hi). exists j. split; assumption.
Qed.

Section ProdImplProperties.

Context {T : Type} `{Numeric T}.
Variable get_block_sizes : nat -> nat -> nat -> block_sizes.

(** [prod_impl] calls [detail::prod] with the accessor of [C] in the
    layout of [C]. *)
Lemma prod_impl_dispatch (uninitialized : nat -> nat -> buffer T)
    (A : matrix_base T) (trans_A : bool) (B : matrix_base T) (trans_B : bool)
    (C : matrix_base T) (alpha beta : T) :
  prod_impl get_block_sizes uninitialized A trans_A B trans_B C alpha beta
  = prod get_block_sizes uninitialized A trans_A B trans_B
         (layout_of (is_row_major C)) (wrapper_of C) (size1 C) (size2 C)
         alpha beta (elements C).
Proof. unfold prod_impl. destruct (is_row_major C); reflexivity. Qed.

(** X18.  When the reduction dimension fits in one k-block ([k <= kc]) and
    [beta] compares above or below zero, [prod_impl] leaves
    [beta * C(i, j) + alpha * (op(A) * op(B))(i, j)] in every logical
    element of [C], the sum over [k] accumulated from zero in increasing
    order. *)
Theorem prod_impl_single_k_block (uninitialized : nat -> nat -> buffer T)
    (A : matrix_base T) (trans_A : bool) (B : matrix_base T) (trans_B : bool)
    (C : matrix_base T) (alpha beta : T) (i j : nat) :
  let bs := get_block_sizes (m_size A trans_A) (k_size A trans_A) (n_size B trans_B) in
  beta_nonzero beta = true ->
  valid_block_sizes bs ->
  wf_matrix C ->
  consistent_dimensions A trans_A B trans_B (size1 C) (size2 C) ->
  1 <= k_size A trans_A <= kc bs ->
  i < size1 C -> j < size2 C ->
  prod_impl get_block_sizes uninitialized A trans_A B trans_B C alpha beta
    (offset_of C i j)
  = beta *! element C i j
    +! alpha *! dot A trans_A B trans_B i j 0 (k_size A trans_A).
Proof.
  intros bs Hbeta Hbs Hwf Hdims Hk Hi Hj.
  pose proof Hdims as (HC1 & HC2 & _).
  rewrite prod_impl_dispatch.
  apply prod_single_k_block; try assumption; try lia.
  - rewrite <- HC1, <- HC2. exact Hwf.
  - apply Hk.
Qed.

(** X19.  The result of [prod_impl] does not depend on what the freshly
    allocated buffers [buffer_A], [buffer_B] and [buffer_C] hold: two runs
    that differ in it only leave the same storage of [C], whatever the
    scalars and the dimensions. *)
Theorem prod_impl_scratch_independent (uninitialized uninitialized' : nat -> nat -> buffer T)
    (A : matrix_base T) (trans_A : bool) (B : matrix_base T) (trans_B : bool)
    (C : matrix_base T) (alpha beta : T) (a : nat) :
  valid_block_sizes
    (get_block_sizes (m_size A trans_A) (k_size A trans_A) (n_size B trans_B)) ->
  wf_matrix C ->
  consistent_dimensions A trans_A B trans_B (size1 C) (size2 C) ->
  prod_impl get_block_sizes uninitialized A trans_A B trans_B C alpha beta a
  = prod_impl get_block_sizes uninitialized' A trans_A B trans_B C alpha beta a.
Proof.
  intros Hbs Hwf Hdims.
  pose proof Hdims as (HC1 & HC2 & _).
  rewrite !prod_impl_dispatch.
  destruct (Nat.eq_dec (k_size A trans_A) 0) as [Hk0 | Hk].
  - (* the test at the entry of [detail::prod] returns at once *)
    unfold prod, zero_dimension. unfold k_size in Hk0.
    rewrite Hk0, Nat.eqb_refl, !orb_true_r.
    reflexivity.
  - destruct (logical_or_padding C a) as [(i & j & Hi & Hj & ->) | Hpad].
    + unfold offset_of.
      rewrite !prod_cell; try assumption; try lia; try reflexivity;
        rewrite <- HC1, <- HC2; exact Hwf.
    + rewrite !prod_frame; [reflexivity | |];
        intros i j Hi Hj; apply Hpad; lia.
Qed.

(** X20.  Passing [trans_A = true] is passing the transposed matrix:
    [prod_impl] on [A] with the flag set leaves the same storage of [C] as
    [prod_impl] without the flag on the matrix that [trans] wrote from
    [A]. *)
Theorem prod_impl_trans_flag (uninitialized : nat -> nat -> buffer T)
    (A At B : matrix_base T) (trans_B : bool) (C : matrix_base T)
    (alpha beta : T) (a : nat) :
  is_row_major At = is_row_major A ->
  size1 At = size2 A -> size2 At = size1 A -> wf_matrix At ->
  valid_block_sizes
    (get_block_sizes (m_size A true) (k_size A true) (n_size B trans_B)) ->
  wf_matrix C ->
  consistent_dimensions A true B trans_B (size1 C) (size2 C) ->
  prod_impl get_block_sizes uninitialized
    (with_elements At (trans A At)) false B trans_B C alpha beta a
  = prod_impl get_block_sizes uninitialized A true B trans_B C alpha beta a.
Proof.
  intros E E1 E2 HwfAt Hbs Hwf Hdims.
  set (At' := with_elements At (trans A At)).
  assert (Hm : m_size At' false = m_size A true) by exact E1.
  assert (Hk : k_size At' false = k_size A true) by exact E2.
  pose proof Hdims as (HC1 & HC2 & HkB).
  assert (Hdims' : consistent_dimensions At' false B trans_B (size1 C) (size2 C)).
  { unfold consistent_dimensions. rewrite Hm, Hk. exact Hdims. }
  assert (Hwf' : wf_wrapper (layout_of (is_row_major C)) (wrapper_of C)
                   (m_size A true) (n_size B trans_B)).
  { rewrite <- HC1, <- HC2. exact Hwf. }
  rewrite !prod_impl_dispatch.
  destruct (Nat.eq_dec (k_size A true) 0) as [Hk0 | Hk1].
  - unfold prod, zero_dimension.
    change (size2 At') with (size2 At). rewrite E2.
    unfold k_size in Hk0. rewrite Hk0, Nat.eqb_refl, !orb_true_r.
    reflexivity.
  - destruct (logical_or_padding C a) as [(i & j & Hi & Hj & ->) | Hpad].
    + unfold offset_of.
      rewrite !prod_cell; try assumption; try lia;
        try (rewrite Hm; assumption); try (rewrite Hm, Hk; assumption).
      unfold accumulate_blocks, num_blocks_A2. rewrite Hm, !Hk.
      apply for_loop_ext. intros kb c _. f_equal.
      unfold dot. apply for_loop_ext. intros p acc Hp. f_equal. f_equal.
      unfold op_element, element. subst At'. cbn [elements with_elements].
      change (offset_of (with_elements At (trans A At)) i p) with (offset_of At i p).
      apply trans_element; try assumption.
      * unfold k_size in *. lia.
      * unfold m_size in *. lia.
    + rewrite !prod_frame; [reflexivity | |];
        intros i j Hi Hj; apply Hpad; lia.
Qed.

End ProdImplProperties.

Section ProdImplViews.

Context {T : Type} `{Numeric T}.
Variable get_block_sizes : nat -> nat -> nat -> block_sizes.

(** X22.  The matrix-matrix [prod_impl] depends on its three operands
    through their logical elements only: operands with other layouts,
    offsets, strides or paddings, and other contents of the fresh buffers,
    give the same logical elements of [C]. *)
Theorem prod_impl_same_elements (uninitialized uninitialized' : nat -> nat -> buffer T)
    (A A' : matrix_base T) (trans_A : bool) (B B' : matrix_base T) (trans_B : bool)
    (C C' : matrix_base T) (alpha beta : T) (i j : nat) :
  same_elements A A' -> same_elements B B' -> same_elements C C' ->
  valid_block_sizes
    (get_block_sizes (m_size A trans_A) (k_size A trans_A) (n_size B trans_B)) ->
  wf_matrix C -> wf_matrix C' ->
  consistent_dimensions A trans_A B trans_B (size1 C) (size2 C) ->
  i < size1 C -> j < size2 C ->
  prod_impl get_block_sizes uninitialized' A' trans_A B' trans_B C' alpha beta
    (offset_of C' i j)
  = prod_impl get_block_sizes uninitialized A trans_A B trans_B C alpha beta
      (offset_of C i j).
Proof.
  intros (HA1 & HA2 & HA) (HB1 & HB2 & HB) (HC1 & HC2 & HC) Hbs Hwf Hwf' Hdims Hi Hj.
  assert (Hm : m_size A' trans_A = m_size A trans_A)
    by (unfold m_size; destruct trans_A; assumption).
  assert (Hk : k_size A' trans_A = k_size A trans_A)
    by (unfold k_size; destruct trans_A; assumption).
  assert (Hn : n_size B' trans_B = n_size B trans_B)
    by (unfold n_size; destruct trans_B; assumption).
  pose proof Hdims as (Hd1 & Hd2 & HkB).
  assert (Hdims' : consistent_dimensions A' trans_A B' trans_B (size1 C') (size2 C')).
  { unfold consistent_dimensions. rewrite Hm, Hk, Hn, HC1, HC2.
    repeat split; try assumption.
    rewrite <- HkB. destruct trans_B; assumption. }
  rewrite !prod_impl_dispatch.
  destruct (Nat.eq_dec (k_size A trans_A) 0) as [Hk0 | Hk1].
  - (* the test at the entry of [detail::prod] returns at once *)
    unfold prod, zero_dimension.
    replace (if trans_A then size1 A' else size2 A') with 0
      by (symmetry; rewrite <- Hk0, <- Hk; reflexivity).
    replace (if trans_A then size1 A else size2 A) with 0
      by (symmetry; exact Hk0).
    rewrite Nat.eqb_refl, !orb_true_r.
    apply HC; assumption.
  - assert (HwfC : wf_wrapper (layout_of (is_row_major C)) (wrapper_of C)
                     (m_size A trans_A) (n_size B trans_B))
      by (rewrite <- Hd1, <- Hd2; exact Hwf).
    assert (HwfC' : wf_wrapper (layout_of (is_row_major C')) (wrapper_of C')
                      (m_size A' trans_A) (n_size B' trans_B))
      by (rewrite Hm, Hn, <- Hd1, <- Hd2, <- HC1, <- HC2; exact Hwf').
    assert (Hbs' : valid_block_sizes
                     (get_block_sizes (m_size A' trans_A) (k_size A' trans_A)
                        (n_size B' trans_B)))
      by (rewrite Hm, Hk, Hn; exact Hbs).
    unfold offset_of.
    rewrite !prod_cell; try assumption; try lia.
    unfold accumulate_blocks, num_blocks_A2. rewrite Hm, !Hk, Hn.
    change (elements C' (wrapper_index (layout_of (is_row_major C')) (wrapper_of C') i j))
      with (element C' i j).
    change (elements C (wrapper_index (layout_of (is_row_major C)) (wrapper_of C) i j))
      with (element C i j).
    rewrite HC by assumption.
    apply for_loop_ext. intros kb c _. f_equal.
    unfold dot. apply for_loop_ext. intros p acc Hp.
    assert (Hpk : p < k_size A trans_A) by lia.
    f_equal. f_equal.
    + unfold op_element, m_size, k_size in *.
      destruct trans_A; apply HA; lia.
    + unfold op_element, n_size in *.
      destruct trans_B; apply HB; lia.
Qed.

End ProdImplViews.

(** ** Lazy compilation *)

Lemma string_append_assoc (s1 s2 s3 : String.string) :
  String.append (String.append s1 s2) s3 = String.append s1 (String.append s2 s3).
Proof. induction s1 as [| ch s1 IH]; simpl; [reflexivity | rewrite IH; reflexivity]. Qed.

Lemma string_append_empty (s : String.string) :
  String.append s String.EmptyString = s.
Proof. induction s as [| ch s IH]; simpl; [reflexivity | rewrite IH; reflexivity]. Qed.

Section LazyProgramCompilerProperties.

Variables ocl_context ocl_program : Type.
Variable add_program : ocl_context -> String.string -> String.string
                       -> ocl_context * ocl_program.
Variable get_program : ocl_context -> String.string -> ocl_program.

Local Abbreviation run := (run_calls add_program get_program).

(** Once [program_] is set, no call reaches [add_program]. *)
Lemma run_calls_compiled (ops : list call) (c : lazy_program_compiler ocl_program)
    (ctx : ocl_context) :
  program_ c <> None ->
  snd (run ops (c, ctx)) = ctx /\
  src (fst (run ops (c, ctx))) = String.append (src_ c) (added ops).
Proof.
  revert c. induction ops as [| op ops IH]; intros c Hset.
  - simpl. rewrite string_append_empty. split; reflexivity.
  - destruct op as [s |]; cbn [run_calls fold_left run_call fst snd added].
    + destruct (IH (add s c)) as [Hctx Hsrc]; [exact Hset |].
      split; [exact Hctx |].
      unfold run_calls in Hsrc. rewrite Hsrc. apply string_append_assoc.
    + unfold program. destruct (program_ c) eqn:E; [| contradiction].
      apply IH. rewrite E. discriminate.
Qed.

(** X21.  Whatever sequence of calls of [add] and [program] follows the
    construction of a [lazy_program_compiler], [src()] is the source given
    to the constructor followed by all the sources added, and the context
    is reached by [add_program] at most once: never if [program] is not
    called, and otherwise once, at the first call of [program], with the
    sources added until then.  What is added afterwards is not compiled. *)
Theorem lazy_program_compiler_compiles_once (name src0 : String.string)
    (ops : list call) (ctx : ocl_context) :
  src (fst (run ops (lazy_program_compiler_new ocl_program name src0, ctx)))
  = String.append src0 (added ops) /\
  snd (run ops (lazy_program_compiler_new ocl_program name src0, ctx))
  = if calls_program ops
    then fst (add_program ctx (String.append src0 (added_before_program ops)) name)
    else ctx.
Proof.
  unfold lazy_program_compiler_new. revert src0.
  induction ops as [| op ops IH]; intros src0.
  - simpl. rewrite string_append_empty. split; reflexivity.
  - destruct op as [s |];
      cbn [run_calls fold_left run_call fst snd added added_before_program
           calls_program existsb orb].
    + unfold add. cbn [program_ name_ src_].
      destruct (IH (String.append src0 s)) as [Hsrc Hctx].
      unfold run_calls, calls_program in *.
      rewrite Hsrc, Hctx, !string_append_assoc. split; reflexivity.
    + unfold program. cbn [program_ name_ src_].
      rewrite string_append_empty.
      destruct (add_program ctx src0 name) as [ctx' p].
      cbn [fst].
      destruct (@run_calls_compiled ops
                  {| program_ := Some p; name_ := name; src_ := src0 |} ctx')
        as [Hctx Hsrc]; [discriminate |].
      unfold run_calls in *. rewrite Hctx, Hsrc. split; reflexivity.
Qed.

End LazyProgramCompilerProperties.

(** ** The further properties at the example data *)

Ltac example_wf := unfold wf_matrix, wf_wrapper; simpl; repeat split; intros; lia.

(** [example_A'] receives the naturals of [example_N]. *)
Lemma convert_spec_witness :
  elementwise_result example_A' (convert Z.of_nat example_A' example_N)
    (fun i j => Z.of_nat (element example_N i j)).
Proof.
  apply convert_spec.
  - example_wf.
  - reflexivity.
Defined.

(** [example_A' = example_A * 2 + example_A / (-3)]. *)
Lemma ambm_spec_witness :
  elementwise_result example_A'
    (ambm example_A' example_A 2%Z false false example_A 3%Z true true)
    (fun i j => element example_A i j *! 2%Z +! element example_A i j /! num_opp 3%Z).
Proof.
  apply (@ambm_spec Z _ example_A' example_A 2%Z false false example_A 3%Z true true).
  - example_wf.
  - reflexivity.
  - reflexivity.
Defined.

(** [example_C += example_Q / 2 + example_Q * (-3)]. *)
Lemma ambm_m_spec_witness :
  elementwise_result example_C
    (ambm_m example_C example_Q 2%Z true false example_Q 3%Z false true)
    (fun i j =>
       element example_C i j
       +! (element example_Q i j /! 2%Z +! element example_Q i j *! num_opp 3%Z)).
Proof.
  apply (@ambm_m_spec Z _ example_C example_Q 2%Z true false example_Q 3%Z false true).
  - example_wf.
  - reflexivity.
  - reflexivity.
Defined.

(** The element-wise product and the element-wise absolute value. *)
Lemma element_op_spec_witness :
  elementwise_result example_C (element_op_binary Z.mul example_C example_Q example_Q)
    (fun i j => (element example_Q i j * element example_Q i j)%Z) /\
  elementwise_result example_C (element_op_unary Z.abs example_C example_Q example_Q)
    (fun i j => Z.abs (element example_Q i j)).
Proof.
  apply element_op_spec.
  - example_wf.
  - reflexivity.
  - reflexivity.
Defined.

(** [example_A * 3 / 3]: the element (1, 2). *)
Lemma am_frame_and_round_trip_witness :
  storage (am example_A'
             (with_elements example_A' (storage (am example_A' example_A 3%Z false false)))
             3%Z true false)
    (offset_of example_A' 1 2)
  = element example_A 1 2.
Proof.
  refine (proj2 (@am_frame_and_round_trip Z _ example_A' example_A 3%Z false false _ _)
            1 2 _ _ _).
  - example_wf.
  - reflexivity.
  - simpl; lia.
  - simpl; lia.
  - reflexivity.
Defined.

(** The row 1 of [example_Q] into the strided [example_s]. *)
Lemma matrix_row_column_spec_witness :
  matrix_row example_Q 1 example_s (v_offset example_s 2) = element example_Q 1 2.
Proof.
  refine (proj1 (@matrix_row_column_spec Z example_Q example_s 1 _) 2 _).
  - simpl; lia.
  - simpl; lia.
Defined.

(** The row 4 of the transpose of [example_A] is its column 4. *)
Lemma matrix_row_of_trans_witness :
  matrix_row (with_elements example_At (trans example_A example_At)) 4 example_y 1
  = matrix_column example_A 4 example_y 1.
Proof.
  apply (@matrix_row_of_trans Z example_A example_At example_y 4 1).
  - reflexivity.
  - reflexivity.
  - reflexivity.
  - example_wf.
  - simpl; lia.
  - simpl; lia.
Defined.

(** The element (0, 1) of [example_Q] is off the diagonal. *)
Lemma matrix_diagonal_assign_spec_witness :
  matrix_diagonal_assign example_Q 0%Z (offset_of example_Q 0 1) = element example_Q 0 1.
Proof.
  refine (proj2 (proj2 (@matrix_diagonal_assign_spec Z example_Q 0%Z)) _ _ 0 1 _ _ _).
  - example_wf.
  - simpl; lia.
  - simpl; lia.
  - simpl; lia.
  - lia.
Defined.

(** [example_d] as the main diagonal of [example_C]. *)
Lemma matrix_diag_from_vector_spec_witness :
  matrix_diag_from_vector example_d 0%Z example_C (offset_of example_C 1 1)
  = v_element example_d 1.
Proof.
  refine (proj1 (@matrix_diag_from_vector_spec Z _ example_d 0%Z example_C _ _ _) 1 _).
  - example_wf.
  - simpl; lia.
  - simpl; lia.
  - simpl; lia.
Defined.

(** The first subdiagonal of [example_Q] into [example_s]. *)
Lemma matrix_diag_to_vector_spec_witness :
  matrix_diag_to_vector example_Q (-1)%Z example_s (v_offset example_s 1)
  = element example_Q 2 1.
Proof.
  refine (proj1 (@matrix_diag_to_vector_spec Z example_Q (-1)%Z example_s _) 1 _).
  - simpl; lia.
  - simpl; lia.
Defined.

(** [example_d] to the main diagonal of [example_C] and back into
    [example_s]. *)
Lemma matrix_diag_round_trip_witness :
  matrix_diag_to_vector
    (with_elements example_C (matrix_diag_from_vector example_d 0%Z example_C))
    0%Z example_s (v_offset example_s 2)
  = v_element example_d 2.
Proof.
  apply (@matrix_diag_round_trip Z _ example_d example_s 0%Z example_C 2).
  - example_wf.
  - simpl; lia.
  - simpl; lia.
  - simpl; lia.
  - simpl; lia.
  - simpl; lia.
Defined.

(** [example_A * example_x]: the row 1. *)
Lemma prod_impl_vector_spec_witness :
  prod_impl_vector example_A false example_x example_y (v_offset example_y 1)
  = dot_vector example_A false example_x 1 5.
Proof.
  refine (proj1 (@prod_impl_vector_spec Z _ example_A false example_x example_y _) 1 _).
  - simpl; lia.
  - simpl; lia.
Defined.

(** [example_Q += example_d * (-2) * example_d^T]: the element (1, 2). *)
Lemma scaled_rank_1_update_spec_witness :
  scaled_rank_1_update example_Q 2%Z false true example_d example_d
    (offset_of example_Q 1 2)
  = element example_Q 1 2
    +! v_element example_d 1 *! num_opp 2%Z *! v_element example_d 2.
Proof.
  refine (proj1 (@scaled_rank_1_update_spec Z _ example_Q 2%Z false true
                   example_d example_d _) 1 2 _ _).
  - example_wf.
  - simpl; lia.
  - simpl; lia.
Defined.

(** The diagonal and the superdiagonal of [example_Q]. *)
Lemma bidiag_pack_impl_spec_witness :
  snd (bidiag_pack_impl example_Q example_y example_s) (v_offset example_s 0)
  = v_element example_s 0.
Proof.
  refine (proj1 (proj2 (proj2
            (@bidiag_pack_impl_spec Z example_Q example_y example_s _ _ _)))).
  - simpl; lia.
  - simpl; lia.
  - simpl; lia.
Defined.

(** The reflection of the rows 1 and 2 of [example_Q]. *)
Lemma house_update_A_left_spec_witness :
  house_update_A_left example_Q example_d 0 (offset_of example_Q 2 1)
  = reflected (v_element example_d) (fun r => element example_Q r 1) 1 3 2.
Proof.
  refine (proj1 (@house_update_A_left_spec Z _ example_Q example_d 0 _) 2 1 _ _).
  - example_wf.
  - simpl; lia.
  - simpl; lia.
Defined.

Lemma house_update_A_right_spec_witness :
  house_update_A_right example_Q example_d (offset_of example_Q 2 1)
  = reflected (v_element example_d) (fun c => element example_Q 2 c) 0 3 1.
Proof.
  refine (proj1 (@house_update_A_right_spec Z _ example_Q example_d _) 2 1 _ _).
  - example_wf.
  - simpl; lia.
  - simpl; lia.
Defined.

(** The rotations of the column pairs (1, 2) and (0, 1) of [example_Q]. *)
Lemma givens_next_spec_witness :
  givens_next example_Q example_d example_d 0%Z 2%Z (offset_of example_Q 0 1)
  = givens_row (v_element example_d) (v_element example_d)
      (fun c => element example_Q 0 c) 0 2 1.
Proof.
  refine (proj1 (@givens_next_spec Z _ example_Q example_d example_d 0%Z 2%Z _ _ _ _)
            0 1 _ _).
  - example_wf.
  - lia.
  - lia.
  - simpl; lia.
  - simpl; lia.
  - simpl; lia.
Defined.

(** [example_scalar = 2 * example_scalar + 3 * example_scalar * example_scalar]. *)
Lemma prod_impl_single_k_block_witness :
  prod_impl example_get_block_sizes example_garbage
    example_scalar false example_scalar false example_scalar 3%Z 2%Z
    (offset_of example_scalar 0 0)
  = 2%Z *! element example_scalar 0 0
    +! 3%Z *! dot example_scalar false example_scalar false 0 0 0 1.
Proof.
  apply (@prod_impl_single_k_block Z _ example_get_block_sizes example_garbage
           example_scalar false example_scalar false example_scalar 3%Z 2%Z 0 0).
  - reflexivity.
  - unfold valid_block_sizes; simpl; repeat split; lia.
  - example_wf.
  - unfold consistent_dimensions; simpl; repeat split; reflexivity.
  - simpl; lia.
  - simpl; lia.
  - simpl; lia.
Defined.

(** Two contents of the fresh buffers, the same cell of [example_C]. *)
Lemma prod_impl_scratch_independent_witness :
  prod_impl example_get_block_sizes example_garbage
    example_A false example_B false example_C 2%Z 3%Z 5
  = prod_impl example_get_block_sizes example_garbage'
      example_A false example_B false example_C 2%Z 3%Z 5.
Proof.
  apply (@prod_impl_scratch_independent Z _ example_get_block_sizes
           example_garbage example_garbage'
           example_A false example_B false example_C 2%Z 3%Z 5).
  - unfold valid_block_sizes; simpl; repeat split; lia.
  - example_wf.
  - unfold consistent_dimensions; simpl; repeat split; reflexivity.
Defined.

(** [example_B^T * example_B], with the flag and with the transpose
    written into [example_A']. *)
Lemma prod_impl_trans_flag_witness :
  prod_impl example_get_block_sizes example_garbage
    (with_elements example_A' (trans example_B example_A')) false
    example_B false example_C 2%Z 3%Z 5
  = prod_impl example_get_block_sizes example_garbage
      example_B true example_B false example_C 2%Z 3%Z 5.
Proof.
  apply (@prod_impl_trans_flag Z _ example_get_block_sizes example_garbage
           example_B example_A' example_B false example_C 2%Z 3%Z 5).
  - reflexivity.
  - reflexivity.
  - reflexivity.
  - example_wf.
  - unfold valid_block_sizes; simpl; repeat split; lia.
  - example_wf.
  - unfold consistent_dimensions; simpl; repeat split; reflexivity.
Defined.

(** [example_Q] and its column-major copy as [C]. *)
Lemma prod_impl_same_elements_witness :
  prod_impl example_get_block_sizes example_garbage'
    example_B true example_B false example_Q_column_major 2%Z 3%Z
    (offset_of example_Q_column_major 1 2)
  = prod_impl example_get_block_sizes example_garbage
      example_B true example_B false example_Q 2%Z 3%Z
      (offset_of example_Q 1 2).
Proof.
  apply (@prod_impl_same_elements Z _ example_get_block_sizes
           example_garbage example_garbage'
           example_B example_B true example_B example_B false
           example_Q example_Q_column_major 2%Z 3%Z 1 2).
  - repeat split; reflexivity.
  - repeat split; reflexivity.
  - repeat split; try reflexivity.
    intros i j Hi Hj. simpl in Hi, Hj.
    destruct i as [| [| [| i]]]; try lia;
      destruct j as [| [| [| j]]]; try lia; reflexivity.
  - unfold valid_block_sizes; simpl; repeat split; lia.
  - example_wf.
  - example_wf.
  - unfold consistent_dimensions; simpl; repeat split; reflexivity.
  - simpl; lia.
  - simpl; lia.
Defined.

(** Some more values, computed. *)
Example prod_impl_vector_of_3x5 :
  dump (prod_impl_vector example_A false example_x example_y) 4 = [55; 130; 205; 0]%Z.
Proof. vm_compute. reflexivity. Qed.

Example givens_next_of_3x3 :
  dump (givens_next example_Q example_d example_d 0%Z 2%Z) 12
  = [210; -190; 100; -1;  240; -160; 220; -1;  270; -130; 340; -1]%Z.
Proof. vm_compute. reflexivity. Qed.

Example bidiag_pack_impl_of_3x3 :
  dump (fst (bidiag_pack_impl example_Q example_y example_s)) 3 = [1; 5; 9]%Z /\
  dump (snd (bidiag_pack_impl example_Q example_y example_s)) 9
  = [-1; -1; -1;  -1; -1; 2;  -1; -1; 6]%Z.
Proof. split; vm_compute; reflexivity. Qed.
